(** * Exact threshold-share reconstruction: a shallow embedding of
      [sssreconstruct.js] and the properties of its specification.

    The JavaScript program works on [BigInt] values, modelled as [Z]; on
    [Fraction] objects, modelled as a record of two [Z] fields; on arrays,
    modelled as lists accessed by index; on strings, modelled as the lists
    of their UTF-16 code units; on numbers, modelled as NaN, the infinities
    and the rationals; and on thrown [Error]s, modelled by an error monad.
    Loops become structural recursions over the index range they traverse,
    or fuelled recursions when the bound is not syntactic. *)

From Stdlib Require Import String Ascii.
From Stdlib Require Import ZArith List Bool Lia Arith.
From Stdlib Require Import QArith Qcanon Field Permutation Sorted.
Import ListNotations.

Local Open Scope Z_scope.

(** ** Errors and the error monad *)

(** The error kinds of the program.  The source throws [Error] objects
    distinguished by their message, or prints a message and exits with
    status 1; each constructor names one of those sites. *)
Inductive error : Type :=
| InvalidFraction      (* "Fraction denominator 0" *)
| DivisionByZero       (* "Division by zero fraction" *)
| InvalidThreshold     (* "k must be >= 2" / "k cannot exceed number of parsed shares" *)
| ReconstructionFailed (* "Failed to reconstruct with given shares." *)
| InvalidJson          (* "Invalid JSON: missing keys.n or keys.k" *)
| InvalidEntry         (* "Invalid entry for key ..." *)
| UnsupportedDigit     (* "Unsupported digit '...'" *)
| UnsupportedBase      (* "Unsupported base ..." *)
| InvalidDigit         (* "Digit '...' invalid for base ..." *)
| RangeError.          (* BigInt of a number that is no integer *)

Inductive result (A : Type) : Type :=
| Ok (a : A)
| Err (e : error).
Arguments Ok {A} a.
Arguments Err {A} e.

Definition bind {A B : Type} (m : result A) (f : A -> result B) : result B :=
  match m with
  | Ok a => f a
  | Err e => Err e
  end.

Notation "x <- m ;; f" := (bind m (fun x => f))
  (at level 61, m at next level, right associativity).
Notation "' p <- m ;; f" := (bind m (fun x => match x with p => f end))
  (at level 61, p pattern, m at next level, right associativity).

(** ** Strings and numbers *)

(** A string is the sequence of its UTF-16 code units. *)
Definition jsstring : Type := list Z.

(** The string a literal of one-byte characters stands for. *)
Definition jstr (s : string) : jsstring :=
  map (fun c => Z.of_nat (nat_of_ascii c)) (list_ascii_of_string s).
Coercion jstr : string >-> jsstring.
Bind Scope string_scope with jsstring.

(** [a === b] on strings. *)
Fixpoint string_eqb (a b : jsstring) : bool :=
  match a, b with
  | [], [] => true
  | x :: a', y :: b' => (x =? y) && string_eqb a' b'
  | _, _ => false
  end.

(** [a <= b] on strings: code unit by code unit, a prefix before its
    extensions. *)
Fixpoint string_leb (a b : jsstring) : bool :=
  match a, b with
  | [], _ => true
  | _ :: _, [] => false
  | x :: a', y :: b' => (x <? y) || ((x =? y) && string_leb a' b')
  end.

(** A number is NaN, an infinity, or finite; a finite number is held as
    the rational it equals. *)
Inductive number : Type :=
| NaN
| Infinity (negative : bool)
| Num (q : Q).

(** The number equal to the integer [z]; the program has it for the
    lengths of arrays and for what [round_to_double] returns. *)
Definition of_int (z : Z) : number := Num (inject_Z z).
Coercion of_int : Z >-> number.

(** [a < b] on numbers; a comparison with NaN is false. *)
Definition number_ltb (a b : number) : bool :=
  match a, b with
  | NaN, _ | _, NaN => false
  | _, Infinity true => false
  | Infinity true, _ => true
  | Infinity false, _ => false
  | Num _, Infinity false => true
  | Num p, Num q => negb (Qle_bool q p)
  end.

(** [BigInt(v)] for a number [v]: a RangeError unless [v] is an integer. *)
Definition BigInt_of_number (v : number) : result Z :=
  match v with
  | Num q =>
      if Z.rem (Qnum q) (Zpos (Qden q)) =? 0
      then Ok (Z.quot (Qnum q) (Zpos (Qden q)))
      else Err RangeError
  | NaN | Infinity _ => Err RangeError
  end.

(** [ToLength(v)], the length [Array.from({length: v})] gives its array:
    [v] truncated to an integer and clamped to [0, 2^53 - 1]. *)
Definition ToLength (v : number) : Z :=
  match v with
  | NaN | Infinity true => 0
  | Infinity false => 2 ^ 53 - 1
  | Num q => Z.min (Z.max 0 (Z.quot (Qnum q) (Zpos (Qden q)))) (2 ^ 53 - 1)
  end.

(** The number nearest to the integer [z], ties going to the even
    significand of 53 bits: [z] itself below 2^53 in absolute value, an
    infinity from 2^1024 - 2^970 on. *)
Definition round_to_double (z : Z) : number :=
  let a := Z.abs z in
  if a <? 2 ^ 53 then of_int z
  else
    let e := Z.log2 a - 52 in
    let q := Z.shiftr a e in
    let r := a - Z.shiftl q e in
    let half := 2 ^ (e - 1) in
    let q' := if (r >? half) || ((r =? half) && Z.odd q) then q + 1 else q in
    let m := Z.shiftl q' e in
    if m >=? 2 ^ 1024 then Infinity (z <? 0) else of_int (Z.sgn z * m).

(** ** BigInt gcd *)

Definition bigAbs (a : Z) : Z := if a >=? 0 then a else - a.

(** The loop [while (b !== 0n) { const t = a % b; a = b; b = t; }].
    [%] on BigInt is the truncating remainder, [Z.rem].  [None] means the
    fuel ran out before the loop ended. *)
Fixpoint bigGcd_loop (fuel : nat) (a b : Z) : option Z :=
  match fuel with
  | O => None
  | S fuel' => if b =? 0 then Some a else bigGcd_loop fuel' b (Z.rem a b)
  end.

Definition bigGcd_fuel (b : Z) : nat := S (Z.to_nat (bigAbs b)).

Definition bigGcd (a b : Z) : Z :=
  match bigGcd_loop (bigGcd_fuel b) (bigAbs a) (bigAbs b) with
  | Some g => g
  | None => 0
  end.

(** ** Fraction *)

Module Fraction.

Record t : Type := mk { n : Z; d : Z }.

(** [constructor(n, d = 1n)].  [/] on BigInt is the truncating
    quotient, [Z.quot]. *)
Definition new (n0 d0 : Z) : result t :=
  if d0 =? 0 then Err InvalidFraction
  else
    let '(n1, d1) := if d0 <? 0 then (- n0, - d0) else (n0, d0) in
    let g := bigGcd n1 d1 in
    Ok (mk (Z.quot n1 g) (Z.quot d1 g)).

Definition fromBigInt (x : Z) : result t := new x 1.

Definition add (a o : t) : result t :=
  new (n a * d o + n o * d a) (d a * d o).
Definition sub (a o : t) : result t :=
  new (n a * d o - n o * d a) (d a * d o).
Definition mul (a o : t) : result t :=
  new (n a * n o) (d a * d o).
Definition div (a o : t) : result t :=
  if n o =? 0 then Err DivisionByZero
  else new (n a * d o) (d a * n o).
Definition eq (a o : t) : bool := (n a =? n o) && (d a =? d o).
Definition isInteger (a : t) : bool := d a =? 1.

(** The class invariant of the specification: lowest terms, positive
    denominator. *)
Definition canonical (a : t) : Prop :=
  Z.gcd (Z.abs (n a)) (d a) = 1 /\ 0 < d a.

End Fraction.

(** ** Shares *)

Module Share.

(** The objects pushed by [parseInput]:
    [{ x, y, base, raw: entry.value, label: k }]. *)
Record t : Type :=
  mk { x : Z; y : Z; base : number; raw : jsstring; label : jsstring }.

(** Stands for [undefined] when an array is read by index; every index
    the program uses is below the array's length. *)
Definition dummy : t := mk 0 0 0 EmptyString EmptyString.

End Share.

(** ** Loops and arrays *)

(** [for (let i = a; i < b; ++i) body], the loop state threaded through
    the error monad, over the list of the values [i] takes. *)
Fixpoint for_each {St : Type} (idxs : list nat) (body : nat -> St -> result St)
    (s : St) : result St :=
  match idxs with
  | [] => Ok s
  | i :: rest => s' <- body i s ;; for_each rest body s'
  end.

(** [a[i] = v] on an array, for [i] below its length. *)
Fixpoint set_nth {A : Type} (a : list A) (i : nat) (v : A) : list A :=
  match a, i with
  | [], _ => []
  | _ :: t, O => v :: t
  | h :: t, S i' => h :: set_nth t i' v
  end.

(** ** Lagrange interpolation *)

(** One turn of the inner loop [for (let j = 0; j < k; ++j)], shared in
    shape by both interpolation functions; [factor xj] is the numerator
    factor, [(-xj)] or [(xq - xj)]. *)
Definition basis_step (points : list Share.t) (i : nat) (xi : Z)
    (factor : Z -> Z) (j : nat) (st : Fraction.t * Fraction.t)
    : result (Fraction.t * Fraction.t) :=
  let '(num, den) := st in
  if (i =? j)%nat then Ok (num, den)
  else
    let xj := Share.x (nth j points Share.dummy) in
    fnum <- Fraction.new (factor xj) 1 ;;
    num' <- Fraction.mul num fnum ;;
    fden <- Fraction.new (xi - xj) 1 ;;
    den' <- Fraction.mul den fden ;;
    Ok (num', den').

(** One turn of the outer loop [for (let i = 0; i < k; ++i)]. *)
Definition term_step (points : list Share.t) (factor : Z -> Z)
    (i : nat) (acc : Fraction.t) : result Fraction.t :=
  let k := length points in
  let xi := Share.x (nth i points Share.dummy) in
  let yi := Share.y (nth i points Share.dummy) in
  num0 <- Fraction.new 1 1 ;;
  den0 <- Fraction.new 1 1 ;;
  '(num, den) <- for_each (seq 0 k) (basis_step points i xi factor) (num0, den0) ;;
  Li <- Fraction.div num den ;;
  fy <- Fraction.fromBigInt yi ;;
  t <- Fraction.mul fy Li ;;
  Fraction.add acc t.

Definition lagrangeAtZero (points : list Share.t) : result Fraction.t :=
  acc0 <- Fraction.new 0 1 ;;
  for_each (seq 0 (length points)) (term_step points (fun xj => - xj)) acc0.

Definition lagrangeEval (points : list Share.t) (xq : Z) : result Fraction.t :=
  acc0 <- Fraction.new 0 1 ;;
  for_each (seq 0 (length points)) (term_step points (fun xj => xq - xj)) acc0.

(** ** Combinations generator *)

Fixpoint binomial (n k : nat) : nat :=
  match n, k with
  | _, O => 1
  | O, S _ => 0
  | S n', S k' => binomial n' k' + binomial n' k
  end.

(** [while (p >= 0 && idx[p] === p + n - k) p--], started at [p = p1 - 1];
    [None] is the exit with [p < 0]. *)
Fixpoint scan_p (idx : list nat) (n k p1 : nat) : option nat :=
  match p1 with
  | O => None
  | S p => if (nth p idx 0 =? p + n - k)%nat then scan_p idx n k p else Some p
  end.

(** The part of the generator's loop body after the [yield]: [None] is
    the [break], otherwise the index array after [idx[p]++] and the loop
    [for (let j = p + 1; j < k; ++j) idx[j] = idx[j-1] + 1]. *)
Definition advance (idx : list nat) (n k : nat) : option (list nat) :=
  match scan_p idx n k k with
  | None => None
  | Some p =>
      let idx1 := set_nth idx p (S (nth p idx 0%nat)) in
      Some (fold_left (fun a j => set_nth a j (S (nth (j - 1) a 0%nat)))
                      (seq (S p) (k - S p)) idx1)
  end.

Section Combinations.

Context {A : Type} (undefined : A).

(** [idx.map(i => arr[i])] *)
Definition pick (arr : list A) (idx : list nat) : list A :=
  map (fun i => nth i arr undefined) idx.

(** The [while (true)] loop of the generator; the result lists the
    yielded arrays.  [None] means the fuel ran out before the [break]. *)
Fixpoint combinations_loop (fuel : nat) (arr : list A) (n k : nat)
    (idx : list nat) : option (list (list A)) :=
  match fuel with
  | O => None
  | S fuel' =>
      match advance idx n k with
      | None => Some [pick arr idx]
      | Some idx' =>
          option_map (cons (pick arr idx)) (combinations_loop fuel' arr n k idx')
      end
  end.

(** The sequence the generator yields.  The main loop only reads the
    yielded arrays, so consuming the generator lazily and stopping
    early is the same as traversing a prefix of this list. *)
Definition combinations (arr : list A) (k : nat) : list (list A) :=
  let n := length arr in
  if (n <? k)%nat then []
  else
    match combinations_loop (binomial n k) arr n k (seq 0 k) with
    | Some l => l
    | None => []
    end.

End Combinations.

(** ** The consensus search of [main] *)

(** The object [{ fitCount, subset, secretFrac, fits }] assigned to [best]
    when a subset wins.  The initial
    [{ fitCount: -1, subset: null, secretFrac: null, fits: null }] is [None]
    in the search state. *)
Record Best : Type := mkBest {
  fitCount : Z;
  subset : list Share.t;
  secretFrac : Fraction.t;
  fits : list bool
}.

Definition best_fitCount (best : option Best) : Z :=
  match best with
  | None => -1
  | Some b => fitCount b
  end.

(** [xsSet.size !== xs.length] for [xs = subset.map(s => s.x.toString())];
    the decimal rendering of a BigInt is injective, so the set of strings
    has the size of the set of values. *)
Definition has_duplicate_x (subset : list Share.t) : bool :=
  let xs := map Share.x subset in
  negb (length (nodup Z.eq_dec xs) =? length xs)%nat.

(** One turn of the verification loop over all shares. *)
Definition verify_step (shares subset : list Share.t) (i : nat)
    (st : list bool * Z) : result (list bool * Z) :=
  let '(fits, fitCount) := st in
  let p := nth i shares Share.dummy in
  val <- lagrangeEval subset (Share.x p) ;;
  if Fraction.isInteger val && (Fraction.n val =? Share.y p)
  then Ok (set_nth fits i true, fitCount + 1)
  else Ok (fits, fitCount).

Definition verify (shares subset : list Share.t) : result (list bool * Z) :=
  for_each (seq 0 (length shares)) (verify_step shares subset)
           (repeat false (length shares), 0).

(** The loop [for (const subset of combinations(shares, k))], with its
    [continue]s and its [break]. *)
Fixpoint search (shares : list Share.t) (subsets : list (list Share.t))
    (best : option Best) : result (option Best) :=
  match subsets with
  | [] => Ok best
  | subset :: rest =>
      if has_duplicate_x subset then search shares rest best
      else
        match lagrangeAtZero subset with
        | Err _ => search shares rest best
        | Ok secretFrac =>
            '(fits, fitCount) <- verify shares subset ;;
            if fitCount >? best_fitCount best then
              let best' := Some (mkBest fitCount subset secretFrac fits) in
              if fitCount =? Z.of_nat (length shares) then Ok best'
              else search shares rest best'
            else search shares rest best
        end
  end.

(** [main] from the threshold checks to the failure test after the loop:
    the operation the specification calls [reconstruct(shares, k)]. *)
Definition reconstruct (shares : list Share.t) (k : Z) : result Best :=
  if k <? 2 then Err InvalidThreshold
  else if k >? Z.of_nat (length shares) then Err InvalidThreshold
  else
    best <- search shares (combinations Share.dummy shares (Z.to_nat k)) None ;;
    match best with
    | None => Err ReconstructionFailed
    | Some b => Ok b
    end.

(** ** Input parsing *)

(** The value [JSON.parse] returns; an object is the list of its own
    properties. *)
#[warnings="-register-all"] Inductive json : Type :=
| JNull
| JBool (b : bool)
| JNum (v : number)
| JStr (s : jsstring)
| JArr (items : list json)
| JObj (props : list (jsstring * json)).

(** [o[key]] on the list of an object's own properties; [None] is
    [undefined]. *)
Fixpoint lookup (key : jsstring) (props : list (jsstring * json)) : option json :=
  match props with
  | [] => None
  | (k, v) :: rest => if string_eqb k key then Some v else lookup key rest
  end.

(** [v.key] for one of the property names the parser reads ([n], [k],
    [base], [value]), which only objects can carry. *)
Definition prop (v : option json) (key : jsstring) : option json :=
  match v with
  | Some (JObj props) => lookup key props
  | _ => None
  end.

Definition truthy (v : option json) : bool :=
  match v with
  | None | Some JNull => false
  | Some (JBool b) => b
  | Some (JNum NaN) => false
  | Some (JNum (Infinity _)) => true
  | Some (JNum (Num q)) => negb (Qeq_bool q 0)
  | Some (JStr s) => negb (string_eqb s EmptyString)
  | Some (JArr _) | Some (JObj _) => true
  end.

Definition is_digit (c : Z) : bool := (48 <=? c) && (c <=? 57).

(** [/^\d+$/.test(k)] *)
Definition all_digits (k : jsstring) : bool :=
  match k with
  | [] => false
  | cs => forallb is_digit cs
  end.

Definition decimal_value (cs : jsstring) : Z :=
  fold_left (fun v c => v * 10 + (c - 48)) cs 0.

(** [BigInt(k)] for a string of decimal digits. *)
Definition BigInt_of_digits (k : jsstring) : Z := decimal_value k.

(** The white space and line terminators [trim] and [parseInt] strip:
    TAB, LF, VT, FF, CR, SPACE, U+00A0, U+1680, U+2000 to U+200A, U+2028,
    U+2029, U+202F, U+205F, U+3000 and U+FEFF. *)
Definition is_space (c : Z) : bool :=
  ((9 <=? c) && (c <=? 13)) || (c =? 32) || (c =? 160) || (c =? 5760) ||
  ((8192 <=? c) && (c <=? 8202)) || (c =? 8232) || (c =? 8233) ||
  (c =? 8239) || (c =? 8287) || (c =? 12288) || (c =? 65279).

Fixpoint trim_start (cs : jsstring) : jsstring :=
  match cs with
  | c :: rest => if is_space c then trim_start rest else cs
  | [] => []
  end.

Definition trim (cs : jsstring) : jsstring :=
  rev (trim_start (rev (trim_start cs))).

Fixpoint take_digits (cs : jsstring) : jsstring :=
  match cs with
  | c :: rest => if is_digit c then c :: take_digits rest else []
  | [] => []
  end.

(** [parseInt(s, 10)]: leading white space, an optional sign, then the
    longest run of decimal digits, NaN when there is none; the integer
    read is rounded to a number. *)
Definition parseInt10 (s : jsstring) : number :=
  let cs := trim_start s in
  let '(sign, cs') :=
    match cs with
    | c :: rest =>
        if c =? 45 then (-1, rest)
        else if c =? 43 then (1, rest)
        else (1, cs)
    | [] => (1, cs)
    end in
  match take_digits cs' with
  | [] => NaN
  | ds => round_to_double (sign * decimal_value ds)
  end.

(** [ch.toLowerCase()] for a string [ch] of one code unit.  The letters
    A to Z and the capital letters from U+00C0 to U+00DE go to their small
    forms, 32 further; U+0130 goes to the two code units U+0069 U+0307 and
    U+212A, the Kelvin sign, to U+006B.  Of all characters only A to Z,
    U+0130 and U+212A have a lower case that differs from them and starts
    below U+0080.  Every other character is left as it is here; where its
    lower case is another character, that one starts above U+007F too,
    which is all that [charToVal], the only caller, can tell. *)
Definition toLowerCase (ch : Z) : jsstring :=
  if (65 <=? ch) && (ch <=? 90) then [ch + 32]
  else if (192 <=? ch) && (ch <=? 222) && negb (ch =? 215) then [ch + 32]
  else if ch =? 304 then [105; 775]
  else if ch =? 8490 then [107]
  else [ch].

(** [c.charCodeAt(0)] on a string that is not empty. *)
Definition charCodeAt0 (c : jsstring) : Z := hd 0 c.

Definition charToVal (ch : Z) : result Z :=
  let c := toLowerCase ch in
  if string_leb "0" c && string_leb c "9" then Ok (charCodeAt0 c - 48)
  else if string_leb "a" c && string_leb c "z" then Ok (charCodeAt0 c - 97 + 10)
  else Err UnsupportedDigit.

(** The loop [for (const rawCh of str.trim())] of [parseInBase], one code
    unit a turn.  The source takes one code point a turn; the two code
    units of a pair above U+FFFF are no separator and no digit, whether
    taken one by one or together, so the loop ends in the same
    [UnsupportedDigit] at the pair. *)
Fixpoint parseInBase_loop (cs : jsstring) (B v : Z) : result Z :=
  match cs with
  | [] => Ok v
  | rawCh :: rest =>
      if (rawCh =? 95) || (rawCh =? 32) then parseInBase_loop rest B v
      else
        d <- charToVal rawCh ;;
        if d >=? B then Err InvalidDigit
        else parseInBase_loop rest B (v * B + d)
  end.

Definition parseInBase (str : jsstring) (base : number) : result Z :=
  B <- BigInt_of_number base ;;
  if (B <? 2) || (B >? 36) then Err UnsupportedBase
  else parseInBase_loop (trim str) B 0.

(** [shares.sort((a,b) => (a.x < b.x ? -1 : a.x > b.x ? 1 : 0))]; the
    sort of an array is stable. *)
Fixpoint insert_by_x (s : Share.t) (sorted : list Share.t) : list Share.t :=
  match sorted with
  | [] => [s]
  | h :: t =>
      if Share.x h <? Share.x s then h :: insert_by_x s t else s :: h :: t
  end.

Definition sort_by_x (shares : list Share.t) : list Share.t :=
  fold_right insert_by_x [] shares.

(** The body of [for (const k of Object.keys(data))]. *)
Definition parse_entry (data : list (jsstring * json)) (k : jsstring)
    (shares : list Share.t) : result (list Share.t) :=
  if string_eqb k "keys" then Ok shares
  else if negb (all_digits k) then Ok shares
  else
    let entry := lookup k data in
    match truthy entry, prop entry "base", prop entry "value" with
    | true, Some (JStr b), Some (JStr v) =>
        let x := BigInt_of_digits k in
        let base := parseInt10 b in
        y <- parseInBase v base ;;
        Ok (shares ++ [Share.mk x y base v k])
    | _, _, _ => Err InvalidEntry
    end.

Fixpoint parse_entries (data : list (jsstring * json)) (keys : list jsstring)
    (shares : list Share.t) : result (list Share.t) :=
  match keys with
  | [] => Ok shares
  | k :: rest =>
      shares' <- parse_entry data k shares ;;
      parse_entries data rest shares'
  end.

(** [parseInput] after [JSON.parse]: [data] lists the own properties of
    the parsed object in the order of [Object.keys]. *)
Definition parseInput (data : list (jsstring * json))
    : result (number * number * list Share.t) :=
  let keys := lookup "keys" data in
  match truthy keys, prop keys "n", prop keys "k" with
  | true, Some (JNum n), Some (JNum k) =>
      shares <- parse_entries data (map fst data) [] ;;
      Ok (n, k, sort_by_x shares)
  | _, _, _ => Err InvalidJson
  end.

(** ** [main] *)

(** The loop of [main] on a generator that yields [subset] at every
    turn, run for [fuel] turns at most; [None] means that the loop is
    still running when the fuel runs out. *)
Fixpoint search_repeat (fuel : nat) (shares subset : list Share.t)
    (best : option Best) : option (result Best) :=
  match fuel with
  | O => None
  | S fuel' =>
      if has_duplicate_x subset then search_repeat fuel' shares subset best
      else
        match lagrangeAtZero subset with
        | Err _ => search_repeat fuel' shares subset best
        | Ok secretFrac =>
            match verify shares subset with
            | Err e => Some (Err e)
            | Ok (fits, fitCount) =>
                if fitCount >? best_fitCount best then
                  let best' := mkBest fitCount subset secretFrac fits in
                  if fitCount =? Z.of_nat (length shares) then Some (Ok best')
                  else search_repeat fuel' shares subset (Some best')
                else search_repeat fuel' shares subset best
            end
        end
  end.

(** How a run of [main] ends, when it does. *)
Inductive outcome : Type :=
| Ends (r : result Best)
| Loops.

(** [main] up to the result it prints.  With an integer [k] it is
    [reconstruct].  With any other number [k] that passes the two
    threshold checks, [combinations] builds [idx] with [ToLength(k)]
    entries and never changes them: [p = k - 1] is no index, so
    [idx[p]] is [undefined] at first and NaN afterwards, never [===] to
    a number; the scan stops at once with [p >= 0], or at once with a
    [p] that is NaN, [idx[p]++] writes a property that is no element,
    and the refill starts at [j = k].  The generator then yields the
    first [ToLength(k)] shares at every turn, and the loop ends at its
    first turn or at none. *)
Definition main (data : list (jsstring * json)) : outcome :=
  match parseInput data with
  | Err e => Ends (Err e)
  | Ok (_, k, shares) =>
      match BigInt_of_number k with
      | Ok z => Ends (reconstruct shares z)
      | Err _ =>
          if number_ltb k 2 then Ends (Err InvalidThreshold)
          else if number_ltb (Z.of_nat (length shares)) k
          then Ends (Err InvalidThreshold)
          else
            let subset :=
              pick Share.dummy shares (seq 0 (Z.to_nat (ToLength k))) in
            match search_repeat 1 shares subset None with
            | Some r => Ends r
            | None => Loops
            end
      end
  end.

(** ** The report of [main] *)

(** One turn of the loop
    [if (best.fits[i]) good.push(shares[i]); else bad.push(shares[i]);]
    that splits the shares for the report. *)
Definition good_bad_step (shares : list Share.t) (fits : list bool)
    (st : list Share.t * list Share.t) (i : nat)
    : list Share.t * list Share.t :=
  let '(good, bad) := st in
  if nth i fits false then (good ++ [nth i shares Share.dummy], bad)
  else (good, bad ++ [nth i shares Share.dummy]).

Definition good_bad (shares : list Share.t) (fits : list bool)
    : list Share.t * list Share.t :=
  fold_left (good_bad_step shares fits) (seq 0 (length shares)) ([], []).

(** * Specification-level notions

    The mathematics the properties are stated and proved with: the
    rational a fraction denotes, polynomials as coefficient lists, the
    recursive enumeration of index subsets.  None of it is of the
    program; the program is related to it by the lemmas below. *)

(** ** The rational a fraction denotes *)

(** An integer as a rational in canonical form. *)
Definition zq (z : Z) : Qc := Q2Qc (inject_Z z).

Definition Fval (f : Fraction.t) : Qc :=
  (zq (Fraction.n f) / zq (Fraction.d f))%Qc.

(** ** The Lagrange form *)

Definition Zprod (l : list Z) : Z := fold_right Z.mul 1 l.

Definition Qsum (l : list Qc) : Qc := fold_right Qcplus 0%Qc l.

(** [points[j].x] and [points[j].y] *)
Definition xat (points : list Share.t) (j : nat) : Z :=
  Share.x (nth j points Share.dummy).

Definition yat (points : list Share.t) (j : nat) : Z :=
  Share.y (nth j points Share.dummy).

(** The indices the inner loop does not skip. *)
Definition others (i : nat) (js : list nat) : list nat :=
  filter (fun j => negb (i =? j)%nat) js.

(** The integers held by [num] and [den] when the inner loop of turn [i]
    ends: the products of the numerator factors, and of the differences
    [xi - xj], over [j <> i]. *)
Definition num_at (points : list Share.t) (factor : Z -> Z) (i : nat) : Z :=
  Zprod (map (fun j => factor (xat points j)) (others i (seq 0 (length points)))).

Definition den_at (points : list Share.t) (i : nat) : Z :=
  num_at points (fun xj => xat points i - xj) i.

(** [y_i * L_i] and the sum over [i]. *)
Definition lagrange_term (points : list Share.t) (factor : Z -> Z) (i : nat) : Qc :=
  (zq (yat points i) * (zq (num_at points factor i) / zq (den_at points i)))%Qc.

Definition lagrange_sum (points : list Share.t) (factor : Z -> Z) : Qc :=
  Qsum (map (lagrange_term points factor) (seq 0 (length points))).

(** The value at [xq] of the Lagrange form through [points]. *)
Definition lagrange_value (points : list Share.t) (xq : Z) : Qc :=
  lagrange_sum points (fun xj => xq - xj).

(** ** Polynomials over the rationals

    A polynomial is the list of its coefficients, constant term first; a
    list of length at most [k] is a polynomial of degree at most [k - 1]. *)

Fixpoint peval (c : list Qc) (x : Qc) : Qc :=
  match c with
  | [] => 0%Qc
  | a :: c' => (a + x * peval c' x)%Qc
  end.

Fixpoint padd (c1 c2 : list Qc) : list Qc :=
  match c1, c2 with
  | [], _ => c2
  | _, [] => c1
  | a :: c1', b :: c2' => (a + b)%Qc :: padd c1' c2'
  end.

Definition pscale (s : Qc) (c : list Qc) : list Qc := map (Qcmult s) c.

(** [(X - a) * c] *)
Definition pmul_lin (a : Qc) (c : list Qc) : list Qc :=
  padd (0%Qc :: c) (pscale (- a)%Qc c).

(** The quotient of [c] by [X - r] (synthetic division). *)
Fixpoint pquot (r : Qc) (c : list Qc) : list Qc :=
  match c with
  | [] => []
  | _ :: c' => padd c' (pscale r (pquot r c'))
  end.

(** A polynomial with integer coefficients, evaluated on the integers. *)
Fixpoint evalZ (c : list Z) (x : Z) : Z :=
  match c with
  | [] => 0
  | a :: c' => a + x * evalZ c' x
  end.

Definition psub (c1 c2 : list Qc) : list Qc :=
  padd c1 (pscale (- (1))%Qc c2).

(** [(X - r1) * ... * (X - rm)] *)
Definition prod_lin (roots : list Qc) : list Qc :=
  fold_right pmul_lin [1%Qc] roots.

Definition psum (l : list (list Qc)) : list Qc := fold_right padd [] l.

(** The Lagrange form through [points] as a list of coefficients. *)
Definition lagrange_poly (points : list Share.t) : list Qc :=
  let k := length points in
  psum (map (fun i =>
               pscale (zq (yat points i) / zq (den_at points i))%Qc
                      (prod_lin (map (fun j => zq (xat points j))
                                     (others i (seq 0 k)))))
            (seq 0 k)).

(** [c] passes through every one of [points]. *)
Definition through (c : list Qc) (points : list Share.t) : Prop :=
  forall p, In p points -> peval c (zq (Share.x p)) = zq (Share.y p).

(** ** Subsets by increasing indices *)

(** The increasing [k]-element lists of indices drawn from
    [s, s+1, ..., s+m-1], those containing [s] first. *)
Fixpoint index_subsets (m s k : nat) {struct m} : list (list nat) :=
  match k, m with
  | O, _ => [[]]
  | S _, O => []
  | S k', S m' =>
      map (cons s) (index_subsets m' (S s) k') ++ index_subsets m' (S s) k
  end.

(** The successor of an index list among the increasing lists below [n],
    read on any suffix of the generator's array: the last entry that can
    grow is incremented and the entries after it restart just above it. *)
Fixpoint next (n : nat) (l : list nat) : option (list nat) :=
  match l with
  | [] => None
  | a :: rest =>
      match next n rest with
      | Some rest' => Some (a :: rest')
      | None =>
          if (a + S (length rest) =? n)%nat then None
          else Some (seq (S a) (S (length rest)))
      end
  end.

(** [l] lists successive index lists, starting with the successor of [a]. *)
Fixpoint path (n : nat) (a : list nat) (l : list (list nat)) : Prop :=
  match l with
  | [] => True
  | b :: l' => next n a = Some b /\ path n b l'
  end.

(** Lexicographic order on index lists. *)
Fixpoint lex_lt (a b : list nat) : Prop :=
  match a, b with
  | _, [] => False
  | [], _ :: _ => True
  | x :: a', y :: b' => (x < y)%nat \/ (x = y /\ lex_lt a' b')
  end.

(** [l] is strictly increasing with its entries in [s, e). *)
Fixpoint increasing (s e : nat) (l : list nat) : Prop :=
  match l with
  | [] => True
  | a :: l' => (s <= a < e)%nat /\ increasing (S a) e l'
  end.

(** ** Support of a polynomial among the shares *)

(** The share [p] lies on the polynomial [c]. *)
Definition lies_on (c : list Qc) (p : Share.t) : bool :=
  Qc_eq_bool (peval c (zq (Share.x p))) (zq (Share.y p)).

(** The number of shares lying on [c]. *)
Definition support (c : list Qc) (shares : list Share.t) : Z :=
  Z.of_nat (length (filter (lies_on c) shares)).

(** Shares all on one polynomial of degree below [k]. *)
Definition consistent (k : nat) (points : list Share.t) : Prop :=
  exists c : list Qc, (length c <= k)%nat /\ through c points.

(** The shares of [shares] at increasing positions. *)
Definition subcollection (points shares : list Share.t) : Prop :=
  exists idx, increasing 0 (length shares) idx /\
              points = pick Share.dummy shares idx.

(** The number of different [x] among the shares. *)
Definition distinct_x (shares : list Share.t) : nat :=
  length (nodup Z.eq_dec (map Share.x shares)).

(** The record the search builds for a subset with pairwise distinct
    [x], on which [lagrangeAtZero] returned [secretFrac]. *)
Definition candidate (shares subset : list Share.t) (secretFrac : Fraction.t)
    : Best :=
  mkBest (support (lagrange_poly subset) shares) subset secretFrac
         (map (lies_on (lagrange_poly subset)) shares).

(** What holds of every record the search can hold in [best]. *)
Definition well_formed (shares : list Share.t) (subsets : list (list Share.t))
    (b : Best) : Prop :=
  In (subset b) subsets /\
  NoDup (map Share.x (subset b)) /\
  lagrangeAtZero (subset b) = Ok (secretFrac b) /\
  b = candidate shares (subset b) (secretFrac b).

(** The share [p] is a point of the integer polynomial [cs]. *)
Definition on_curve (cs : list Z) (p : Share.t) : Prop :=
  Share.y p = evalZ cs (Share.x p).

(** What [parseInput] guarantees of a share: its label is a key of the
    parsed object made of decimal digits, and its [x] is the integer the
    label denotes. *)
Definition parsed_from (data : list (jsstring * json)) (s : Share.t) : Prop :=
  In (Share.label s) (map fst data) /\
  all_digits (Share.label s) = true /\
  Share.x s = BigInt_of_digits (Share.label s).

(** The test of [on_curve]. *)
Definition on_curveb (cs : list Z) (p : Share.t) : bool :=
  Share.y p =? evalZ cs (Share.x p).

(** The small form of the letters A to Z; any other code unit as it is. *)
Definition lower_ascii (c : Z) : Z :=
  if (65 <=? c) && (c <=? 90) then c + 32 else c.

(** Two arrays of shares with the same points [(x, y)], position by
    position, whatever their other fields. *)
Definition same_points (l l' : list Share.t) : Prop :=
  map Share.x l = map Share.x l' /\ map Share.y l = map Share.y l'.

(** Two outcomes of [reconstruct] that differ at most in the fields
    other than [x] and [y] of the winning subset's shares. *)
Definition same_outcome (r r' : result Best) : Prop :=
  match r, r' with
  | Ok b, Ok b' =>
      fitCount b = fitCount b' /\ secretFrac b = secretFrac b' /\
      fits b = fits b' /\ same_points (subset b) (subset b')
  | Err e, Err e' => e = e'
  | _, _ => False
  end.

(** * Properties *)

(** Closes [NoDup] goals on lists of literals. *)
Ltac distinct_literals :=
  cbn; repeat constructor; cbn; intuition discriminate.

(** ** Facts on the gcd loop *)

Lemma bigAbs_abs (a : Z) : bigAbs a = Z.abs a.
Proof.
  unfold bigAbs. destruct (Z.geb_spec a 0); lia.
Qed.

Lemma bigGcd_loop_gcd (fuel : nat) :
  forall a b, 0 <= a -> 0 <= b -> (Z.to_nat b < fuel)%nat ->
    bigGcd_loop fuel a b = Some (Z.gcd a b).
Proof.
  induction fuel as [|fuel IH]; intros a b Ha Hb Hf; [lia|].
  cbn [bigGcd_loop]. destruct (Z.eqb_spec b 0) as [->|Hne].
  - rewrite Z.gcd_0_r, Z.abs_eq by assumption. reflexivity.
  - assert (Hr : 0 <= Z.rem a b < b) by (apply Z.rem_bound_pos; lia).
    rewrite IH by lia.
    f_equal. rewrite Z.rem_mod_nonneg by lia.
    rewrite (Z.gcd_comm b), Z.gcd_mod by lia. apply Z.gcd_comm.
Qed.

(** The loop always ends within its fuel, and computes the gcd. *)
Lemma bigGcd_loop_terminates (a b : Z) :
  bigGcd_loop (bigGcd_fuel b) (bigAbs a) (bigAbs b) = Some (Z.gcd a b).
Proof.
  unfold bigGcd_fuel. rewrite !bigAbs_abs.
  rewrite bigGcd_loop_gcd by lia.
  rewrite Z.gcd_abs_l, Z.gcd_abs_r. reflexivity.
Qed.

Lemma bigGcd_gcd (a b : Z) : bigGcd a b = Z.gcd a b.
Proof.
  unfold bigGcd. rewrite bigGcd_loop_terminates. reflexivity.
Qed.

(** ** The constructor of [Fraction] *)

Lemma zq_add a b : zq (a + b) = (zq a + zq b)%Qc.
Proof.
  unfold zq, Qcplus. apply Q2Qc_eq_iff. cbn [this Q2Qc].
  rewrite !Qred_correct, inject_Z_plus. reflexivity.
Qed.
Lemma zq_mul a b : zq (a * b) = (zq a * zq b)%Qc.
Proof.
  unfold zq, Qcmult. apply Q2Qc_eq_iff. cbn [this Q2Qc].
  rewrite !Qred_correct, inject_Z_mult. reflexivity.
Qed.
Lemma zq_opp a : zq (- a) = (- zq a)%Qc.
Proof.
  unfold zq, Qcopp. apply Q2Qc_eq_iff. cbn [this Q2Qc].
  rewrite !Qred_correct, inject_Z_opp. reflexivity.
Qed.
Lemma zq_sub a b : zq (a - b) = (zq a - zq b)%Qc.
Proof.
  unfold Z.sub, Qcminus. rewrite zq_add, zq_opp. reflexivity.
Qed.
Lemma zq_inj a b : zq a = zq b -> a = b.
Proof.
  unfold zq. intros H. apply Q2Qc_eq_iff in H. unfold Qeq in H. cbn in H. lia.
Qed.
Lemma zq_0 : zq 0 = 0%Qc.
Proof. apply Qc_is_canon. reflexivity. Qed.
Lemma zq_1 : zq 1 = 1%Qc.
Proof. apply Qc_is_canon. reflexivity. Qed.
Lemma zq_neq0 a : a <> 0 -> zq a <> 0%Qc.
Proof. intros H E. rewrite <- zq_0 in E. apply zq_inj in E. contradiction. Qed.

Lemma new_ok (n0 d0 : Z) :
  d0 <> 0 ->
  exists r, Fraction.new n0 d0 = Ok r /\ Fraction.canonical r /\
            Fval r = (zq n0 / zq d0)%Qc.
Proof.
  intros Hd. unfold Fraction.new.
  destruct (Z.eqb_spec d0 0) as [|_]; [contradiction|].
  set (nd := if d0 <? 0 then (- n0, - d0) else (n0, d0)).
  assert (Hnd : 0 < snd nd /\ fst nd * d0 = n0 * snd nd).
  { subst nd. destruct (Z.ltb_spec d0 0); cbn; split; lia. }
  destruct nd as [n1 d1]. cbn [fst snd] in Hnd. destruct Hnd as [Hpos Hcross].
  rewrite bigGcd_gcd.
  set (g := Z.gcd n1 d1).
  assert (Hg : 0 < g).
  { subst g. pose proof (Z.gcd_nonneg n1 d1).
    destruct (Z.eq_dec (Z.gcd n1 d1) 0) as [E|E]; [|lia].
    apply Z.gcd_eq_0_r in E. lia. }
  destruct (Z.gcd_divide_l n1 d1) as [n' Hn'].
  destruct (Z.gcd_divide_r n1 d1) as [d' Hd'].
  fold g in Hn', Hd'.
  assert (Hd'pos : 0 < d') by nia.
  assert (Hcop : Z.gcd n' d' = 1).
  { assert (E : Z.gcd (n' * g) (d' * g) = Z.gcd n' d' * g).
    { rewrite Z.gcd_mul_mono_r, Z.abs_eq by lia. reflexivity. }
    rewrite <- Hn', <- Hd' in E. fold g in E.
    pose proof (Z.gcd_nonneg n' d'). nia. }
  clearbody g. subst n1 d1.
  eexists. split; [reflexivity|].
  rewrite !Z.quot_mul by lia.
  split.
  - split; cbn; [|exact Hd'pos].
    rewrite Z.gcd_abs_l. exact Hcop.
  - unfold Fval; cbn.
    assert (E : (zq n' * zq d0 = zq n0 * zq d')%Qc).
    { rewrite <- !zq_mul. f_equal. nia. }
    pose proof (zq_neq0 d' ltac:(lia)). pose proof (zq_neq0 d0 Hd).
    field_simplify_eq; auto. rewrite E. ring.
Qed.

Lemma new_canonical (n0 d0 : Z) (r : Fraction.t) :
  Fraction.new n0 d0 = Ok r -> Fraction.canonical r.
Proof.
  intros H. destruct (Z.eq_dec d0 0) as [->|Hd].
  - discriminate H.
  - destruct (new_ok n0 d0 Hd) as (r' & E & Hc & _). congruence.
Qed.

Lemma new_zero_denominator (n0 : Z) : Fraction.new n0 0 = Err InvalidFraction.
Proof. reflexivity. Qed.

Lemma new_integer (z : Z) : Fraction.new z 1 = Ok (Fraction.mk z 1).
Proof.
  unfold Fraction.new. cbn [Z.eqb Z.ltb Z.compare].
  rewrite bigGcd_gcd, Z.gcd_1_r, !Z.quot_1_r. reflexivity.
Qed.

Lemma mul_integer (a b : Z) :
  Fraction.mul (Fraction.mk a 1) (Fraction.mk b 1) = Ok (Fraction.mk (a * b) 1).
Proof. unfold Fraction.mul. cbn [Fraction.n Fraction.d Z.mul Pos.mul]. apply new_integer. Qed.

Lemma canonical_integer (z : Z) : Fraction.canonical (Fraction.mk z 1).
Proof. split; cbn; [apply Z.gcd_1_r | lia]. Qed.

Lemma Fval_integer (z : Z) : Fval (Fraction.mk z 1) = zq z.
Proof.
  unfold Fval; cbn [Fraction.n Fraction.d]. rewrite zq_1. field.
  intros H; discriminate H.
Qed.

Lemma canonical_d_neq0 (a : Fraction.t) : Fraction.canonical a -> zq (Fraction.d a) <> 0%Qc.
Proof. intros [_ H]. apply zq_neq0. lia. Qed.

(** Two canonical fractions denoting the same rational are the same
    object, field by field. *)
Lemma canonical_inj (a b : Fraction.t) :
  Fraction.canonical a -> Fraction.canonical b -> Fval a = Fval b -> a = b.
Proof.
  intros Ha Hb E.
  pose proof (canonical_d_neq0 a Ha) as Hda. pose proof (canonical_d_neq0 b Hb) as Hdb.
  destruct a as [na da], b as [nb db]. destruct Ha as [Ga Pa], Hb as [Gb Pb].
  unfold Fval in E. cbn [Fraction.n Fraction.d] in *.
  assert (Hx : na * db = nb * da).
  { apply zq_inj. rewrite !zq_mul.
    transitivity (zq na / zq da * (zq da * zq db))%Qc; [field; auto|].
    rewrite E. field; auto. }
  rewrite Z.gcd_abs_l in Ga, Gb.
  assert (Dab : (da | db)).
  { apply Z.gauss with na; [|rewrite Z.gcd_comm; exact Ga].
    exists nb. lia. }
  assert (Dba : (db | da)).
  { apply Z.gauss with nb; [|rewrite Z.gcd_comm; exact Gb].
    exists na. lia. }
  assert (da = db) by (apply Z.divide_antisym_nonneg; auto; lia).
  subst db. f_equal. nia.
Qed.

(** ** The arithmetic of [Fraction] *)

Section FractionArithmetic.

Variables a o : Fraction.t.
Hypothesis Ha : Fraction.canonical a.
Hypothesis Ho : Fraction.canonical o.

Let da_pos : 0 < Fraction.d a := proj2 Ha.
Let do_pos : 0 < Fraction.d o := proj2 Ho.
Let da_q : zq (Fraction.d a) <> 0%Qc := canonical_d_neq0 a Ha.
Let do_q : zq (Fraction.d o) <> 0%Qc := canonical_d_neq0 o Ho.

Lemma add_ok :
  exists r, Fraction.add a o = Ok r /\ Fraction.canonical r /\
            Fval r = (Fval a + Fval o)%Qc.
Proof.
  unfold Fraction.add.
  destruct (new_ok (Fraction.n a * Fraction.d o + Fraction.n o * Fraction.d a)
                   (Fraction.d a * Fraction.d o)) as (r & E & Hc & Hv); [nia|].
  exists r. repeat split; try apply Hc; [exact E|].
  rewrite Hv. unfold Fval. rewrite zq_add, !zq_mul. field; auto.
Qed.

Lemma sub_ok :
  exists r, Fraction.sub a o = Ok r /\ Fraction.canonical r /\
            Fval r = (Fval a - Fval o)%Qc.
Proof.
  unfold Fraction.sub.
  destruct (new_ok (Fraction.n a * Fraction.d o - Fraction.n o * Fraction.d a)
                   (Fraction.d a * Fraction.d o)) as (r & E & Hc & Hv); [nia|].
  exists r. repeat split; try apply Hc; [exact E|].
  rewrite Hv. unfold Fval. rewrite zq_sub, !zq_mul. field; auto.
Qed.

Lemma mul_ok :
  exists r, Fraction.mul a o = Ok r /\ Fraction.canonical r /\
            Fval r = (Fval a * Fval o)%Qc.
Proof.
  unfold Fraction.mul.
  destruct (new_ok (Fraction.n a * Fraction.n o)
                   (Fraction.d a * Fraction.d o)) as (r & E & Hc & Hv); [nia|].
  exists r. repeat split; try apply Hc; [exact E|].
  rewrite Hv. unfold Fval. rewrite !zq_mul. field; auto.
Qed.

Lemma div_ok :
  Fraction.n o <> 0 ->
  exists r, Fraction.div a o = Ok r /\ Fraction.canonical r /\
            Fval r = (Fval a / Fval o)%Qc.
Proof.
  intros Hn. unfold Fraction.div.
  destruct (Z.eqb_spec (Fraction.n o) 0) as [|_]; [contradiction|].
  destruct (new_ok (Fraction.n a * Fraction.d o)
                   (Fraction.d a * Fraction.n o)) as (r & E & Hc & Hv); [nia|].
  exists r. repeat split; try apply Hc; [exact E|].
  rewrite Hv. unfold Fval. rewrite !zq_mul.
  pose proof (zq_neq0 _ Hn). field; auto.
Qed.

Lemma div_by_zero : Fraction.n o = 0 -> Fraction.div a o = Err DivisionByZero.
Proof. intros Hn. unfold Fraction.div. rewrite Hn. reflexivity. Qed.

End FractionArithmetic.

(** The test [val.isInteger() && val.n === p.y] of the verification loop
    holds exactly when the fraction denotes the integer [y]. *)
Lemma integer_test (r : Fraction.t) (y : Z) :
  Fraction.canonical r ->
  (Fraction.isInteger r && (Fraction.n r =? y) = true <-> Fval r = zq y).
Proof.
  intros Hc. unfold Fraction.isInteger. rewrite andb_true_iff, !Z.eqb_eq. split.
  - intros [Hd Hn]. destruct r as [rn rd]; cbn in *. subst. apply Fval_integer.
  - intros E. rewrite <- Fval_integer in E.
    apply canonical_inj in E; [subst r; cbn; auto | exact Hc | apply canonical_integer].
Qed.

(** C4 (rational canonicalization).  Whatever the constructor and the four
    operations return is in lowest terms with a positive denominator; the
    constructor succeeds on every non-zero denominator and the operations
    on all canonical operands (division: on a divisor with a non-zero
    numerator); [(6, -4)] is stored as [-3/2]; a zero denominator is
    rejected. *)
Theorem fraction_canonical_form :
  (forall n0 d0 r, Fraction.new n0 d0 = Ok r -> Fraction.canonical r) /\
  (forall n0 d0, d0 <> 0 -> exists r, Fraction.new n0 d0 = Ok r) /\
  (forall a o r, Fraction.add a o = Ok r -> Fraction.canonical r) /\
  (forall a o r, Fraction.sub a o = Ok r -> Fraction.canonical r) /\
  (forall a o r, Fraction.mul a o = Ok r -> Fraction.canonical r) /\
  (forall a o r, Fraction.div a o = Ok r -> Fraction.canonical r) /\
  (forall a o, Fraction.canonical a -> Fraction.canonical o ->
     (exists r, Fraction.add a o = Ok r) /\
     (exists r, Fraction.sub a o = Ok r) /\
     (exists r, Fraction.mul a o = Ok r) /\
     (Fraction.n o <> 0 -> exists r, Fraction.div a o = Ok r) /\
     (Fraction.n o = 0 -> Fraction.div a o = Err DivisionByZero)) /\
  Fraction.new 6 (-4) = Ok (Fraction.mk (-3) 2) /\
  (forall n0, Fraction.new n0 0 = Err InvalidFraction).
Proof.
  split; [exact new_canonical|].
  split; [intros n0 d0 Hd; destruct (new_ok n0 d0 Hd) as (r & E & _); eauto|].
  split; [intros a o r; apply new_canonical|].
  split; [intros a o r; apply new_canonical|].
  split; [intros a o r; apply new_canonical|].
  split.
  { intros a o r. unfold Fraction.div. destruct (Fraction.n o =? 0).
    - discriminate.
    - apply new_canonical. }
  split.
  { intros a o Ha Ho.
    destruct (add_ok a o Ha Ho) as (r1 & E1 & _).
    destruct (sub_ok a o Ha Ho) as (r2 & E2 & _).
    destruct (mul_ok a o Ha Ho) as (r3 & E3 & _).
    repeat split; eauto.
    - intros Hn. destruct (div_ok a o Ha Ho Hn) as (r4 & E4 & _). eauto.
    - apply div_by_zero. }
  split; [reflexivity | exact new_zero_denominator].
Qed.

Lemma fraction_canonical_form_witness :
  Fraction.canonical (Fraction.mk (-3) 2) /\
  (exists r, Fraction.add (Fraction.mk 1 2) (Fraction.mk 1 3) = Ok r).
Proof.
  destruct fraction_canonical_form as (Hnew & _ & _ & _ & _ & _ & Hops & _).
  split.
  - apply (Hnew 6 (-4)). reflexivity.
  - apply (Hops (Fraction.mk 1 2) (Fraction.mk 1 3)).
    + split; [reflexivity | cbn; lia].
    + split; [reflexivity | cbn; lia].
Defined.

Lemma basis_loop (points : list Share.t) (i : nat) (xi : Z) (factor : Z -> Z) :
  forall js a b,
    for_each js (basis_step points i xi factor) (Fraction.mk a 1, Fraction.mk b 1)
    = Ok (Fraction.mk (a * Zprod (map (fun j => factor (xat points j)) (others i js))) 1,
          Fraction.mk (b * Zprod (map (fun j => xi - xat points j) (others i js))) 1).
Proof.
  induction js as [|j js IH]; intros a b; cbn [for_each others filter map Zprod fold_right].
  - rewrite !Z.mul_1_r. reflexivity.
  - unfold basis_step at 1. destruct (Nat.eqb_spec i j) as [E|E]; cbn [negb bind].
    + apply IH.
    + rewrite !new_integer. cbn [bind]. rewrite !mul_integer. cbn [bind].
      rewrite IH. cbn [map Zprod fold_right]. fold (xat points j).
      rewrite !Z.mul_assoc. reflexivity.
Qed.

Lemma term_step_ok (points : list Share.t) (factor : Z -> Z) (i : nat)
    (acc : Fraction.t) :
  Fraction.canonical acc -> den_at points i <> 0 ->
  exists r, term_step points factor i acc = Ok r /\ Fraction.canonical r /\
            Fval r = (Fval acc + lagrange_term points factor i)%Qc.
Proof.
  intros Hacc Hden. unfold term_step.
  rewrite !new_integer. cbn [bind]. rewrite basis_loop. cbn [bind].
  rewrite !Z.mul_1_l. fold (xat points i) (yat points i).
  fold (num_at points factor i).
  change (Zprod _) with (den_at points i).
  destruct (div_ok (Fraction.mk (num_at points factor i) 1)
                   (Fraction.mk (den_at points i) 1))
    as (Li & ELi & HLi & VLi);
    [apply canonical_integer | apply canonical_integer | exact Hden |].
  rewrite ELi. cbn [bind]. unfold Fraction.fromBigInt. rewrite new_integer. cbn [bind].
  destruct (mul_ok (Fraction.mk (yat points i) 1) Li) as (t & Et & Ht & Vt);
    [apply canonical_integer | exact HLi |].
  rewrite Et. cbn [bind].
  destruct (add_ok acc t Hacc Ht) as (r & Er & Hr & Vr).
  exists r. split; [exact Er|]. split; [exact Hr|].
  rewrite Vr, Vt, VLi, !Fval_integer. reflexivity.
Qed.

Lemma term_step_degenerate (points : list Share.t) (factor : Z -> Z) (i : nat)
    (acc : Fraction.t) :
  den_at points i = 0 -> term_step points factor i acc = Err DivisionByZero.
Proof.
  intros Hden. unfold term_step.
  rewrite !new_integer. cbn [bind]. rewrite basis_loop. cbn [bind].
  rewrite !Z.mul_1_l. fold (xat points i).
  change (Zprod (map (fun j => xat points i - xat points j) _)) with (den_at points i).
  rewrite Hden. reflexivity.
Qed.

Lemma term_loop_ok (points : list Share.t) (factor : Z -> Z) :
  forall ix acc,
    Fraction.canonical acc ->
    (forall i, In i ix -> den_at points i <> 0) ->
    exists r, for_each ix (term_step points factor) acc = Ok r /\
              Fraction.canonical r /\
              Fval r = (Fval acc + Qsum (map (lagrange_term points factor) ix))%Qc.
Proof.
  induction ix as [|i ix IH]; intros acc Hacc Hden; cbn [for_each map Qsum fold_right].
  - exists acc. repeat split; try apply Hacc. ring.
  - destruct (term_step_ok points factor i acc Hacc) as (r1 & E1 & H1 & V1);
      [apply Hden; left; reflexivity|].
    rewrite E1. cbn [bind].
    destruct (IH r1 H1) as (r & E & H & V); [intros; apply Hden; right; assumption|].
    exists r. split; [exact E|]. split; [exact H|].
    rewrite V, V1. fold (Qsum (map (lagrange_term points factor) ix)). ring.
Qed.

Lemma Zprod_neq0 (l : list Z) : (forall z, In z l -> z <> 0) -> Zprod l <> 0.
Proof.
  induction l as [|h t IH]; intros H; cbn [Zprod fold_right].
  - discriminate.
  - fold (Zprod t). apply Z.neq_mul_0. split; [apply H; left; reflexivity|].
    apply IH. intros z Hz. apply H. right. exact Hz.
Qed.

Lemma Zprod_eq0 (l : list Z) : In 0 l -> Zprod l = 0.
Proof.
  induction l as [|h t IH]; intros H; cbn [Zprod fold_right]; [contradiction|].
  fold (Zprod t).
  destruct H as [->|H]; [reflexivity|]. rewrite IH by assumption. apply Z.mul_0_r.
Qed.

Lemma in_others (i j : nat) (js : list nat) :
  In j (others i js) <-> In j js /\ i <> j.
Proof.
  unfold others. rewrite filter_In, negb_true_iff, Nat.eqb_neq. reflexivity.
Qed.

Lemma xat_distinct (points : list Share.t) (i j : nat) :
  NoDup (map Share.x points) ->
  (i < length points)%nat -> (j < length points)%nat -> i <> j ->
  xat points i <> xat points j.
Proof.
  intros Hnd Hi Hj Hij E. apply Hij.
  unfold xat in E.
  rewrite <- !(map_nth Share.x) in E.
  rewrite NoDup_nth in Hnd. apply Hnd in E; [exact E| |]; rewrite length_map; assumption.
Qed.

Lemma den_at_neq0 (points : list Share.t) (i : nat) :
  NoDup (map Share.x points) -> (i < length points)%nat -> den_at points i <> 0.
Proof.
  intros Hnd Hi. unfold den_at, num_at. apply Zprod_neq0.
  intros z Hz. apply in_map_iff in Hz. destruct Hz as (j & <- & Hj).
  apply in_others in Hj. destruct Hj as [Hj Hij]. apply in_seq in Hj.
  pose proof (xat_distinct points i j Hnd Hi ltac:(lia) Hij). lia.
Qed.

(** On points with pairwise distinct [x] both interpolation functions
    return, and what they return is the canonical fraction of the Lagrange
    form's value. *)
Lemma lagrange_loop_ok (points : list Share.t) (factor : Z -> Z) :
  NoDup (map Share.x points) ->
  exists r,
    (acc0 <- Fraction.new 0 1 ;;
     for_each (seq 0 (length points)) (term_step points factor) acc0) = Ok r /\
    Fraction.canonical r /\ Fval r = lagrange_sum points factor.
Proof.
  intros Hnd. rewrite new_integer. cbn [bind].
  destruct (term_loop_ok points factor (seq 0 (length points)) (Fraction.mk 0 1))
    as (r & E & H & V).
  - apply canonical_integer.
  - intros i Hi. apply in_seq in Hi. apply den_at_neq0; [exact Hnd | lia].
  - exists r. split; [exact E|]. split; [exact H|].
    rewrite V, Fval_integer, zq_0. unfold lagrange_sum. ring.
Qed.

Lemma lagrangeEval_ok (points : list Share.t) (xq : Z) :
  NoDup (map Share.x points) ->
  exists r, lagrangeEval points xq = Ok r /\ Fraction.canonical r /\
            Fval r = lagrange_value points xq.
Proof. intros Hnd. apply (lagrange_loop_ok points (fun xj => xq - xj) Hnd). Qed.

Lemma lagrangeAtZero_eval (points : list Share.t) :
  lagrangeAtZero points = lagrangeEval points 0.
Proof. reflexivity. Qed.

Lemma lagrangeAtZero_ok (points : list Share.t) :
  NoDup (map Share.x points) ->
  exists r, lagrangeAtZero points = Ok r /\ Fraction.canonical r /\
            Fval r = lagrange_value points 0.
Proof. intros Hnd. rewrite lagrangeAtZero_eval. apply lagrangeEval_ok, Hnd. Qed.

(** *** The basis property *)

Lemma Qsum_zero (f : nat -> Qc) :
  forall ix, (forall i, In i ix -> f i = 0%Qc) -> Qsum (map f ix) = 0%Qc.
Proof.
  induction ix as [|i ix IH]; intros Hz; [reflexivity|].
  cbn [map Qsum fold_right]. fold (Qsum (map f ix)).
  rewrite IH, (Hz i).
  - ring.
  - left; reflexivity.
  - intros j Hj. apply Hz. right. exact Hj.
Qed.

Lemma Qsum_single (f : nat -> Qc) (m : nat) :
  forall ix, NoDup ix -> In m ix ->
    (forall i, In i ix -> i <> m -> f i = 0%Qc) ->
    Qsum (map f ix) = f m.
Proof.
  induction ix as [|i ix IH]; intros Hnd Hin Hz; [contradiction|].
  cbn [map Qsum fold_right]. fold (Qsum (map f ix)).
  inversion Hnd as [|? ? Hni Hnd']; subst.
  destruct Hin as [->|Hin].
  - rewrite Qsum_zero; [ring|].
    intros j Hj. apply Hz; [right; exact Hj|].
    intros ->. contradiction.
  - rewrite IH; auto.
    + rewrite (Hz i); [ring | left; reflexivity |].
      intros ->. contradiction.
    + intros k Hk. apply Hz. right. exact Hk.
Qed.

Lemma lagrange_value_basis (points : list Share.t) (m : nat) :
  NoDup (map Share.x points) -> (m < length points)%nat ->
  lagrange_value points (xat points m) = zq (yat points m).
Proof.
  intros Hnd Hm. unfold lagrange_value, lagrange_sum.
  rewrite (Qsum_single _ m).
  - unfold lagrange_term. fold (den_at points m).
    pose proof (zq_neq0 _ (den_at_neq0 points m Hnd Hm)). field. assumption.
  - apply seq_NoDup.
  - apply in_seq. lia.
  - intros i Hi Hne. unfold lagrange_term.
    replace (num_at points (fun xj => xat points m - xj) i) with 0.
    + rewrite zq_0. unfold Qcdiv. ring.
    + symmetry. apply Zprod_eq0. apply in_map_iff. exists m. split; [lia|].
      apply in_others. split; [apply in_seq; lia | exact Hne].
Qed.

(** ** Polynomials: a polynomial of degree below [k] with [k] roots is zero *)

Lemma peval_padd (c1 c2 : list Qc) (x : Qc) :
  peval (padd c1 c2) x = (peval c1 x + peval c2 x)%Qc.
Proof.
  revert c2. induction c1 as [|a c1 IH]; intros [|b c2]; cbn [padd peval]; try ring.
  rewrite IH. ring.
Qed.

Lemma peval_pscale (s : Qc) (c : list Qc) (x : Qc) :
  peval (pscale s c) x = (s * peval c x)%Qc.
Proof.
  induction c as [|a c IH]; cbn [pscale map peval]; [ring|].
  fold (pscale s c). rewrite IH. ring.
Qed.

Lemma peval_pmul_lin (a : Qc) (c : list Qc) (x : Qc) :
  peval (pmul_lin a c) x = ((x - a) * peval c x)%Qc.
Proof.
  unfold pmul_lin. rewrite peval_padd, peval_pscale. cbn [peval]. ring.
Qed.

Lemma length_padd (c1 c2 : list Qc) :
  length (padd c1 c2) = Nat.max (length c1) (length c2).
Proof.
  revert c2. induction c1 as [|a c1 IH]; intros [|b c2]; cbn [padd length Nat.max];
    try reflexivity.
  rewrite IH. reflexivity.
Qed.

Lemma length_pscale (s : Qc) (c : list Qc) : length (pscale s c) = length c.
Proof. apply length_map. Qed.

Lemma length_pmul_lin (a : Qc) (c : list Qc) :
  length (pmul_lin a c) = S (length c).
Proof.
  unfold pmul_lin. rewrite length_padd, length_pscale. cbn [length]. lia.
Qed.

Lemma length_pquot (r : Qc) (c : list Qc) : length (pquot r c) = Nat.pred (length c).
Proof.
  induction c as [|a c IH]; [reflexivity|].
  cbn [pquot length Nat.pred]. rewrite length_padd, length_pscale, IH. lia.
Qed.

(** The factor theorem. *)
Lemma peval_pquot (r : Qc) (c : list Qc) (x : Qc) :
  ((x - r) * peval (pquot r c) x = peval c x - peval c r)%Qc.
Proof.
  induction c as [|a c IH]; cbn [pquot peval]; [ring|].
  rewrite peval_padd, peval_pscale.
  transitivity ((x - r) * peval c x + r * ((x - r) * peval (pquot r c) x))%Qc; [ring|].
  rewrite IH. ring.
Qed.

Theorem poly_roots (k : nat) :
  forall (c : list Qc) (roots : list Qc),
    (length c <= k)%nat -> NoDup roots -> (k <= length roots)%nat ->
    (forall r, In r roots -> peval c r = 0%Qc) ->
    forall x, peval c x = 0%Qc.
Proof.
  induction k as [|k IH]; intros c roots Hlen Hnd Hk Hroot x.
  - destruct c; [reflexivity | cbn in Hlen; lia].
  - destruct roots as [|r0 roots]; [cbn in Hk; lia|].
    inversion Hnd as [|? ? Hni Hnd']; subst.
    assert (Hq : forall y, peval (pquot r0 c) y = 0%Qc).
    { apply (IH (pquot r0 c) roots).
      - rewrite length_pquot. lia.
      - exact Hnd'.
      - cbn in Hk. lia.
      - intros r Hr.
        pose proof (peval_pquot r0 c r) as E.
        rewrite (Hroot r), (Hroot r0) in E by (cbn; auto).
        assert (Hne : (r - r0 <> 0)%Qc).
        { intros E0. apply Hni. replace r0 with r; [exact Hr|].
          transitivity (r - (r - r0))%Qc; [rewrite E0|]; ring. }
        apply Qcmult_integral in E. destruct E as [E|E]; [contradiction | exact E].
        }
    pose proof (peval_pquot r0 c x) as E.
    rewrite Hq, (Hroot r0) in E by (left; reflexivity).
    transitivity (peval c x - 0)%Qc; [ring|]. rewrite <- E. ring.
Qed.

(** Two polynomials of degree below [k] that agree at [k] points agree
    everywhere. *)
Corollary poly_unique (k : nat) (c1 c2 : list Qc) (pts : list Qc) :
  (length c1 <= k)%nat -> (length c2 <= k)%nat ->
  NoDup pts -> (k <= length pts)%nat ->
  (forall r, In r pts -> peval c1 r = peval c2 r) ->
  forall x, peval c1 x = peval c2 x.
Proof.
  intros H1 H2 Hnd Hk Hagree x.
  assert (E : peval (psub c1 c2) x = 0%Qc).
  { apply (poly_roots k (psub c1 c2) pts); auto.
    - unfold psub. rewrite length_padd, length_pscale. lia.
    - intros r Hr. unfold psub. rewrite peval_padd, peval_pscale, (Hagree r Hr). ring. }
  unfold psub in E. rewrite peval_padd, peval_pscale in E.
  transitivity (peval c1 x + -(1) * peval c2 x + peval c2 x)%Qc; [ring|].
  rewrite E. ring.
Qed.

Lemma zq_evalZ (c : list Z) (x : Z) : zq (evalZ c x) = peval (map zq c) (zq x).
Proof.
  induction c as [|a c IH]; cbn [evalZ map peval]; [apply zq_0|].
  rewrite zq_add, zq_mul, IH. reflexivity.
Qed.

(** ** The Lagrange form is the interpolating polynomial *)

Lemma peval_prod_lin (g : nat -> Z) (xq : Z) (js : list nat) :
  peval (prod_lin (map (fun j => zq (g j)) js)) (zq xq)
  = zq (Zprod (map (fun j => xq - g j) js)).
Proof.
  induction js as [|j js IH]; cbn [map prod_lin fold_right Zprod peval].
  - rewrite zq_1. ring.
  - fold (prod_lin (map (fun j => zq (g j)) js)).
    fold (Zprod (map (fun j => xq - g j) js)).
    rewrite peval_pmul_lin, IH, zq_mul, zq_sub. reflexivity.
Qed.

Lemma length_prod_lin (roots : list Qc) : length (prod_lin roots) = S (length roots).
Proof.
  induction roots as [|r roots IH]; [reflexivity|].
  cbn [prod_lin fold_right]. fold (prod_lin roots).
  rewrite length_pmul_lin, IH. reflexivity.
Qed.

Lemma peval_psum (l : list (list Qc)) (x : Qc) :
  peval (psum l) x = Qsum (map (fun c => peval c x) l).
Proof.
  induction l as [|c l IH]; [reflexivity|].
  cbn [psum fold_right map Qsum]. fold (psum l).
  rewrite peval_padd, IH. reflexivity.
Qed.

Lemma length_psum (k : nat) (l : list (list Qc)) :
  (forall c, In c l -> (length c <= k)%nat) -> (length (psum l) <= k)%nat.
Proof.
  induction l as [|c l IH]; intros H; cbn [psum fold_right length]; [lia|].
  fold (psum l). rewrite length_padd.
  apply Nat.max_lub; [apply H; left; reflexivity|].
  apply IH. intros c' Hc'. apply H. right. exact Hc'.
Qed.

Lemma length_others (i : nat) (js : list nat) :
  In i js -> (length (others i js) < length js)%nat.
Proof.
  induction js as [|j js IH]; intros Hin; [contradiction|].
  cbn [others filter]. fold (others i js).
  assert (Hle : (length (others i js) <= length js)%nat) by apply filter_length_le.
  destruct (Nat.eqb_spec i j) as [E|E]; cbn [negb length].
  - lia.
  - destruct Hin as [Hin|Hin]; [congruence|]. specialize (IH Hin). lia.
Qed.

Lemma lagrange_poly_value (points : list Share.t) (xq : Z) :
  peval (lagrange_poly points) (zq xq) = lagrange_value points xq.
Proof.
  unfold lagrange_poly, lagrange_value, lagrange_sum.
  rewrite peval_psum, map_map. f_equal. apply map_ext. intros i.
  rewrite peval_pscale, peval_prod_lin. unfold lagrange_term, num_at, Qcdiv. ring.
Qed.

Lemma length_lagrange_poly (points : list Share.t) :
  (length (lagrange_poly points) <= length points)%nat.
Proof.
  unfold lagrange_poly. apply length_psum.
  intros c Hc. apply in_map_iff in Hc. destruct Hc as (i & <- & Hi).
  rewrite length_pscale, length_prod_lin, length_map.
  pose proof (length_others i _ Hi) as H. rewrite length_seq in H. lia.
Qed.

Lemma in_nth_points (points : list Share.t) (p : Share.t) :
  In p points -> exists m, (m < length points)%nat /\ nth m points Share.dummy = p.
Proof. intros H. apply (In_nth points p Share.dummy H). Qed.

(** The Lagrange form passes through its own points. *)
Lemma lagrange_poly_through (points : list Share.t) :
  NoDup (map Share.x points) -> through (lagrange_poly points) points.
Proof.
  intros Hnd p Hp. destruct (in_nth_points points p Hp) as (m & Hm & <-).
  rewrite lagrange_poly_value. apply (lagrange_value_basis points m Hnd Hm).
Qed.

Lemma NoDup_map_zq (xs : list Z) : NoDup xs -> NoDup (map zq xs).
Proof.
  induction 1 as [|x xs Hni Hnd IH]; cbn [map]; constructor; [|exact IH].
  intros Hin. apply in_map_iff in Hin. destruct Hin as (x' & E & Hx').
  apply zq_inj in E. subst x'. contradiction.
Qed.

(** Any polynomial of degree below [k] through [k] points of pairwise
    distinct [x] is the Lagrange form through them. *)
Lemma lagrange_unique (points : list Share.t) (c : list Qc) :
  NoDup (map Share.x points) ->
  (length c <= length points)%nat -> through c points ->
  forall xq, lagrange_value points xq = peval c (zq xq).
Proof.
  intros Hnd Hlen Hc xq. rewrite <- lagrange_poly_value.
  apply (poly_unique (length points) _ _ (map zq (map Share.x points))).
  - apply length_lagrange_poly.
  - exact Hlen.
  - apply NoDup_map_zq, Hnd.
  - rewrite !length_map. lia.
  - intros r Hr. rewrite map_map in Hr. apply in_map_iff in Hr.
    destruct Hr as (p & <- & Hp).
    rewrite (lagrange_poly_through points Hnd p Hp). symmetry. apply Hc, Hp.
Qed.

(** ** The interpolator: C6 and the first half of C9 *)

Lemma lagrangeEval_member (points : list Share.t) (p : Share.t) :
  NoDup (map Share.x points) -> In p points ->
  lagrangeEval points (Share.x p) = Ok (Fraction.mk (Share.y p) 1).
Proof.
  intros Hnd Hp.
  destruct (lagrangeEval_ok points (Share.x p) Hnd) as (r & E & Hc & V).
  rewrite E. f_equal. apply canonical_inj; [exact Hc | apply canonical_integer |].
  rewrite V, Fval_integer, <- lagrange_poly_value.
  apply lagrange_poly_through; assumption.
Qed.

(** C6 (uniqueness).  On shares with pairwise distinct [x], [lagrangeAtZero]
    returns a fraction, and returns that same fraction on every
    permutation of the shares. *)
Theorem lagrangeAtZero_order_invariant (points points' : list Share.t) :
  NoDup (map Share.x points) -> Permutation points points' ->
  exists r, lagrangeAtZero points = Ok r /\ lagrangeAtZero points' = Ok r.
Proof.
  intros Hnd Hperm.
  assert (Hnd' : NoDup (map Share.x points')).
  { apply (Permutation_NoDup (l := map Share.x points)); [|exact Hnd].
    apply Permutation_map, Hperm. }
  destruct (lagrangeAtZero_ok points Hnd) as (r & E & Hc & V).
  destruct (lagrangeAtZero_ok points' Hnd') as (r' & E' & Hc' & V').
  exists r. split; [exact E|]. rewrite E'. f_equal.
  apply canonical_inj; [exact Hc' | exact Hc |].
  rewrite V, V'. rewrite (lagrange_unique points' (lagrange_poly points)); auto.
  - apply lagrange_poly_value.
  - rewrite <- (Permutation_length Hperm). apply length_lagrange_poly.
  - intros p Hp. apply lagrange_poly_through; [exact Hnd|].
    apply (Permutation_in p (Permutation_sym Hperm) Hp).
Qed.

Lemma lagrangeAtZero_order_invariant_witness :
  exists r,
    lagrangeAtZero [Share.mk 1 4 10 "4" "1"; Share.mk 2 7 10 "7" "2";
                    Share.mk 3 14 10 "14" "3"] = Ok r /\
    lagrangeAtZero [Share.mk 3 14 10 "14" "3"; Share.mk 1 4 10 "4" "1";
                    Share.mk 2 7 10 "7" "2"] = Ok r.
Proof.
  apply lagrangeAtZero_order_invariant.
  - distinct_literals.
  - apply Permutation_sym. apply (Permutation_cons_app [_; _] []). reflexivity.
Defined.

(** ** The combinations generator *)

Lemma nth_set_nth_middle {A : Type} (pre : list A) (a v : A) (rest : list A) :
  set_nth (pre ++ a :: rest) (length pre) v = pre ++ v :: rest.
Proof.
  induction pre as [|h pre IH]; cbn [app length set_nth]; [reflexivity|].
  rewrite IH. reflexivity.
Qed.

Lemma length_next (n : nat) (l l' : list nat) :
  next n l = Some l' -> length l' = length l.
Proof.
  revert l'. induction l as [|a rest IH]; intros l' H; cbn [next] in H; [discriminate|].
  destruct (next n rest) as [rest'|].
  - inversion H; subst. cbn [length]. rewrite (IH rest' eq_refl). reflexivity.
  - destruct (a + S (length rest) =? n)%nat; [discriminate|].
    injection H as <-. cbn [length]. rewrite length_seq. reflexivity.
Qed.

(** When [next] gives up, every entry has its largest value. *)
Lemma next_None_nth (n : nat) (l : list nat) :
  next n l = None ->
  forall j, (j < length l)%nat -> (nth j l 0 + (length l - j) = n)%nat.
Proof.
  induction l as [|a rest IH]; intros H j Hj; cbn [length] in Hj; [lia|].
  cbn [next] in H. destruct (next n rest) as [rest'|] eqn:E; [discriminate|].
  destruct (Nat.eqb_spec (a + S (length rest)) n) as [En|En]; [|discriminate].
  destruct j as [|j]; cbn [nth length].
  - lia.
  - specialize (IH eq_refl j ltac:(lia)). lia.
Qed.

Lemma next_split (n : nat) (pre : list nat) (a : nat) (suf : list nat) :
  next n suf = None -> (a + S (length suf))%nat <> n ->
  next n (pre ++ a :: suf) = Some (pre ++ seq (S a) (S (length suf))).
Proof.
  intros Hsuf Ha. induction pre as [|b pre IH]; cbn [app next].
  - rewrite Hsuf. destruct (Nat.eqb_spec (a + S (length suf)) n); [contradiction|].
    reflexivity.
  - rewrite IH. reflexivity.
Qed.

Lemma next_cases (n : nat) (l : list nat) :
  next n l = None \/
  exists pre a suf, l = pre ++ a :: suf /\ next n suf = None /\
                    (a + S (length suf))%nat <> n.
Proof.
  induction l as [|a rest IH]; [left; reflexivity|].
  destruct IH as [IH|(pre & b & suf & -> & Hsuf & Hb)].
  - cbn [next]. rewrite IH.
    destruct (Nat.eqb_spec (a + S (length rest)) n) as [E|E]; [left; reflexivity|].
    right. exists [], a, rest. auto.
  - right. exists (a :: pre), b, suf. auto.
Qed.

Lemma scan_p_skip (idx : list nat) (n k q : nat) :
  forall p1, (q <= p1)%nat ->
    (forall p, (q <= p < p1)%nat -> nth p idx 0%nat = (p + n - k)%nat) ->
    scan_p idx n k p1 = scan_p idx n k q.
Proof.
  induction p1 as [|p1 IH]; intros Hq Hmax.
  - replace q with 0%nat by lia. reflexivity.
  - destruct (Nat.eq_dec q (S p1)) as [->|Hne]; [reflexivity|].
    cbn [scan_p]. rewrite (Hmax p1) by lia. rewrite Nat.eqb_refl.
    apply IH; [lia|]. intros p Hp. apply Hmax. lia.
Qed.

Lemma scan_p_maxed (n : nat) (l : list nat) :
  (length l <= n)%nat -> next n l = None -> scan_p l n (length l) (length l) = None.
Proof.
  intros Hn H. rewrite (scan_p_skip l n (length l) 0); [reflexivity | lia |].
  intros p Hp. pose proof (next_None_nth n l H p ltac:(lia)). lia.
Qed.

Lemma scan_p_split (n : nat) (pre : list nat) (a : nat) (suf : list nat) :
  let idx := pre ++ a :: suf in
  (length idx <= n)%nat -> next n suf = None -> (a + S (length suf))%nat <> n ->
  scan_p idx n (length idx) (length idx) = Some (length pre).
Proof.
  intros idx Hn Hsuf Ha.
  assert (Hlen : length idx = (length pre + S (length suf))%nat).
  { subst idx. rewrite length_app. reflexivity. }
  rewrite (scan_p_skip idx n (length idx) (S (length pre))).
  - cbn [scan_p]. subst idx. rewrite nth_middle.
    destruct (Nat.eqb_spec a (length pre + n - length (pre ++ a :: suf))) as [E|E];
      [lia | reflexivity].
  - lia.
  - intros p Hp. subst idx.
    rewrite app_nth2 by lia.
    replace (p - length pre)%nat with (S (p - S (length pre))) by lia.
    cbn [nth].
    pose proof (next_None_nth n suf Hsuf (p - S (length pre))%nat ltac:(lia)). lia.
Qed.

Lemma refill (m : nat) :
  forall (pre : list nat) (v : nat) (suf : list nat),
    length suf = m ->
    fold_left (fun a j => set_nth a j (S (nth (j - 1) a 0%nat)))
              (seq (S (length pre)) m) (pre ++ v :: suf)
    = pre ++ seq v (S m).
Proof.
  induction m as [|m IH]; intros pre v suf Hsuf.
  - destruct suf; [reflexivity | discriminate].
  - destruct suf as [|s0 suf]; [discriminate|].
    cbn [seq fold_left].
    replace (S (length pre) - 1)%nat with (length pre) by lia.
    rewrite nth_middle.
    change (pre ++ v :: s0 :: suf) with (pre ++ [v] ++ s0 :: suf).
    rewrite app_assoc.
    replace (S (length pre)) with (length (pre ++ [v])) by (rewrite length_app; cbn; lia).
    rewrite nth_set_nth_middle.
    rewrite IH by (cbn in Hsuf; lia).
    rewrite <- app_assoc. reflexivity.
Qed.

(** On an array of [k <= n] indices, the generator's loop body computes
    [next]. *)
Lemma advance_next (n : nat) (idx : list nat) :
  (length idx <= n)%nat -> advance idx n (length idx) = next n idx.
Proof.
  intros Hn. unfold advance.
  destruct (next_cases n idx) as [H|(pre & a & suf & E & Hsuf & Ha)].
  - rewrite (scan_p_maxed n idx Hn H), H. reflexivity.
  - subst idx. rewrite (scan_p_split n pre a suf Hn Hsuf Ha).
    rewrite (next_split n pre a suf Hsuf Ha).
    rewrite nth_middle, nth_set_nth_middle.
    replace (length (pre ++ a :: suf) - S (length pre))%nat with (length suf)
      by (rewrite length_app; cbn; lia).
    rewrite refill by reflexivity. reflexivity.
Qed.

Lemma next_seq_last (n k : nat) : (k <= n)%nat -> next n (seq (n - k) k) = None.
Proof.
  revert n. induction k as [|k IH]; intros n Hk; [reflexivity|].
  cbn [seq next]. replace (S (n - S k)) with (n - k)%nat by lia.
  rewrite IH by lia. rewrite length_seq.
  destruct (Nat.eqb_spec (n - S k + S k) n); [reflexivity | lia].
Qed.

Lemma last_nonempty {A : Type} (c : A) (l : list A) (a b : A) :
  last (c :: l) a = last (c :: l) b.
Proof.
  revert c. induction l as [|h l IH]; intros c; [reflexivity|].
  change (last (h :: l) a = last (h :: l) b). apply IH.
Qed.

Lemma last_app_cons {A : Type} (l1 : list A) (b : A) (l2 : list A) (d : A) :
  last (l1 ++ b :: l2) d = last (b :: l2) d.
Proof.
  induction l1 as [|h l1 IH]; [reflexivity|].
  cbn [app]. destruct (l1 ++ b :: l2) eqn:E.
  - destruct l1; discriminate.
  - rewrite <- IH. reflexivity.
Qed.

Lemma path_app (n : nat) (l1 l2 : list (list nat)) :
  forall a, path n a l1 -> path n (last l1 a) l2 -> path n a (l1 ++ l2).
Proof.
  induction l1 as [|b l1 IH]; intros a H1 H2; [exact H2|].
  cbn [app path]. destruct H1 as [Hab H1]. split; [exact Hab|].
  apply IH; [exact H1|].
  destruct l1 as [|c l1]; [exact H2|].
  rewrite (last_nonempty c l1 b a). exact H2.
Qed.

Lemma path_cons (n s : nat) (l : list (list nat)) :
  forall a, path n a l -> path n (s :: a) (map (cons s) l).
Proof.
  induction l as [|b l IH]; intros a H; [exact I|].
  cbn [map path]. destruct H as [Hab H]. split; [|apply IH, H].
  cbn [next]. rewrite Hab. reflexivity.
Qed.

Lemma last_map_cons (s : nat) (l : list (list nat)) (a : list nat) :
  last (map (cons s) l) (s :: a) = s :: last l a.
Proof.
  induction l as [|b l IH]; [reflexivity|].
  cbn [map]. destruct l as [|c l]; [reflexivity|].
  cbn [map] in IH |- *. exact IH.
Qed.

Lemma index_subsets_large (m : nat) :
  forall s k, (m < k)%nat -> index_subsets m s k = [].
Proof.
  induction m as [|m IH]; intros s k Hk; destruct k as [|k]; try lia; [reflexivity|].
  cbn [index_subsets]. rewrite !IH by lia. reflexivity.
Qed.

(** The recursive enumeration starts at [s, ..., s+k-1], ends at the
    largest index list, and each of its members is the successor of the
    one before. *)
Lemma index_subsets_path (m : nat) :
  forall s k, (k <= m)%nat ->
    exists l, index_subsets m s k = seq s k :: l /\
              path (s + m) (seq s k) l /\
              last l (seq s k) = seq (s + m - k) k.
Proof.
  induction m as [|m IH]; intros s k Hk.
  - replace k with 0%nat by lia. exists []. cbn. auto.
  - destruct k as [|k].
    + exists []. cbn. auto.
    + cbn [index_subsets].
      destruct (IH (S s) k ltac:(lia)) as (l1 & E1 & P1 & L1).
      replace (S s + m)%nat with (s + S m)%nat in P1, L1 by lia.
      rewrite E1. cbn [map app seq].
      destruct (Nat.eq_dec k m) as [->|Hne].
      * rewrite index_subsets_large by lia. rewrite app_nil_r.
        exists (map (cons s) l1). split; [reflexivity|].
        split; [apply path_cons, P1|].
        rewrite last_map_cons, L1. cbn [seq]. repeat f_equal; lia.
      * destruct (IH (S s) (S k) ltac:(lia)) as (l2 & E2 & P2 & L2).
        replace (S s + m)%nat with (s + S m)%nat in P2, L2 by lia.
        rewrite E2.
        exists (map (cons s) l1 ++ seq (S s) (S k) :: l2).
        split; [reflexivity|]. split.
        -- apply path_app; [apply path_cons, P1|].
           rewrite last_map_cons, L1. cbn [path]. split; [|exact P2].
           cbn [next]. rewrite next_seq_last by lia. rewrite length_seq.
           destruct (Nat.eqb_spec (s + S k) (s + S m)); [lia | reflexivity].
        -- rewrite last_app_cons.
           transitivity (last l2 (seq (S s) (S k))); [|exact L2].
           destruct l2 as [|c l2]; [reflexivity|].
           change (last (c :: l2) (s :: seq (S s) k) = last (c :: l2) (seq (S s) (S k))).
           apply last_nonempty.
Qed.

Lemma length_index_subsets (m : nat) :
  forall s k, length (index_subsets m s k) = binomial m k.
Proof.
  induction m as [|m IH]; intros s [|k]; try reflexivity.
  cbn [index_subsets binomial]. rewrite length_app, length_map, !IH. reflexivity.
Qed.

Section GeneratorLoop.

Context {A : Type} (undefined : A) (arr : list A).

(** Started on an index list with [l] successors, the loop yields
    them all and stops, on any fuel above [length l]. *)
Lemma combinations_loop_path (n k : nat) (l : list (list nat)) :
  (k <= n)%nat ->
  forall a fuel,
    length a = k -> path n a l -> next n (last l a) = None ->
    (length l < fuel)%nat ->
    combinations_loop undefined fuel arr n k a
    = Some (map (pick undefined arr) (a :: l)).
Proof.
  intros Hk. induction l as [|b l IH]; intros a fuel Ha Hp Hlast Hf;
    (destruct fuel as [|fuel]; [cbn in Hf; lia|]);
    cbn [combinations_loop]; rewrite <- Ha, advance_next by lia.
  - cbn [last] in Hlast. rewrite Hlast. reflexivity.
  - destruct Hp as [Hab Hp]. rewrite Hab.
    assert (Hb : length b = k) by (rewrite (length_next n a b Hab); exact Ha).
    rewrite Ha, (IH b fuel Hb Hp).
    + reflexivity.
    + destruct l as [|c l]; [exact Hlast|].
      rewrite (last_nonempty c l b a). exact Hlast.
    + cbn in Hf. lia.
Qed.

(** The generator yields the subsets of the recursive enumeration, in
    its order; its loop ends within the fuel given. *)
Lemma combinations_index_subsets (k : nat) :
  (k <= length arr)%nat ->
  combinations_loop undefined (binomial (length arr) k) arr (length arr) k (seq 0 k)
  = Some (map (pick undefined arr) (index_subsets (length arr) 0 k)) /\
  combinations undefined arr k
  = map (pick undefined arr) (index_subsets (length arr) 0 k).
Proof.
  intros Hk.
  destruct (index_subsets_path (length arr) 0 k Hk) as (l & E & P & L).
  cbn [Nat.add] in P, L.
  assert (Hloop : combinations_loop undefined (binomial (length arr) k) arr
                    (length arr) k (seq 0 k)
                  = Some (map (pick undefined arr) (index_subsets (length arr) 0 k))).
  { rewrite E. apply combinations_loop_path; auto.
    - apply length_seq.
    - rewrite L. apply next_seq_last, Hk.
    - rewrite <- (length_index_subsets (length arr) 0 k), E. cbn. lia. }
  split; [exact Hloop|].
  unfold combinations. destruct (Nat.ltb_spec (length arr) k); [lia|].
  rewrite Hloop. reflexivity.
Qed.

Lemma combinations_large (k : nat) :
  (length arr < k)%nat -> combinations undefined arr k = [].
Proof.
  intros Hk. unfold combinations.
  destruct (Nat.ltb_spec (length arr) k); [reflexivity | lia].
Qed.

End GeneratorLoop.

Lemma increasing_weaken (e : nat) (l : list nat) :
  forall s s', (s' <= s)%nat -> increasing s e l -> increasing s' e l.
Proof.
  destruct l as [|a l]; intros s s' Hs H; [exact I|].
  cbn [increasing] in *. destruct H as [Ha H]. split; [lia | exact H].
Qed.

Lemma index_subsets_sound (m : nat) :
  forall s k l, In l (index_subsets m s k) ->
    length l = k /\ increasing s (s + m) l.
Proof.
  induction m as [|m IH]; intros s [|k] l Hin; cbn [index_subsets] in Hin.
  - destruct Hin as [<-|[]]. split; [reflexivity | exact I].
  - contradiction.
  - destruct Hin as [<-|[]]. split; [reflexivity | exact I].
  - apply in_app_or in Hin. destruct Hin as [Hin|Hin].
    + apply in_map_iff in Hin. destruct Hin as (l' & <- & Hl').
      destruct (IH _ _ _ Hl') as [Hlen Hinc].
      replace (S s + m)%nat with (s + S m)%nat in Hinc by lia.
      split; [cbn; lia|]. cbn [increasing]. split; [lia | exact Hinc].
    + destruct (IH _ _ _ Hin) as [Hlen Hinc].
      replace (S s + m)%nat with (s + S m)%nat in Hinc by lia.
      split; [exact Hlen|]. apply (increasing_weaken _ _ (S s)); [lia | exact Hinc].
Qed.

Lemma index_subsets_complete (m : nat) :
  forall s k l, length l = k -> increasing s (s + m) l ->
    In l (index_subsets m s k).
Proof.
  induction m as [|m IH]; intros s k l Hlen Hinc.
  - destruct l as [|a l]; [subst k; left; reflexivity|].
    cbn [increasing] in Hinc. lia.
  - destruct l as [|a l]; [subst k; left; reflexivity|].
    cbn [length] in Hlen. subst k. cbn [index_subsets increasing] in *.
    destruct Hinc as [Ha Hinc]. apply in_or_app.
    destruct (Nat.eq_dec a s) as [->|Hne].
    + left. apply in_map. apply IH; [reflexivity|].
      replace (S s + m)%nat with (s + S m)%nat by lia. exact Hinc.
    + right. apply IH; [reflexivity|].
      replace (S s + m)%nat with (s + S m)%nat by lia.
      cbn [increasing]. split; [lia | exact Hinc].
Qed.

Lemma lex_lt_irrefl (a : list nat) : ~ lex_lt a a.
Proof.
  induction a as [|x a IH]; cbn [lex_lt]; [auto|].
  intros [H|[_ H]]; [lia | exact (IH H)].
Qed.

Lemma StronglySorted_app {A : Type} (R : A -> A -> Prop) (l1 l2 : list A) :
  StronglySorted R l1 -> StronglySorted R l2 ->
  (forall a b, In a l1 -> In b l2 -> R a b) ->
  StronglySorted R (l1 ++ l2).
Proof.
  intros H1 H2 H12. induction H1 as [|a l1 H1 IH Ha]; [exact H2|].
  cbn [app]. constructor.
  - apply IH. intros x y Hx Hy. apply H12; [right; exact Hx | exact Hy].
  - apply Forall_app. split; [exact Ha|].
    apply Forall_forall. intros y Hy. apply H12; [left; reflexivity | exact Hy].
Qed.

Lemma StronglySorted_map_cons (s : nat) (l : list (list nat)) :
  StronglySorted lex_lt l -> StronglySorted lex_lt (map (cons s) l).
Proof.
  induction 1 as [|a l H IH Ha]; cbn [map]; constructor; [exact IH|].
  apply Forall_forall. intros b Hb. apply in_map_iff in Hb.
  destruct Hb as (b' & <- & Hb'). cbn [lex_lt]. right. split; [reflexivity|].
  rewrite Forall_forall in Ha. apply Ha, Hb'.
Qed.

(** The enumeration is strictly increasing in the lexicographic order. *)
Lemma index_subsets_sorted (m : nat) :
  forall s k, StronglySorted lex_lt (index_subsets m s k).
Proof.
  induction m as [|m IH]; intros s [|k]; cbn [index_subsets];
    try (repeat constructor).
  apply StronglySorted_app.
  - apply StronglySorted_map_cons, IH.
  - apply IH.
  - intros a b Ha Hb. apply in_map_iff in Ha. destruct Ha as (a' & <- & _).
    destruct (index_subsets_sound _ _ _ _ Hb) as [Hlen Hinc].
    destruct b as [|y b]; [discriminate|].
    cbn [increasing] in Hinc. cbn [lex_lt]. left. lia.
Qed.

Lemma StronglySorted_NoDup {A : Type} (R : A -> A -> Prop) (l : list A) :
  (forall a, ~ R a a) -> StronglySorted R l -> NoDup l.
Proof.
  intros Hirr. induction 1 as [|a l H IH Ha]; constructor; [|exact IH].
  intros Hin. rewrite Forall_forall in Ha. exact (Hirr a (Ha a Hin)).
Qed.

(** [binomial n k] is the binomial coefficient. *)
Lemma binomial_large (n : nat) : forall k, (n < k)%nat -> binomial n k = 0%nat.
Proof.
  induction n as [|n IH]; intros [|k] Hk; try lia; [reflexivity|].
  cbn [binomial]. rewrite !IH by lia. reflexivity.
Qed.

Lemma binomial_fact (n : nat) :
  forall k, (k <= n)%nat -> (binomial n k * (fact k * fact (n - k)) = fact n)%nat.
Proof.
  induction n as [|n IH]; intros [|k] Hk; try lia.
  - reflexivity.
  - cbn [binomial]. rewrite Nat.sub_0_r. cbn [fact]. lia.
  - cbn [binomial]. destruct (Nat.eq_dec k n) as [->|Hne].
    + rewrite (binomial_large n (S n)) by lia. pose proof (IH n ltac:(lia)) as E.
      replace (S n - S n)%nat with 0%nat by lia.
      replace (n - n)%nat with 0%nat in E by lia.
      cbn [fact] in *. rewrite Nat.mul_1_r, Nat.add_0_r in *.
      change (fact n + n * fact n)%nat with (S n * fact n)%nat.
      rewrite (Nat.mul_comm (S n)), Nat.mul_assoc, E. reflexivity.
    + pose proof (IH k ltac:(lia)) as E1. pose proof (IH (S k) ltac:(lia)) as E2.
      replace (S n - S k)%nat with (n - k)%nat by lia.
      replace (n - k)%nat with (S (n - S k)) in * by lia.
      cbn [fact] in *.
      set (a := fact k) in *. set (b := fact (n - S k)) in *.
      set (c1 := binomial n k) in *. set (c2 := binomial n (S k)) in *.
      set (f := fact n) in *.
      replace (S (n - S k)) with (n - k)%nat in * by lia.
      assert (H1 : (c1 * (S k * a * ((n - k) * b)) = S k * f)%nat) by nia.
      assert (H2 : (c2 * (S k * a * ((n - k) * b)) = (n - k) * f)%nat) by nia.
      transitivity ((c1 + c2) * (S k * a * ((n - k) * b)))%nat; [f_equal; lia|].
      transitivity (S k * f + (n - k) * f)%nat; [nia|].
      transitivity (S n * f)%nat; [nia | lia].
Qed.

(** C5 (combination generator).  For [1 <= k <= n] the generator ends
    after yielding [C(n,k)] arrays: the items of [arr] at the positions of
    an index list, one array per index list, for the index lists of [k]
    strictly increasing entries below [n].  Each yielded array is thus a
    subsequence of [arr] that keeps the items in their original order;
    the index lists come in strictly increasing lexicographic order,
    hence without repetition, and every increasing [k]-list of indices is
    among them.  For [k > n] nothing is yielded. *)
Theorem combinations_enumerates {A : Type} (undefined : A) (arr : list A) (k : nat) :
  let n := length arr in
  ((1 <= k <= n)%nat ->
   exists ixs : list (list nat),
     combinations_loop undefined (binomial n k) arr n k (seq 0 k)
       = Some (combinations undefined arr k) /\
     combinations undefined arr k
       = map (fun idx => map (fun i => nth i arr undefined) idx) ixs /\
     length (combinations undefined arr k) = binomial n k /\
     length ixs = binomial n k /\
     (binomial n k * (fact k * fact (n - k)) = fact n)%nat /\
     (forall idx, In idx ixs <-> length idx = k /\ increasing 0 n idx) /\
     StronglySorted lex_lt ixs /\
     NoDup ixs) /\
  ((n < k)%nat -> combinations undefined arr k = []).
Proof.
  intros n. split.
  - intros [_ Hk]. exists (index_subsets n 0 k).
    destruct (combinations_index_subsets undefined arr k Hk) as [Hloop Hc].
    fold n in Hloop, Hc.
    split; [rewrite Hc; exact Hloop|].
    split; [exact Hc|].
    split; [rewrite Hc, length_map; apply length_index_subsets|].
    split; [apply length_index_subsets|].
    split; [apply binomial_fact, Hk|].
    split.
    { intros idx. split.
      - intros H. apply (index_subsets_sound n 0 k idx H).
      - intros [Hlen Hinc]. apply index_subsets_complete; assumption. }
    split; [apply index_subsets_sorted|].
    apply (StronglySorted_NoDup lex_lt); [exact lex_lt_irrefl|].
    apply index_subsets_sorted.
  - apply combinations_large.
Qed.

Lemma combinations_enumerates_witness :
  (exists ixs,
     [[10; 20]; [10; 30]; [10; 40]; [20; 30]; [20; 40]; [30; 40]]%nat
     = map (fun idx => map (fun i => nth i [10; 20; 30; 40]%nat 0%nat) idx) ixs /\
     length ixs = 6%nat /\ NoDup ixs) /\
  combinations 0%nat [10; 20]%nat 3 = [].
Proof.
  split.
  - destruct (combinations_enumerates 0%nat [10; 20; 30; 40]%nat 2) as [H _].
    destruct (H ltac:(cbn; lia)) as (ixs & _ & E & _ & L & _ & _ & _ & ND).
    exists ixs. split; [exact E|]. auto.
  - apply (combinations_enumerates 0%nat [10; 20]%nat 3). cbn. lia.
Defined.

(** ** The verification loop *)

Lemma lies_on_true (c : list Qc) (p : Share.t) :
  lies_on c p = true <-> peval c (zq (Share.x p)) = zq (Share.y p).
Proof.
  unfold lies_on, Qc_eq_bool. destruct (Qc_eq_dec _ _); split; congruence.
Qed.

Lemma verify_step_spec (shares subset : list Share.t) (i : nat)
    (fits : list bool) (count : Z) :
  NoDup (map Share.x subset) ->
  verify_step shares subset i (fits, count)
  = if lies_on (lagrange_poly subset) (nth i shares Share.dummy)
    then Ok (set_nth fits i true, count + 1)
    else Ok (fits, count).
Proof.
  intros Hnd. unfold verify_step.
  set (p := nth i shares Share.dummy).
  destruct (lagrangeEval_ok subset (Share.x p) Hnd) as (r & E & Hc & V).
  rewrite E. cbn [bind].
  rewrite <- lagrange_poly_value in V.
  pose proof (integer_test r (Share.y p) Hc) as Ht.
  pose proof (lies_on_true (lagrange_poly subset) p) as Hl.
  rewrite V in Ht.
  destruct (Fraction.isInteger r && (Fraction.n r =? Share.y p)),
           (lies_on (lagrange_poly subset) p); try reflexivity.
  - exfalso. assert (false = true) by (apply Hl, Ht; reflexivity). discriminate.
  - exfalso. assert (false = true) by (apply Ht, Hl; reflexivity). discriminate.
Qed.

Lemma verify_loop_spec (subset : list Share.t) :
  NoDup (map Share.x subset) ->
  forall todo done,
    let c := lagrange_poly subset in
    for_each (seq (length done) (length todo)) (verify_step (done ++ todo) subset)
             (map (lies_on c) done ++ repeat false (length todo), support c done)
    = Ok (map (lies_on c) (done ++ todo), support c (done ++ todo)).
Proof.
  intros Hnd. induction todo as [|p todo IH]; intros done c.
  - cbn [length seq for_each repeat]. rewrite !app_nil_r. reflexivity.
  - cbn [length seq for_each repeat].
    rewrite verify_step_spec by exact Hnd. rewrite nth_middle. fold c.
    assert (Hsupp : support c (done ++ [p])
                    = if lies_on c p then support c done + 1 else support c done).
    { unfold support. rewrite filter_app, length_app. cbn [filter].
      destruct (lies_on c p); cbn [length]; lia. }
    specialize (IH (done ++ [p])). cbn zeta in IH. fold c in IH.
    rewrite length_app in IH. cbn [length] in IH.
    rewrite Nat.add_1_r in IH. rewrite <- app_assoc in IH. cbn [app] in IH.
    rewrite map_app in IH. cbn [map] in IH. rewrite <- app_assoc in IH.
    cbn [app] in IH. rewrite Hsupp in IH.
    destruct (lies_on c p); cbn [bind].
    + replace (set_nth _ (length done) true)
        with (map (lies_on c) done ++ true :: repeat false (length todo)); [exact IH|].
      rewrite <- (nth_set_nth_middle (map (lies_on c) done) false true), length_map.
      reflexivity.
    + exact IH.
Qed.

(** On a subset with pairwise distinct [x] the verification loop
    returns, for each share, whether it lies on the subset's polynomial,
    and the number of shares that do. *)
Lemma verify_spec (shares subset : list Share.t) :
  NoDup (map Share.x subset) ->
  verify shares subset
  = Ok (map (lies_on (lagrange_poly subset)) shares,
        support (lagrange_poly subset) shares).
Proof.
  intros Hnd. unfold verify.
  apply (verify_loop_spec subset Hnd shares []).
Qed.

(** ** The degeneracy test *)

Lemma length_nodup_le (l : list Z) : (length (nodup Z.eq_dec l) <= length l)%nat.
Proof.
  induction l as [|a l IH]; cbn [nodup length]; [lia|].
  destruct (in_dec Z.eq_dec a l); cbn [length]; lia.
Qed.

Lemma length_nodup_NoDup (l : list Z) :
  length (nodup Z.eq_dec l) = length l <-> NoDup l.
Proof.
  split.
  - induction l as [|a l IH]; intros H; [constructor|].
    cbn [nodup length] in H. pose proof (length_nodup_le l).
    destruct (in_dec Z.eq_dec a l) as [Hin|Hni]; cbn [length] in H; [lia|].
    constructor; [exact Hni | apply IH; lia].
  - intros H. rewrite nodup_fixed_point by exact H. reflexivity.
Qed.

Lemma has_duplicate_x_false (subset : list Share.t) :
  has_duplicate_x subset = false <-> NoDup (map Share.x subset).
Proof.
  unfold has_duplicate_x. rewrite negb_false_iff, Nat.eqb_eq.
  apply length_nodup_NoDup.
Qed.

Lemma has_duplicate_x_true (subset : list Share.t) :
  has_duplicate_x subset = true <-> ~ NoDup (map Share.x subset).
Proof.
  rewrite <- has_duplicate_x_false. destruct (has_duplicate_x subset); split; congruence.
Qed.

(** ** The search loop *)

Lemma support_bounds (c : list Qc) (shares : list Share.t) :
  0 <= support c shares <= Z.of_nat (length shares).
Proof.
  unfold support. pose proof (filter_length_le (lies_on c) shares). lia.
Qed.

Lemma search_skip (shares subset : list Share.t) (rest : list (list Share.t))
    (best : option Best) :
  has_duplicate_x subset = true ->
  search shares (subset :: rest) best = search shares rest best.
Proof. intros H. cbn [search]. rewrite H. reflexivity. Qed.

Lemma search_cons (shares subset : list Share.t) (rest : list (list Share.t))
    (best : option Best) :
  NoDup (map Share.x subset) ->
  exists secretFrac,
    lagrangeAtZero subset = Ok secretFrac /\
    Fraction.canonical secretFrac /\
    Fval secretFrac = lagrange_value subset 0 /\
    search shares (subset :: rest) best
    = let b := candidate shares subset secretFrac in
      if fitCount b >? best_fitCount best then
        if fitCount b =? Z.of_nat (length shares) then Ok (Some b)
        else search shares rest (Some b)
      else search shares rest best.
Proof.
  intros Hnd. destruct (lagrangeAtZero_ok subset Hnd) as (sf & E & Hc & V).
  exists sf. split; [exact E|]. split; [exact Hc|]. split; [exact V|].
  cbn [search]. apply has_duplicate_x_false in Hnd as Hdup. rewrite Hdup, E.
  rewrite verify_spec by exact Hnd. reflexivity.
Qed.

Section SearchInvariant.

Variable shares : list Share.t.
Variable all : list (list Share.t).

Lemma search_invariant :
  forall subsets best,
    incl subsets all ->
    (forall b, best = Some b -> well_formed shares all b) ->
    exists best',
      search shares subsets best = Ok best' /\
      (forall b, best' = Some b -> well_formed shares all b) /\
      best_fitCount best <= best_fitCount best' /\
      (best <> None -> best' <> None) /\
      (forall s, In s subsets -> NoDup (map Share.x s) ->
         best' <> None /\
         support (lagrange_poly s) shares <= best_fitCount best').
Proof.
  induction subsets as [|s subsets IH]; intros best Hincl Hbest.
  - exists best. cbn [search].
    split; [reflexivity|]. split; [exact Hbest|]. split; [lia|].
    split; [auto|]. intros s [].
  - assert (Hincl' : incl subsets all) by (intros x Hx; apply Hincl; right; exact Hx).
    destruct (has_duplicate_x s) eqn:Hdup.
    + rewrite search_skip by exact Hdup.
      destruct (IH best Hincl' Hbest) as (best' & E & Hwf & Hle & Hnn & Hmax).
      exists best'. split; [exact E|]. split; [exact Hwf|].
      split; [exact Hle|]. split; [exact Hnn|].
      intros s' [<-|Hs'] Hnd'; [|apply (Hmax s' Hs' Hnd')].
      apply has_duplicate_x_true in Hdup. contradiction.
    + apply has_duplicate_x_false in Hdup.
      destruct (search_cons shares s subsets best Hdup) as (sf & Esf & _ & _ & E).
      rewrite E. clear E. cbn zeta.
      set (b := candidate shares s sf).
      assert (Hb : well_formed shares all b).
      { repeat split; auto. apply Hincl. left. reflexivity. }
      assert (Hfc : fitCount b = support (lagrange_poly s) shares) by reflexivity.
      pose proof (support_bounds (lagrange_poly s) shares) as Hsb.
      destruct (Z.gtb_spec (fitCount b) (best_fitCount best)) as [Hgt|Hle].
      * destruct (Z.eqb_spec (fitCount b) (Z.of_nat (length shares))) as [Hfull|Hnf].
        -- exists (Some b). split; [reflexivity|].
           split; [intros b' [= <-]; exact Hb|].
           split; [cbn [best_fitCount]; lia|].
           split; [discriminate|].
           intros s' _ _. split; [discriminate|]. cbn [best_fitCount].
           pose proof (support_bounds (lagrange_poly s') shares). lia.
        -- destruct (IH (Some b) Hincl') as (best' & E & Hwf & Hle & Hnn & Hmax).
           { intros b' [= <-]. exact Hb. }
           exists best'. split; [exact E|]. split; [exact Hwf|].
           cbn [best_fitCount] in Hle.
           split; [lia|]. split; [intros _; apply Hnn; discriminate|].
           intros s' [<-|Hs'] Hnd'; [|apply (Hmax s' Hs' Hnd')].
           split; [apply Hnn; discriminate | lia].
      * destruct (IH best Hincl' Hbest) as (best' & E & Hwf & Hle' & Hnn & Hmax).
        exists best'. split; [exact E|]. split; [exact Hwf|].
        split; [exact Hle'|]. split; [exact Hnn|].
        intros s' [<-|Hs'] Hnd'; [|apply (Hmax s' Hs' Hnd')].
        split; [|lia]. apply Hnn. intros ->. cbn [best_fitCount] in Hle. lia.
Qed.

End SearchInvariant.

Lemma search_all_degenerate (shares : list Share.t) :
  forall subsets best,
    (forall s, In s subsets -> ~ NoDup (map Share.x s)) ->
    search shares subsets best = Ok best.
Proof.
  induction subsets as [|s subsets IH]; intros best H; [reflexivity|].
  rewrite search_skip.
  - apply IH. intros s' Hs'. apply H. right. exact Hs'.
  - apply has_duplicate_x_true, H. left. reflexivity.
Qed.

(** ** The subsets the search is given *)

Lemma pick_in {A : Type} (d : A) (arr : list A) (s : nat) (idx : list nat) (a : A) :
  increasing s (length arr) idx -> In a (pick d arr idx) -> In a arr.
Proof.
  revert s. induction idx as [|i idx IH]; intros s Hinc Hin; [contradiction|].
  cbn [increasing] in Hinc. destruct Hinc as [Hi Hinc].
  cbn [pick map] in Hin. destruct Hin as [<-|Hin].
  - apply nth_In. lia.
  - apply (IH (S i)); assumption.
Qed.

Lemma increasing_in (e : nat) (idx : list nat) :
  forall s j, increasing s e idx -> In j idx -> (s <= j < e)%nat.
Proof.
  induction idx as [|a idx IH]; intros s j Hinc Hj; [contradiction|].
  cbn [increasing] in Hinc. destruct Hinc as [Ha Hinc].
  destruct Hj as [->|Hj]; [lia|].
  specialize (IH (S a) j Hinc Hj). lia.
Qed.

Lemma pick_NoDup_x (shares : list Share.t) (idx : list nat) :
  NoDup (map Share.x shares) ->
  forall s, increasing s (length shares) idx ->
    NoDup (map Share.x (pick Share.dummy shares idx)).
Proof.
  intros Hnd. induction idx as [|i idx IH]; intros s Hinc; [constructor|].
  cbn [increasing] in Hinc. destruct Hinc as [Hi Hinc].
  cbn [pick map]. constructor; [|apply (IH (S i)), Hinc].
  fold (xat shares i). intros Hin.
  apply in_map_iff in Hin. destruct Hin as (p & Ep & Hp).
  apply in_map_iff in Hp. destruct Hp as (j & <- & Hj).
  pose proof (increasing_in _ _ _ _ Hinc Hj) as Hji.
  fold (xat shares j) in Ep.
  apply (xat_distinct shares i j Hnd); [lia | lia | lia | symmetry; exact Ep].
Qed.

Lemma in_combinations (shares subset : list Share.t) (k : nat) :
  In subset (combinations Share.dummy shares k) ->
  length subset = k /\ subcollection subset shares.
Proof.
  intros Hin.
  destruct (Nat.lt_ge_cases (length shares) k) as [Hk|Hk].
  - rewrite combinations_large in Hin by exact Hk. contradiction.
  - destruct (combinations_index_subsets Share.dummy shares k Hk) as [_ E].
    rewrite E in Hin. apply in_map_iff in Hin. destruct Hin as (idx & <- & Hidx).
    apply index_subsets_sound in Hidx. destruct Hidx as [Hlen Hinc].
    split.
    + unfold pick. rewrite length_map. exact Hlen.
    + exists idx. split; [exact Hinc | reflexivity].
Qed.

Lemma subcollection_in (subset shares : list Share.t) (p : Share.t) :
  subcollection subset shares -> In p subset -> In p shares.
Proof.
  intros (idx & Hinc & ->) Hin. apply (pick_in _ _ _ _ _ Hinc Hin).
Qed.

Lemma subcollection_NoDup_x (subset shares : list Share.t) :
  NoDup (map Share.x shares) -> subcollection subset shares ->
  NoDup (map Share.x subset).
Proof.
  intros Hnd (idx & Hinc & ->). apply (pick_NoDup_x shares idx Hnd 0 Hinc).
Qed.

Lemma increasing_seq (k : nat) : forall s e, (s + k <= e)%nat -> increasing s e (seq s k).
Proof.
  induction k as [|k IH]; intros s e H; [exact I|].
  cbn [seq increasing]. split; [lia|]. apply IH. lia.
Qed.

(** The first subset yielded is made of the first [k] shares. *)
Lemma combinations_first (shares : list Share.t) (k : nat) :
  (k <= length shares)%nat ->
  exists rest,
    combinations Share.dummy shares k = pick Share.dummy shares (seq 0 k) :: rest.
Proof.
  intros Hk.
  destruct (combinations_index_subsets Share.dummy shares k Hk) as [_ E].
  destruct (index_subsets_path (length shares) 0 k Hk) as (l & El & _).
  rewrite E, El. cbn [map]. eauto.
Qed.

(** ** The structure of [reconstruct] *)

Lemma reconstruct_unfold (shares : list Share.t) (k : Z) :
  (k < 2 \/ Z.of_nat (length shares) < k) /\
    reconstruct shares k = Err InvalidThreshold
  \/
  2 <= k <= Z.of_nat (length shares) /\
    let all := combinations Share.dummy shares (Z.to_nat k) in
    exists best,
      search shares all None = Ok best /\
      (forall b, best = Some b -> well_formed shares all b) /\
      (forall s, In s all -> NoDup (map Share.x s) ->
         best <> None /\ support (lagrange_poly s) shares <= best_fitCount best) /\
      reconstruct shares k
      = match best with
        | None => Err ReconstructionFailed
        | Some b => Ok b
        end.
Proof.
  unfold reconstruct.
  destruct (Z.ltb_spec k 2) as [H2|H2]; [left; split; [lia | reflexivity]|].
  destruct (Z.gtb_spec k (Z.of_nat (length shares))) as [Hn|Hn];
    [left; split; [lia | reflexivity]|].
  right. split; [lia|]. cbn zeta.
  set (all := combinations Share.dummy shares (Z.to_nat k)).
  destruct (search_invariant shares all all None (incl_refl all))
    as (best & E & Hwf & _ & _ & Hmax); [discriminate|].
  exists best. split; [exact E|]. split; [exact Hwf|]. split; [exact Hmax|].
  rewrite E. reflexivity.
Qed.

Lemma reconstruct_Ok (shares : list Share.t) (k : Z) (b : Best) :
  reconstruct shares k = Ok b ->
  2 <= k <= Z.of_nat (length shares) /\
  well_formed shares (combinations Share.dummy shares (Z.to_nat k)) b.
Proof.
  intros H.
  destruct (reconstruct_unfold shares k) as [[_ E]|[Hk (best & _ & Hwf & _ & E)]];
    rewrite E in H; [discriminate|].
  split; [exact Hk|]. destruct best as [b'|]; [|discriminate].
  injection H as <-. apply Hwf. reflexivity.
Qed.

(** With pairwise distinct [x] among the first [k] shares and a valid
    threshold, a result is returned. *)
Lemma reconstruct_returns (shares : list Share.t) (k : Z) :
  2 <= k <= Z.of_nat (length shares) ->
  NoDup (map Share.x (pick Share.dummy shares (seq 0 (Z.to_nat k)))) ->
  exists b, reconstruct shares k = Ok b.
Proof.
  intros Hk Hnd.
  destruct (reconstruct_unfold shares k) as [[Hbad _]|[_ (best & _ & _ & Hmax & E)]];
    [lia|].
  destruct (combinations_first shares (Z.to_nat k) ltac:(lia)) as (rest & Ec).
  destruct (Hmax (pick Share.dummy shares (seq 0 (Z.to_nat k)))) as [Hnn _];
    [rewrite Ec; left; reflexivity | exact Hnd |].
  destruct best as [b|]; [|contradiction]. exists b. exact E.
Qed.

(** ** Degenerate subsets *)

Lemma dup_indices (l : list Z) :
  ~ NoDup l ->
  exists i j, i <> j /\ (i < length l)%nat /\ (j < length l)%nat /\
              nth i l 0 = nth j l 0.
Proof.
  induction l as [|a l IH]; intros H; [exfalso; apply H; constructor|].
  destruct (in_dec Z.eq_dec a l) as [Hin|Hni].
  - destruct (In_nth l a 0 Hin) as (j & Hj & Ej).
    exists 0%nat, (S j). cbn [nth length]. repeat split; [discriminate | lia | lia | auto].
  - destruct IH as (i & j & Hij & Hi & Hj & E).
    + intros Hnd. apply H. constructor; assumption.
    + exists (S i), (S j). cbn [nth length]. repeat split; [congruence | lia | lia | exact E].
Qed.

Lemma den_at_dup (points : list Share.t) :
  ~ NoDup (map Share.x points) ->
  exists i, (i < length points)%nat /\ den_at points i = 0.
Proof.
  intros H. destruct (dup_indices _ H) as (i & j & Hij & Hi & Hj & E).
  rewrite length_map in Hi, Hj.
  change 0 with (Share.x Share.dummy) in E. rewrite !map_nth in E.
  exists i. split; [exact Hi|].
  unfold den_at, num_at. apply Zprod_eq0. apply in_map_iff.
  exists j. split; [unfold xat; lia|].
  apply in_others. split; [apply in_seq; lia | exact Hij].
Qed.

Lemma term_loop_degenerate (points : list Share.t) (factor : Z -> Z) :
  forall ix acc,
    Fraction.canonical acc ->
    (exists i, In i ix /\ den_at points i = 0) ->
    for_each ix (term_step points factor) acc = Err DivisionByZero.
Proof.
  induction ix as [|i ix IH]; intros acc Hacc (i0 & Hin & Hz); [contradiction|].
  cbn [for_each].
  destruct (Z.eq_dec (den_at points i) 0) as [E|E].
  - rewrite term_step_degenerate by exact E. reflexivity.
  - destruct (term_step_ok points factor i acc Hacc E) as (r & Er & Hr & _).
    rewrite Er. cbn [bind]. apply IH; [exact Hr|].
    destruct Hin as [->|Hin]; [contradiction|]. exists i0. auto.
Qed.

(** The interpolator's own guard: on two points of equal [x] the
    division by the zero denominator product throws. *)
Lemma lagrangeAtZero_degenerate (points : list Share.t) :
  ~ NoDup (map Share.x points) -> lagrangeAtZero points = Err DivisionByZero.
Proof.
  intros H. destruct (den_at_dup points H) as (i & Hi & Hz).
  unfold lagrangeAtZero. rewrite new_integer. cbn [bind].
  apply term_loop_degenerate; [apply canonical_integer|].
  exists i. split; [apply in_seq; lia | exact Hz].
Qed.

(** ** Claims on [reconstruct] *)

(** C7 (threshold boundary).  A threshold below 2, in particular 1, and a
    threshold above the number of shares both make [reconstruct] fail
    with [InvalidThreshold]; no result is produced. *)
Theorem reconstruct_invalid_threshold (shares : list Share.t) (k : Z) :
  k < 2 \/ k > Z.of_nat (length shares) ->
  reconstruct shares k = Err InvalidThreshold.
Proof.
  intros H. unfold reconstruct.
  destruct (Z.ltb_spec k 2) as [|H2]; [reflexivity|].
  destruct (Z.gtb_spec k (Z.of_nat (length shares))); [reflexivity | lia].
Qed.

Lemma reconstruct_invalid_threshold_witness :
  reconstruct [Share.mk 1 4 10 "4" "1"; Share.mk 2 7 10 "7" "2"] 1
    = Err InvalidThreshold /\
  reconstruct [Share.mk 1 4 10 "4" "1"; Share.mk 2 7 10 "7" "2"] 3
    = Err InvalidThreshold.
Proof.
  split; apply reconstruct_invalid_threshold; cbn; lia.
Defined.

(** C8 (degeneracy rejection).  A subset with two shares of equal [x] is
    detected by the duplicate test, would make [lagrangeAtZero] throw, and
    leaves the search state as it was, the search going on with the next
    subset; the subset of a returned result has pairwise distinct [x]; and
    the only failures of [reconstruct] are [InvalidThreshold] and
    [ReconstructionFailed]. *)
Theorem degenerate_subsets_skipped :
  (forall shares subset rest best,
     ~ NoDup (map Share.x subset) ->
     has_duplicate_x subset = true /\
     lagrangeAtZero subset = Err DivisionByZero /\
     search shares (subset :: rest) best = search shares rest best) /\
  (forall shares k b,
     reconstruct shares k = Ok b -> NoDup (map Share.x (subset b))) /\
  (forall shares k e,
     reconstruct shares k = Err e ->
     e = InvalidThreshold \/ e = ReconstructionFailed).
Proof.
  split; [|split].
  - intros shares subset rest best H.
    assert (Hdup : has_duplicate_x subset = true) by (apply has_duplicate_x_true, H).
    split; [exact Hdup|]. split; [apply lagrangeAtZero_degenerate, H|].
    apply search_skip, Hdup.
  - intros shares k b H. apply reconstruct_Ok in H. apply H.
  - intros shares k e H.
    destruct (reconstruct_unfold shares k) as [[_ E]|[_ (best & _ & _ & _ & E)]];
      rewrite E in H.
    + left. congruence.
    + right. destruct best; [discriminate | congruence].
Qed.

Lemma degenerate_subsets_skipped_witness :
  search [Share.mk 1 4 10 "4" "1"; Share.mk 1 7 10 "7" "01"; Share.mk 2 7 10 "7" "2"]
         [[Share.mk 1 4 10 "4" "1"; Share.mk 1 7 10 "7" "01"]] None
  = Ok None.
Proof.
  destruct degenerate_subsets_skipped as [H _].
  destruct (H [Share.mk 1 4 10 "4" "1"; Share.mk 1 7 10 "7" "01"; Share.mk 2 7 10 "7" "2"]
              [Share.mk 1 4 10 "4" "1"; Share.mk 1 7 10 "7" "01"] [] None)
    as (_ & _ & E).
  - cbn. intros Hnd. inversion Hnd as [|? ? Hni _]; subst. apply Hni. left. reflexivity.
  - rewrite E. reflexivity.
Defined.

(** C9 (basis points).  At the [x] of a member of a subset with pairwise
    distinct [x], [lagrangeEval] returns the integer fraction of the
    member's [y]; hence a returned result is supported by at least [k]
    shares. *)
Theorem basis_points_fit :
  (forall subset p,
     NoDup (map Share.x subset) -> In p subset ->
     lagrangeEval subset (Share.x p) = Ok (Fraction.mk (Share.y p) 1) /\
     Fraction.isInteger (Fraction.mk (Share.y p) 1) = true) /\
  (forall shares k b, reconstruct shares k = Ok b -> k <= fitCount b).
Proof.
  split.
  - intros subset p Hnd Hp. split; [apply lagrangeEval_member; assumption | reflexivity].
  - intros shares k b H. apply reconstruct_Ok in H.
    destruct H as (Hk & Hin & Hnd & _ & Eb).
    apply in_combinations in Hin. destruct Hin as [Hlen Hsub].
    rewrite Eb. cbn [fitCount candidate]. unfold support.
    set (c := lagrange_poly (subset b)).
    assert (Hle : (length (subset b) <= length (filter (lies_on c) shares))%nat).
    { apply NoDup_incl_length.
      - apply (NoDup_map_inv Share.x), Hnd.
      - intros p Hp. apply filter_In. split.
        + apply (subcollection_in _ _ _ Hsub Hp).
        + apply lies_on_true. apply lagrange_poly_through; assumption. }
    lia.
Qed.

Lemma basis_points_fit_witness :
  lagrangeEval [Share.mk 1 4 10 "4" "1"; Share.mk 2 7 10 "7" "2"; Share.mk 3 14 10 "14" "3"] 2
  = Ok (Fraction.mk 7 1).
Proof.
  destruct basis_points_fit as [H _].
  apply (H [Share.mk 1 4 10 "4" "1"; Share.mk 2 7 10 "7" "2"; Share.mk 3 14 10 "14" "3"]
           (Share.mk 2 7 10 "7" "2")).
  - distinct_literals.
  - right. left. reflexivity.
Defined.

(** ** Shares taken from an integer polynomial *)

Section HonestShares.

(** The coefficients of the dealer's polynomial, constant term first. *)
Variable cs : list Z.

Lemma on_curve_through (points : list Share.t) :
  (forall p, In p points -> on_curve cs p) -> through (map zq cs) points.
Proof.
  intros H p Hp. rewrite <- zq_evalZ. f_equal. symmetry. apply H, Hp.
Qed.

Variable subset : list Share.t.
Hypothesis subset_distinct : NoDup (map Share.x subset).

(** A subset of enough shares of the curve interpolates the curve. *)
Lemma honest_subset_value :
  (length cs <= length subset)%nat ->
  (forall p, In p subset -> on_curve cs p) ->
  forall xq, lagrange_value subset xq = zq (evalZ cs xq).
Proof.
  intros Hlen Hon xq. rewrite zq_evalZ.
  apply lagrange_unique; auto.
  - rewrite length_map. exact Hlen.
  - apply on_curve_through, Hon.
Qed.

Lemma honest_subset_lies_on (p : Share.t) :
  (length cs <= length subset)%nat ->
  (forall q, In q subset -> on_curve cs q) ->
  lies_on (lagrange_poly subset) p = (Share.y p =? evalZ cs (Share.x p)).
Proof.
  intros Hlen Hon.
  pose proof (lies_on_true (lagrange_poly subset) p) as Ht.
  rewrite lagrange_poly_value, (honest_subset_value Hlen Hon) in Ht.
  destruct (Z.eqb_spec (Share.y p) (evalZ cs (Share.x p))) as [E|E].
  - apply Ht. rewrite E. reflexivity.
  - destruct (lies_on (lagrange_poly subset) p); [|reflexivity].
    exfalso. apply E. apply zq_inj. symmetry. apply Ht. reflexivity.
Qed.

Lemma honest_subset_secret :
  (length cs <= length subset)%nat ->
  (forall p, In p subset -> on_curve cs p) ->
  lagrangeAtZero subset = Ok (Fraction.mk (evalZ cs 0) 1).
Proof.
  intros Hlen Hon.
  destruct (lagrangeAtZero_ok subset subset_distinct) as (r & E & Hc & V).
  rewrite E. f_equal. apply canonical_inj; [exact Hc | apply canonical_integer |].
  rewrite V, Fval_integer. apply honest_subset_value; assumption.
Qed.

(** A subset holding a share off the curve cannot pass through as many
    points of the curve as the curve has coefficients. *)
Lemma tainted_subset_misses (honest : list Share.t) (bad : Share.t) :
  NoDup (map Share.x honest) ->
  (length cs <= length honest)%nat -> (length subset <= length honest)%nat ->
  (forall p, In p honest -> on_curve cs p) ->
  In bad subset -> ~ on_curve cs bad ->
  ~ through (lagrange_poly subset) honest.
Proof.
  intros Hnd Hcs Hlen Hon Hbad Hoff Hthrough.
  apply Hoff. unfold on_curve. apply zq_inj.
  rewrite <- (lagrange_poly_through subset subset_distinct bad Hbad), zq_evalZ.
  apply (poly_unique (length honest) _ _ (map zq (map Share.x honest))).
  - pose proof (length_lagrange_poly subset). lia.
  - rewrite length_map. exact Hcs.
  - apply NoDup_map_zq, Hnd.
  - rewrite !length_map. lia.
  - intros r Hr. rewrite map_map in Hr. apply in_map_iff in Hr.
    destruct Hr as (p & <- & Hp).
    rewrite (Hthrough p Hp). symmetry. apply on_curve_through with (points := honest); auto.
Qed.

End HonestShares.

Lemma support_all (c : list Qc) (shares : list Share.t) :
  (forall p, In p shares -> lies_on c p = true) ->
  support c shares = Z.of_nat (length shares) /\
  map (lies_on c) shares = repeat true (length shares).
Proof.
  intros H. unfold support. induction shares as [|p shares IH]; [split; reflexivity|].
  cbn [filter map length repeat]. rewrite (H p) by (left; reflexivity).
  destruct IH as [IH1 IH2]; [intros q Hq; apply H; right; exact Hq|].
  cbn [length]. split; [lia | f_equal; exact IH2].
Qed.

(** All shares on the curve, pairwise distinct [x], a valid threshold no
    smaller than the number of coefficients: the first subset is a
    perfect fit and the search stops on it. *)
Lemma reconstruct_exact (cs : list Z) (shares : list Share.t) (k : Z) :
  2 <= k <= Z.of_nat (length shares) ->
  (length cs <= Z.to_nat k)%nat ->
  NoDup (map Share.x shares) ->
  (forall p, In p shares -> on_curve cs p) ->
  reconstruct shares k
  = Ok (mkBest (Z.of_nat (length shares))
               (pick Share.dummy shares (seq 0 (Z.to_nat k)))
               (Fraction.mk (evalZ cs 0) 1)
               (repeat true (length shares))).
Proof.
  intros Hk Hcs Hnd Hon. unfold reconstruct.
  destruct (Z.ltb_spec k 2) as [|_]; [lia|].
  destruct (Z.gtb_spec k (Z.of_nat (length shares))) as [|_]; [lia|].
  destruct (combinations_first shares (Z.to_nat k) ltac:(lia)) as (rest & ->).
  set (first := pick Share.dummy shares (seq 0 (Z.to_nat k))).
  assert (Hinc : increasing 0 (length shares) (seq 0 (Z.to_nat k)))
    by (apply increasing_seq; lia).
  assert (Hfirst : NoDup (map Share.x first)) by (apply (pick_NoDup_x shares _ Hnd 0 Hinc)).
  assert (Hlen : length first = Z.to_nat k)
    by (unfold first, pick; rewrite length_map, length_seq; reflexivity).
  assert (Hfon : forall p, In p first -> on_curve cs p)
    by (intros p Hp; apply Hon, (pick_in _ _ _ _ _ Hinc Hp)).
  destruct (search_cons shares first rest None Hfirst) as (sf & Esf & _ & _ & E).
  rewrite E. clear E. cbn zeta.
  rewrite (honest_subset_secret cs first Hfirst) in Esf by (auto; lia).
  injection Esf as <-.
  destruct (support_all (lagrange_poly first) shares) as [Hs Hf].
  { intros p Hp. rewrite (honest_subset_lies_on cs first Hfirst) by (auto; lia).
    apply Z.eqb_eq, Hon, Hp. }
  unfold candidate. cbn [fitCount best_fitCount]. rewrite Hs, Hf.
  destruct (Z.gtb_spec (Z.of_nat (length shares)) (-1)) as [_|]; [|lia].
  rewrite Z.eqb_refl. reflexivity.
Qed.

Lemma NoDup_map_of_nat (l : list nat) : NoDup l -> NoDup (map Z.of_nat l).
Proof.
  induction 1 as [|a l Hni Hnd IH]; cbn [map]; constructor; [|exact IH].
  intros Hin. apply in_map_iff in Hin. destruct Hin as (a' & E & Ha').
  apply Nat2Z.inj in E. subst a'. contradiction.
Qed.

(** C1 (exactness), with the threshold in its valid range.  Shares taken
    at [x = 1..n] from a polynomial with [k] integer coefficients (degree
    at most [k - 1]), for [2 <= k <= n], all unmodified: [reconstruct]
    returns a result whose secret is the constant term, as an integer
    fraction, with [fitCount = n] and every share marked good. *)
Theorem reconstruct_exactness (c0 : Z) (cs : list Z) (n : nat) (k : Z)
    (shares : list Share.t) :
  2 <= k <= Z.of_nat n ->
  length (c0 :: cs) = Z.to_nat k ->
  map Share.x shares = map Z.of_nat (seq 1 n) ->
  (forall p, In p shares -> on_curve (c0 :: cs) p) ->
  exists b,
    reconstruct shares k = Ok b /\
    secretFrac b = Fraction.mk c0 1 /\
    fitCount b = Z.of_nat n /\
    fits b = repeat true n.
Proof.
  intros Hk Hlen Hx Hon.
  assert (Hn : length shares = n).
  { rewrite <- (length_map Share.x), Hx, length_map, length_seq. reflexivity. }
  assert (Hnd : NoDup (map Share.x shares)).
  { rewrite Hx. apply NoDup_map_of_nat, seq_NoDup. }
  eexists. split.
  - apply (reconstruct_exact (c0 :: cs)); auto; lia.
  - cbn [secretFrac fitCount fits evalZ]. rewrite Hn.
    repeat split. f_equal. lia.
Qed.

Lemma reconstruct_exactness_witness :
  exists b,
    reconstruct [Share.mk 1 4 10 "4" "1"; Share.mk 2 7 10 "7" "2";
                 Share.mk 3 14 10 "14" "3"; Share.mk 4 25 10 "25" "4"] 3 = Ok b /\
    secretFrac b = Fraction.mk 5 1 /\
    fitCount b = 4 /\
    fits b = [true; true; true; true].
Proof.
  apply (reconstruct_exactness 5 [-3; 2] 4 3).
  - cbn. lia.
  - reflexivity.
  - reflexivity.
  - intros p [<-|[<-|[<-|[<-|[]]]]]; reflexivity.
Defined.

(** C1 as worded fails where the threshold checks reject the call: the
    three shares of the constant polynomial [5] with [k = 1], and two
    shares of [2x^2 - 3x + 5] with [k = 3], both end in
    [InvalidThreshold]. *)
Lemma reconstruct_exactness_counterexample :
  (let shares := [Share.mk 1 5 10 "5" "1"; Share.mk 2 5 10 "5" "2";
                  Share.mk 3 5 10 "5" "3"] in
   length [5] = Z.to_nat 1 /\
   map Share.x shares = map Z.of_nat (seq 1 3) /\
   (forall p, In p shares -> on_curve [5] p) /\
   reconstruct shares 1 = Err InvalidThreshold) /\
  (let shares := [Share.mk 1 4 10 "4" "1"; Share.mk 2 7 10 "7" "2"] in
   length [5; -3; 2] = Z.to_nat 3 /\
   map Share.x shares = map Z.of_nat (seq 1 2) /\
   (forall p, In p shares -> on_curve [5; -3; 2] p) /\
   reconstruct shares 3 = Err InvalidThreshold).
Proof.
  split; cbn zeta; (split; [reflexivity|]); (split; [reflexivity|]);
    (split; [|reflexivity]).
  - intros p [<-|[<-|[<-|[]]]]; reflexivity.
  - intros p [<-|[<-|[]]]; reflexivity.
Qed.

(** ** The corrupted-share scenario *)

Section Corruption.

(** Four shares at [x = 1..4]: the first three on [2x^2 - 3x + 5], the
    fourth altered. *)
Variables s1 s2 s3 s4 : Share.t.
Hypothesis point1 : Share.x s1 = 1 /\ Share.y s1 = 4.
Hypothesis point2 : Share.x s2 = 2 /\ Share.y s2 = 7.
Hypothesis point3 : Share.x s3 = 3 /\ Share.y s3 = 14.
Hypothesis point4 : Share.x s4 = 4 /\ Share.y s4 <> 25.

Let f : list Z := [5; -3; 2].
Let shares : list Share.t := [s1; s2; s3; s4].
Let honest : list Share.t := [s1; s2; s3].

Local Lemma honest_on_curve : forall p, In p honest -> on_curve f p.
Proof.
  destruct point1 as [X1 Y1], point2 as [X2 Y2], point3 as [X3 Y3].
  intros p [<-|[<-|[<-|[]]]]; unfold on_curve; [rewrite X1, Y1 | rewrite X2, Y2 | rewrite X3, Y3];
    reflexivity.
Qed.

Local Lemma altered_off_curve : ~ on_curve f s4.
Proof.
  destruct point4 as [X4 Y4]. unfold on_curve. rewrite X4. exact Y4.
Qed.

Local Lemma xs_shares : map Share.x shares = [1; 2; 3; 4].
Proof.
  destruct point1 as [X1 _], point2 as [X2 _], point3 as [X3 _], point4 as [X4 _].
  cbn. rewrite X1, X2, X3, X4. reflexivity.
Qed.

Lemma scenario_subset_distinct (l : list Share.t) :
  (exists idx, increasing 0 4 idx /\ l = pick Share.dummy shares idx) ->
  NoDup (map Share.x l).
Proof.
  intros (idx & Hinc & ->). apply (pick_NoDup_x shares idx) with (s := 0%nat); [|exact Hinc].
  rewrite xs_shares. distinct_literals.
Qed.

Lemma honest_fits :
  NoDup (map Share.x honest) /\
  lagrangeAtZero honest = Ok (Fraction.mk 5 1) /\
  map (lies_on (lagrange_poly honest)) shares = [true; true; true; false].
Proof.
  assert (Hnd : NoDup (map Share.x honest)).
  { apply scenario_subset_distinct. exists [0; 1; 2]%nat. split; [cbn; lia | reflexivity]. }
  split; [exact Hnd|]. split.
  - apply (honest_subset_secret f honest Hnd); [cbn; lia | exact honest_on_curve].
  - cbn [map shares].
    rewrite !(honest_subset_lies_on f honest Hnd) by (cbn; try lia; exact honest_on_curve).
    destruct point1 as [X1 Y1], point2 as [X2 Y2], point3 as [X3 Y3], point4 as [X4 Y4].
    rewrite X1, Y1, X2, Y2, X3, Y3, X4.
    apply Z.eqb_neq in Y4. change (evalZ f 4) with 25. rewrite Y4. reflexivity.
Qed.

(** A subset with the altered share and two of the honest ones misses
    the third honest share. *)
Lemma tainted_fits (subset : list Share.t) (p0 : Share.t) :
  NoDup (map Share.x subset) -> length subset = 3%nat ->
  In s4 subset -> In p0 honest ->
  (forall p, In p honest -> p = p0 \/ In p subset) ->
  lies_on (lagrange_poly subset) p0 = false /\
  (forall p, In p subset -> lies_on (lagrange_poly subset) p = true).
Proof.
  intros Hnd Hlen Hbad Hp0 Hcover. split.
  - destruct (lies_on (lagrange_poly subset) p0) eqn:E; [|reflexivity].
    exfalso.
    apply (tainted_subset_misses f subset Hnd honest s4); try (cbn; lia); auto.
    + apply honest_fits.
    + exact honest_on_curve.
    + exact altered_off_curve.
    + intros p Hp. destruct (Hcover p Hp) as [->|Hin].
      * apply lies_on_true, E.
      * apply lagrange_poly_through; assumption.
  - intros p Hp. apply lies_on_true. apply lagrange_poly_through; assumption.
Qed.

End Corruption.

(** C2 (corruption tolerance).  Shares at [x = 1, 2, 3, 4] with
    [y = 4, 7, 14] on [2x^2 - 3x + 5] and any fourth [y] other than
    [f(4) = 25], threshold 3: the result has [fitCount = 3], the first three
    shares as winning subset, secret [5], and marks the fourth share, and
    only it, as bad. *)
Theorem corruption_tolerance (s1 s2 s3 s4 : Share.t) :
  Share.x s1 = 1 /\ Share.y s1 = 4 ->
  Share.x s2 = 2 /\ Share.y s2 = 7 ->
  Share.x s3 = 3 /\ Share.y s3 = 14 ->
  Share.x s4 = 4 /\ Share.y s4 <> 25 ->
  reconstruct [s1; s2; s3; s4] 3
  = Ok {| fitCount := 3;
          subset := [s1; s2; s3];
          secretFrac := Fraction.mk 5 1;
          fits := [true; true; true; false] |}.
Proof.
  intros P1 P2 P3 P4.
  set (shares := [s1; s2; s3; s4]).
  pose proof (scenario_subset_distinct s1 s2 s3 s4 P1 P2 P3 P4) as Hsub.
  pose proof (tainted_fits s1 s2 s3 s4 P1 P2 P3 P4) as Htainted.
  destruct (honest_fits s1 s2 s3 s4 P1 P2 P3 P4) as (Hnd1 & Hs1 & Hf1).
  fold shares in Hf1.
  unfold reconstruct.
  replace (3 <? 2) with false by reflexivity.
  replace (3 >? Z.of_nat (length shares)) with false by reflexivity.
  replace (combinations Share.dummy shares (Z.to_nat 3))
    with [[s1; s2; s3]; [s1; s2; s4]; [s1; s3; s4]; [s2; s3; s4]] by reflexivity.
  (* the subset of the three honest shares becomes the best candidate *)
  destruct (search_cons shares [s1; s2; s3] [[s1; s2; s4]; [s1; s3; s4]; [s2; s3; s4]]
                        None Hnd1) as (sf & Esf & _ & _ & E).
  rewrite E. clear E. rewrite Hs1 in Esf. injection Esf as <-.
  unfold candidate, support. cbn zeta. cbn [fitCount best_fitCount].
  rewrite Hf1. cbn [shares filter] in Hf1 |- *.
  injection Hf1 as -> -> -> ->. cbn -[search lagrange_poly].
  set (best := Some _).
  (* the three subsets that hold the altered share do not beat it *)
  assert (Hnd2 : NoDup (map Share.x [s1; s2; s4])).
  { apply Hsub. exists [0; 1; 3]%nat. split; [cbn; lia | reflexivity]. }
  assert (Hnd3 : NoDup (map Share.x [s1; s3; s4])).
  { apply Hsub. exists [0; 2; 3]%nat. split; [cbn; lia | reflexivity]. }
  assert (Hnd4 : NoDup (map Share.x [s2; s3; s4])).
  { apply Hsub. exists [1; 2; 3]%nat. split; [cbn; lia | reflexivity]. }
  destruct (Htainted [s1; s2; s4] s3 Hnd2 eq_refl) as [M2 T2];
    [cbn; auto | cbn; auto | cbn; intuition auto|].
  destruct (Htainted [s1; s3; s4] s2 Hnd3 eq_refl) as [M3 T3];
    [cbn; auto | cbn; auto | cbn; intuition auto|].
  destruct (Htainted [s2; s3; s4] s1 Hnd4 eq_refl) as [M4 T4];
    [cbn; auto | cbn; auto | cbn; intuition auto|].
  destruct (search_cons shares [s1; s2; s4] [[s1; s3; s4]; [s2; s3; s4]] best Hnd2)
    as (sf2 & _ & _ & _ & E).
  rewrite E. clear E. unfold candidate, support. cbn zeta. cbn [fitCount shares filter map].
  rewrite M2, !T2 by (cbn; auto). cbn -[search lagrange_poly].
  destruct (search_cons shares [s1; s3; s4] [[s2; s3; s4]] best Hnd3)
    as (sf3 & _ & _ & _ & E).
  rewrite E. clear E. unfold candidate, support. cbn zeta. cbn [fitCount shares filter map].
  rewrite M3, !T3 by (cbn; auto). cbn -[search lagrange_poly].
  destruct (search_cons shares [s2; s3; s4] [] best Hnd4)
    as (sf4 & _ & _ & _ & E).
  rewrite E. clear E. unfold candidate, support. cbn zeta. cbn [fitCount shares filter map].
  rewrite M4, !T4 by (cbn; auto). cbn -[search lagrange_poly].
  reflexivity.
Qed.

Lemma corruption_tolerance_witness :
  reconstruct [Share.mk 1 4 10 "4" "1"; Share.mk 2 7 10 "7" "2";
               Share.mk 3 14 10 "14" "3"; Share.mk 4 26 10 "26" "4"] 3
  = Ok {| fitCount := 3;
          subset := [Share.mk 1 4 10 "4" "1"; Share.mk 2 7 10 "7" "2";
                     Share.mk 3 14 10 "14" "3"];
          secretFrac := Fraction.mk 5 1;
          fits := [true; true; true; false] |}.
Proof.
  apply corruption_tolerance; cbn; split; (reflexivity || discriminate).
Defined.

(** ** The failure scenario *)

Lemma increasing_length (e : nat) (idx : list nat) :
  forall s, increasing s e idx -> (s + length idx <= e \/ idx = [])%nat.
Proof.
  induction idx as [|a idx IH]; intros s H; [right; reflexivity|].
  cbn [increasing] in H. destruct H as [Ha H]. left. cbn [length].
  destruct (IH (S a) H) as [Hle| ->]; cbn [length]; lia.
Qed.

Lemma subcollection_length (points shares : list Share.t) :
  subcollection points shares -> (length points <= length shares)%nat.
Proof.
  intros (idx & Hinc & ->). unfold pick. rewrite length_map.
  destruct (increasing_length _ _ _ Hinc) as [H| ->]; cbn [length]; lia.
Qed.

Lemma increasing_shift (e : nat) (idx : list nat) :
  forall s, increasing s e idx -> increasing (S s) (S e) (map S idx).
Proof.
  induction idx as [|a idx IH]; intros s H; [exact I|].
  cbn [increasing map] in *. destruct H as [Ha H]. split; [lia | apply IH, H].
Qed.

Lemma pick_shift {A : Type} (u a : A) (arr : list A) (idx : list nat) :
  pick u (a :: arr) (map S idx) = pick u arr idx.
Proof. unfold pick. rewrite map_map. reflexivity. Qed.

(** The items that pass a test are the items at increasing positions. *)
Lemma filter_picks {A : Type} (u : A) (f : A -> bool) (arr : list A) :
  exists idx, increasing 0 (length arr) idx /\ pick u arr idx = filter f arr.
Proof.
  induction arr as [|a arr (idx & Hinc & E)]; [exists []; split; [exact I | reflexivity]|].
  apply increasing_shift in Hinc. cbn [filter length]. destruct (f a).
  - exists (0%nat :: map S idx). split.
    + cbn [increasing]. split; [lia | exact Hinc].
    + change (a :: pick u (a :: arr) (map S idx) = a :: filter f arr).
      rewrite pick_shift, E. reflexivity.
  - exists (map S idx). split.
    + apply (increasing_weaken _ _ 1%nat); [lia | exact Hinc].
    + rewrite pick_shift. exact E.
Qed.

Lemma increasing_firstn (e j : nat) (idx : list nat) :
  forall s, increasing s e idx -> increasing s e (firstn j idx).
Proof.
  revert j. induction idx as [|a idx IH]; intros [|j] s H; try exact I.
  cbn [firstn increasing] in *. destruct H as [Ha H]. split; [exact Ha | apply IH, H].
Qed.

Lemma subcollection_firstn_filter (f : Share.t -> bool) (shares : list Share.t)
    (j : nat) :
  subcollection (firstn j (filter f shares)) shares.
Proof.
  destruct (filter_picks Share.dummy f shares) as (idx & Hinc & E).
  exists (firstn j idx). split; [apply increasing_firstn, Hinc|].
  rewrite <- E. unfold pick. rewrite firstn_map. reflexivity.
Qed.

(** Every collection of [k] shares at increasing positions is yielded. *)
Lemma combinations_complete (shares points : list Share.t) :
  subcollection points shares ->
  In points (combinations Share.dummy shares (length points)).
Proof.
  intros Hsub. pose proof (subcollection_length _ _ Hsub) as Hlen.
  destruct Hsub as (idx & Hinc & ->).
  destruct (combinations_index_subsets Share.dummy shares
              (length (pick Share.dummy shares idx)) Hlen) as [_ E].
  rewrite E. apply in_map. apply index_subsets_complete; [|exact Hinc].
  unfold pick. rewrite length_map. reflexivity.
Qed.

(** A subset with pairwise distinct [x] is consistent: its Lagrange form
    passes through it. *)
Lemma distinct_consistent (points : list Share.t) :
  NoDup (map Share.x points) -> consistent (length points) points.
Proof.
  intros Hnd. exists (lagrange_poly points).
  split; [apply length_lagrange_poly | apply lagrange_poly_through, Hnd].
Qed.

(** The polynomial a returned record was scored against. *)
Lemma reconstruct_support (shares : list Share.t) (k : Z) (b : Best) :
  reconstruct shares k = Ok b ->
  exists c : list Qc,
    (length c <= Z.to_nat k)%nat /\
    through c (subset b) /\
    (forall c', (length c' <= Z.to_nat k)%nat -> through c' (subset b) ->
                forall x, peval c' x = peval c x) /\
    fitCount b = support c shares /\
    fits b = map (lies_on c) shares.
Proof.
  intros H. apply reconstruct_Ok in H. destruct H as (Hk & Hin & Hnd & _ & Eb).
  apply in_combinations in Hin. destruct Hin as [Hlen _].
  exists (lagrange_poly (subset b)).
  split; [rewrite <- Hlen; apply length_lagrange_poly|].
  split; [apply lagrange_poly_through, Hnd|].
  split.
  - intros c' Hc' Hthrough x.
    apply (poly_unique (Z.to_nat k) _ _ (map zq (map Share.x (subset b)))).
    + exact Hc'.
    + rewrite <- Hlen. apply length_lagrange_poly.
    + apply NoDup_map_zq, Hnd.
    + rewrite !length_map. lia.
    + intros r Hr. rewrite map_map in Hr. apply in_map_iff in Hr.
      destruct Hr as (p & <- & Hp).
      rewrite (Hthrough p Hp). symmetry. apply lagrange_poly_through; assumption.
  - rewrite Eb. split; reflexivity.
Qed.

(** The members of the winning subset are supplied shares that fit. *)
Lemma reconstruct_fitCount_ge (shares : list Share.t) (k : Z) (b : Best) :
  reconstruct shares k = Ok b -> k <= fitCount b.
Proof.
  intros H. apply reconstruct_Ok in H.
  destruct H as (Hk & Hin & Hnd & _ & Eb).
  apply in_combinations in Hin. destruct Hin as [Hlen Hsub].
  rewrite Eb. cbn [fitCount candidate]. unfold support.
  set (c := lagrange_poly (subset b)).
  assert (Hle : (length (subset b) <= length (filter (lies_on c) shares))%nat).
  { apply NoDup_incl_length.
    - apply (NoDup_map_inv Share.x), Hnd.
    - intros p Hp. apply filter_In. split.
      + apply (subcollection_in _ _ _ Hsub Hp).
      + apply lies_on_true. apply lagrange_poly_through; assumption. }
  lia.
Qed.

(** ** How many shares of different [x] the search needs *)

(** One share for each different [x], at increasing positions. *)
Lemma distinct_subcollection (shares : list Share.t) :
  exists idx,
    increasing 0 (length shares) idx /\
    NoDup (map Share.x (pick Share.dummy shares idx)) /\
    length idx = distinct_x shares.
Proof.
  unfold distinct_x.
  induction shares as [|a shares (idx & Hinc & Hnd & Hlen)].
  - exists []. split; [exact I|]. split; [constructor | reflexivity].
  - pose proof (increasing_shift _ _ _ Hinc) as Hinc'. cbn [map nodup length].
    destruct (in_dec Z.eq_dec (Share.x a) (map Share.x shares)) as [Hin|Hni].
    + exists (map S idx). split; [|split].
      * apply (increasing_weaken _ _ 1%nat); [lia | exact Hinc'].
      * rewrite pick_shift. exact Hnd.
      * rewrite length_map. exact Hlen.
    + exists (0%nat :: map S idx). split; [|split].
      * cbn [increasing]. split; [lia | exact Hinc'].
      * change (NoDup (Share.x a
                       :: map Share.x (pick Share.dummy (a :: shares) (map S idx)))).
        rewrite pick_shift. constructor; [|exact Hnd].
        intros Hc. apply Hni. apply in_map_iff in Hc.
        destruct Hc as (p & Ep & Hp). apply in_map_iff. exists p.
        split; [exact Ep | apply (pick_in _ _ _ _ _ Hinc Hp)].
      * cbn [length]. rewrite length_map, Hlen. reflexivity.
Qed.

(** Shares of pairwise distinct [x] are no more than the different [x]. *)
Lemma distinct_x_ge (points shares : list Share.t) :
  incl points shares -> NoDup (map Share.x points) ->
  (length points <= distinct_x shares)%nat.
Proof.
  intros Hincl Hnd. unfold distinct_x. rewrite <- (length_map Share.x points).
  apply NoDup_incl_length; [exact Hnd|].
  intros v Hv. apply nodup_In. apply in_map_iff in Hv.
  destruct Hv as (p & <- & Hp). apply in_map, Hincl, Hp.
Qed.

(** With enough shares of different [x], a subset is scored and a
    result is returned. *)
Lemma reconstruct_enough_distinct (shares : list Share.t) (k : Z) :
  2 <= k <= Z.of_nat (length shares) ->
  (Z.to_nat k <= distinct_x shares)%nat ->
  exists b, reconstruct shares k = Ok b.
Proof.
  intros Hk Hd.
  destruct (distinct_subcollection shares) as (idx & Hinc & Hnd & Hlen).
  set (points := pick Share.dummy shares (firstn (Z.to_nat k) idx)).
  assert (Hsub : subcollection points shares).
  { exists (firstn (Z.to_nat k) idx). split; [apply increasing_firstn, Hinc | reflexivity]. }
  assert (Hl : length points = Z.to_nat k).
  { unfold points, pick. rewrite length_map, length_firstn. lia. }
  assert (Hp : NoDup (map Share.x points)).
  { unfold points, pick in *. rewrite map_map in *.
    rewrite <- (firstn_skipn (Z.to_nat k) idx), map_app in Hnd.
    apply NoDup_app_remove_r in Hnd. exact Hnd. }
  destruct (reconstruct_unfold shares k) as [[Hbad _]|[_ (best & _ & _ & Hmax & E)]];
    [lia|].
  destruct (Hmax points) as [Hnn _];
    [rewrite <- Hl; apply combinations_complete, Hsub | exact Hp |].
  destruct best as [b|]; [|contradiction]. exists b. exact E.
Qed.

(** With too few, every subset is degenerate and the search ends empty. *)
Lemma reconstruct_too_few_distinct (shares : list Share.t) (k : Z) :
  2 <= k <= Z.of_nat (length shares) ->
  (distinct_x shares < Z.to_nat k)%nat ->
  reconstruct shares k = Err ReconstructionFailed.
Proof.
  intros Hk Hd.
  destruct (reconstruct_unfold shares k) as [[Hbad _]|[_ (best & Es & _ & _ & E)]];
    [lia|].
  rewrite search_all_degenerate in Es.
  - injection Es as <-. exact E.
  - intros s Hs Hnd. apply in_combinations in Hs. destruct Hs as [Hlen Hsub].
    pose proof (distinct_x_ge s shares
                  (fun p Hp => subcollection_in _ _ _ Hsub Hp) Hnd).
    lia.
Qed.

(** The shares on a polynomial, when they are all the shares. *)
Lemma support_full (c : list Qc) (shares : list Share.t) :
  support c shares = Z.of_nat (length shares) ->
  forall p, In p shares -> peval c (zq (Share.x p)) = zq (Share.y p).
Proof.
  unfold support. intros H p Hp. apply lies_on_true.
  assert (E : filter (lies_on c) shares = shares).
  { clear p Hp. induction shares as [|a shares IH]; [reflexivity|].
    cbn [filter length] in *. pose proof (filter_length_le (lies_on c) shares).
    destruct (lies_on c a); cbn [length] in H; [f_equal; apply IH; lia | lia]. }
  rewrite <- E in Hp. apply filter_In in Hp. apply Hp.
Qed.

(** C3 (failure scenario), as the search has it.  No result is returned
    with [fitCount] below [k]: a returned [fitCount] is at least [k], it
    is the number of supplied shares on the one polynomial of degree
    below [k] through the winning subset, and [fits] marks those shares.
    Any [k] shares of pairwise distinct [x] lie on one polynomial of
    degree below [k], so with [2 <= k <= ] the number of shares the call
    fails with [ReconstructionFailed] exactly when the shares have fewer
    than [k] different [x]; otherwise it returns a result, and when no
    polynomial of degree below [k] passes through more than [k] of the
    shares, as with values unrelated to each other, that result has
    [fitCount] equal to [k]. *)
Theorem failure_scenario (shares : list Share.t) (k : Z) :
  (forall points, NoDup (map Share.x points) -> length points = Z.to_nat k ->
                  consistent (Z.to_nat k) points) /\
  (reconstruct shares k = Err ReconstructionFailed <->
   2 <= k <= Z.of_nat (length shares) /\ (distinct_x shares < Z.to_nat k)%nat) /\
  (forall b, reconstruct shares k = Ok b ->
     k <= fitCount b /\
     exists c : list Qc,
       (length c <= Z.to_nat k)%nat /\
       through c (subset b) /\
       (forall c', (length c' <= Z.to_nat k)%nat -> through c' (subset b) ->
                   forall x, peval c' x = peval c x) /\
       fitCount b = Z.of_nat (length (filter (lies_on c) shares)) /\
       fits b = map (lies_on c) shares) /\
  (2 <= k <= Z.of_nat (length shares) ->
   (Z.to_nat k <= distinct_x shares)%nat ->
   exists b,
     reconstruct shares k = Ok b /\
     ((forall c : list Qc, (length c <= Z.to_nat k)%nat -> support c shares <= k) ->
      fitCount b = k)).
Proof.
  split; [|split; [|split]].
  - intros points Hnd Hlen. rewrite <- Hlen. apply distinct_consistent, Hnd.
  - split.
    + intros H.
      destruct (reconstruct_unfold shares k) as [[_ E]|[Hk _]];
        [rewrite E in H; discriminate|].
      split; [exact Hk|].
      destruct (Nat.lt_ge_cases (distinct_x shares) (Z.to_nat k)) as [Hlt|Hge];
        [exact Hlt|].
      destruct (reconstruct_enough_distinct shares k Hk Hge) as (b & E).
      rewrite E in H. discriminate.
    + intros [Hk Hd]. apply reconstruct_too_few_distinct; assumption.
  - intros b H. split; [apply (reconstruct_fitCount_ge shares k b H)|].
    apply reconstruct_support, H.
  - intros Hk Hd. destruct (reconstruct_enough_distinct shares k Hk Hd) as (b & E).
    exists b. split; [exact E|]. intros Hfew.
    pose proof (reconstruct_fitCount_ge shares k b E) as Hge.
    destruct (reconstruct_support shares k b E) as (c & Hc & _ & _ & Ef & _).
    specialize (Hfew c Hc). lia.
Qed.

Lemma failure_scenario_witness :
  exists b,
    reconstruct [Share.mk 1 4 10 "4" "1"; Share.mk 2 7 10 "7" "2";
                 Share.mk 3 14 10 "14" "3"; Share.mk 4 26 10 "26" "4"] 3 = Ok b /\
    fitCount b = 3.
Proof.
  set (shares := [Share.mk 1 4 10 "4" "1"; Share.mk 2 7 10 "7" "2";
                  Share.mk 3 14 10 "14" "3"; Share.mk 4 26 10 "26" "4"]).
  destruct (failure_scenario shares 3) as (_ & _ & _ & H).
  destruct H as (b & E & Hfit); [cbn; lia | cbn; lia |].
  exists b. split; [exact E|]. apply Hfit.
  intros c Hc.
  pose proof (support_bounds c shares) as Hb. cbn [length shares] in Hb.
  destruct (Z.eq_dec (support c shares) 4) as [E4|]; [exfalso | lia].
  pose proof (support_full c shares E4) as Hall.
  pose proof (Hall _ (or_introl eq_refl)) as E1.
  pose proof (Hall _ (or_intror (or_introl eq_refl))) as E2.
  pose proof (Hall _ (or_intror (or_intror (or_introl eq_refl)))) as E3.
  pose proof (Hall _ (or_intror (or_intror (or_intror (or_introl eq_refl))))) as E5.
  cbn [Share.x Share.y] in E1, E2, E3, E5.
  assert (Hz : (zq 26 - zq 3 * zq 14 + zq 3 * zq 7 - zq 4 = 0)%Qc).
  { rewrite <- E1, <- E2, <- E3, <- E5.
    destruct c as [|a0 [|a1 [|a2 [|? ?]]]]; cbn [length] in Hc; try lia;
      cbn [peval];
      replace (zq 4) with (1 + 1 + 1 + 1)%Qc by (apply Qc_is_canon; reflexivity);
      replace (zq 3) with (1 + 1 + 1)%Qc by (apply Qc_is_canon; reflexivity);
      replace (zq 2) with (1 + 1)%Qc by (apply Qc_is_canon; reflexivity);
      replace (zq 1) with 1%Qc by (apply Qc_is_canon; reflexivity); ring. }
  rewrite <- !zq_mul, <- !zq_sub, <- !zq_add in Hz. apply zq_inj in Hz.
  discriminate Hz.
Defined.

(** C3 as worded fails in the scenario it names: five shares with
    values unrelated to each other and [k = 3].  Each of the ten subsets
    of three shares is fitted by its own three shares and by no other, so
    no four shares are mutually consistent; yet the shares of any such
    subset are, the first is scored, and the call returns its secret with
    [fitCount = 3 = k], neither failing nor reporting less than [k]. *)
Lemma failure_scenario_counterexample :
  let shares := [Share.mk 1 3 10 "3" "1"; Share.mk 2 1 10 "1" "2";
                 Share.mk 3 4 10 "4" "3"; Share.mk 4 1 10 "1" "4";
                 Share.mk 5 5 10 "5" "5"] in
  forallb (fun s => match verify shares s with
                    | Ok (_, fitCount) => fitCount =? 3
                    | Err _ => false
                    end)
          (combinations Share.dummy shares 3) = true /\
  length (combinations Share.dummy shares 3) = 10%nat /\
  reconstruct shares 3
  = Ok (mkBest 3 (firstn 3 shares) (Fraction.mk 10 1)
               [true; true; true; false; false]) /\
  reconstruct shares 3 <> Err ReconstructionFailed /\
  (forall b, reconstruct shares 3 = Ok b -> ~ fitCount b < 3).
Proof.
  cbn zeta.
  split; [vm_compute; reflexivity|].
  split; [vm_compute; reflexivity|].
  split; [vm_compute; reflexivity|].
  split; [vm_compute; discriminate|].
  intros b H. vm_compute in H. injection H as <-. cbn. lia.
Qed.

(** ** The input parser *)

Lemma insert_by_x_perm (s : Share.t) (l : list Share.t) :
  Permutation (insert_by_x s l) (s :: l).
Proof.
  induction l as [|h t IH]; cbn [insert_by_x]; [reflexivity|].
  destruct (Share.x h <? Share.x s); [|reflexivity].
  rewrite IH. apply perm_swap.
Qed.

Lemma sort_by_x_perm (l : list Share.t) : Permutation (sort_by_x l) l.
Proof.
  induction l as [|s l IH]; cbn [sort_by_x fold_right]; [reflexivity|].
  fold (sort_by_x l). rewrite insert_by_x_perm, IH. reflexivity.
Qed.

Lemma string_eqb_spec (a b : jsstring) : reflect (a = b) (string_eqb a b).
Proof.
  revert b. induction a as [|x a IH]; intros [|y b]; cbn [string_eqb];
    try (constructor; congruence).
  destruct (Z.eqb_spec x y) as [->|Hne]; cbn [andb].
  - destruct (IH b) as [->|Hne]; constructor; congruence.
  - constructor. congruence.
Qed.

Lemma string_eqb_eq (a b : jsstring) : string_eqb a b = true <-> a = b.
Proof. destruct (string_eqb_spec a b); split; congruence. Qed.

Lemma parse_entry_cases (data : list (jsstring * json)) (k : jsstring)
    (shares shares' : list Share.t) :
  parse_entry data k shares = Ok shares' ->
  shares' = shares \/
  exists s, shares' = shares ++ [s] /\ Share.label s = k /\
            all_digits k = true /\ Share.x s = BigInt_of_digits k.
Proof.
  unfold parse_entry. intros H.
  destruct (string_eqb k "keys"); [left; congruence|].
  destruct (all_digits k) eqn:Hd; cbn [negb] in H; [|left; congruence].
  destruct (truthy (lookup k data)); [|discriminate].
  destruct (prop (lookup k data) "base") as [[| | |b| |]|]; try discriminate.
  destruct (prop (lookup k data) "value") as [[| | |v| |]|]; try discriminate.
  destruct (parseInBase v (parseInt10 b)) as [y|]; [|discriminate].
  cbn [bind] in H. injection H as <-. right. eexists. split; [reflexivity|].
  cbn. auto.
Qed.

Lemma parse_entries_spec (data : list (jsstring * json)) :
  forall keys shares shares',
    parse_entries data keys shares = Ok shares' ->
    exists added,
      shares' = shares ++ added /\
      (NoDup keys -> NoDup (map Share.label added)) /\
      (forall s, In s added ->
         In (Share.label s) keys /\ all_digits (Share.label s) = true /\
         Share.x s = BigInt_of_digits (Share.label s)).
Proof.
  induction keys as [|k keys IH]; intros shares shares' H; cbn [parse_entries] in H.
  - injection H as <-. exists []. rewrite app_nil_r.
    split; [reflexivity|]. split; [constructor | intros s []].
  - destruct (parse_entry data k shares) as [shares1|] eqn:E1; [|discriminate].
    cbn [bind] in H. destruct (IH _ _ H) as (added & -> & Hnd & Hin).
    destruct (parse_entry_cases _ _ _ _ E1) as [->|(s & -> & Hl & Hd & Hx)].
    + exists added. split; [reflexivity|]. split.
      * intros Hk. inversion Hk; subst. auto.
      * intros s Hs. destruct (Hin s Hs) as (H1 & H2 & H3).
        split; [right; exact H1 | auto].
    + exists (s :: added). rewrite <- app_assoc. split; [reflexivity|]. split.
      * intros Hk. inversion Hk as [|? ? Hni Hk']. cbn [map].
        constructor; [|auto].
        rewrite Hl. intros Hc. apply Hni. apply in_map_iff in Hc.
        destruct Hc as (s' & Es' & Hs'). rewrite <- Es'. apply (Hin s' Hs').
      * intros s' [<-|Hs'].
        -- rewrite Hl. split; [left; reflexivity | auto].
        -- destruct (Hin s' Hs') as (H1 & H2 & H3). split; [right; exact H1 | auto].
Qed.

(** What [parseInput] returns when it does. *)
Lemma parseInput_unfold (data : list (jsstring * json)) (n k : number)
    (shares : list Share.t) :
  parseInput data = Ok (n, k, shares) ->
  prop (lookup "keys" data) "n" = Some (JNum n) /\
  prop (lookup "keys" data) "k" = Some (JNum k) /\
  exists parsed,
    parse_entries data (map fst data) [] = Ok parsed /\
    shares = sort_by_x parsed.
Proof.
  unfold parseInput. intros H.
  destruct (truthy (lookup "keys" data)); [|discriminate].
  destruct (prop (lookup "keys" data) "n") as [[| |n'| | |]|]; try discriminate.
  destruct (prop (lookup "keys" data) "k") as [[| |k'| | |]|]; try discriminate.
  destruct (parse_entries data (map fst data) []) as [parsed|] eqn:E; [|discriminate].
  cbn [bind] in H. injection H as <- <- <-. eauto.
Qed.

(** The shares [parseInput] returns carry pairwise distinct labels, each
    a distinct key of the parsed object, and [x] is read off the label. *)
Lemma parseInput_shares (data : list (jsstring * json)) (n k : number)
    (shares : list Share.t) :
  NoDup (map fst data) ->
  parseInput data = Ok (n, k, shares) ->
  NoDup (map Share.label shares) /\
  (forall s, In s shares -> parsed_from data s).
Proof.
  intros Hkeys H.
  destruct (parseInput_unfold _ _ _ _ H) as (_ & _ & parsed & E & ->).
  destruct (parse_entries_spec _ _ _ _ E) as (added & -> & Hnd & Hin).
  cbn [app]. pose proof (sort_by_x_perm added) as Hperm. split.
  - apply (Permutation_NoDup (l := map Share.label added)); [|auto].
    apply Permutation_map, Permutation_sym, Hperm.
  - intros s Hs. apply (Permutation_in _ Hperm) in Hs. apply Hin, Hs.
Qed.

(** ** The run of [main] *)

Lemma main_integer (data : list (jsstring * json)) (n k : number)
    (shares : list Share.t) (z : Z) :
  parseInput data = Ok (n, k, shares) -> BigInt_of_number k = Ok z ->
  main data = Ends (reconstruct shares z).
Proof. intros H1 H2. unfold main. rewrite H1, H2. reflexivity. Qed.

(** A degenerate subset yielded at every turn is skipped at every turn. *)
Lemma search_repeat_skip (shares subset : list Share.t) :
  has_duplicate_x subset = true ->
  forall fuel best, search_repeat fuel shares subset best = None.
Proof.
  intros Hdup. induction fuel as [|fuel IH]; intros best; [reflexivity|].
  cbn [search_repeat]. rewrite Hdup. apply IH.
Qed.

(** One turn on a subset with pairwise distinct [x]. *)
Lemma search_repeat_turn (shares subset : list Share.t) :
  NoDup (map Share.x subset) ->
  exists secretFrac,
    lagrangeAtZero subset = Ok secretFrac /\
    forall fuel best,
      search_repeat (S fuel) shares subset best
      = let b := candidate shares subset secretFrac in
        if fitCount b >? best_fitCount best then
          if fitCount b =? Z.of_nat (length shares) then Some (Ok b)
          else search_repeat fuel shares subset (Some b)
        else search_repeat fuel shares subset best.
Proof.
  intros Hnd. destruct (lagrangeAtZero_ok subset Hnd) as (sf & E & _).
  exists sf. split; [exact E|]. intros fuel best.
  cbn [search_repeat]. apply has_duplicate_x_false in Hnd as Hdup. rewrite Hdup, E.
  rewrite verify_spec by exact Hnd. reflexivity.
Qed.



(** The first turn ends the loop with a result or not at all. *)
Lemma search_repeat_result (shares subset : list Share.t) (r : result Best) :
  search_repeat 1 shares subset None = Some r ->
  NoDup (map Share.x subset) /\
  support (lagrange_poly subset) shares = Z.of_nat (length shares) /\
  exists secretFrac,
    lagrangeAtZero subset = Ok secretFrac /\
    r = Ok (candidate shares subset secretFrac).
Proof.
  intros H. destruct (has_duplicate_x subset) eqn:Hdup.
  - rewrite search_repeat_skip in H by exact Hdup. discriminate.
  - apply has_duplicate_x_false in Hdup. split; [exact Hdup|].
    destruct (search_repeat_turn shares subset Hdup) as (sf & E & Ht).
    rewrite Ht in H. cbn zeta in H. cbn [fitCount candidate] in H.
    destruct (_ >? _); [|discriminate].
    destruct (Z.eqb_spec (support (lagrange_poly subset) shares)
                         (Z.of_nat (length shares))) as [Es|]; [|discriminate].
    split; [exact Es|]. exists sf. split; [exact E|]. congruence.
Qed.

(** A run with a threshold that is no integer ends, if it ends, in
    [InvalidThreshold] or in the result of the first turn. *)
Lemma main_not_integer (data : list (jsstring * json)) (n k : number)
    (shares : list Share.t) :
  parseInput data = Ok (n, k, shares) ->
  (forall z, BigInt_of_number k <> Ok z) ->
  main data = Ends (Err InvalidThreshold) /\
    (number_ltb k 2 = true \/ number_ltb (Z.of_nat (length shares)) k = true)
  \/
  number_ltb k 2 = false /\ number_ltb (Z.of_nat (length shares)) k = false /\
  main data
  = match search_repeat 1 shares
            (pick Share.dummy shares (seq 0 (Z.to_nat (ToLength k)))) None with
    | Some r => Ends r
    | None => Loops
    end.
Proof.
  intros H Hk. unfold main. rewrite H.
  destruct (BigInt_of_number k) as [z|e]; [exfalso; apply (Hk z); reflexivity|].
  destruct (number_ltb k 2); [left; auto|].
  destruct (number_ltb (Z.of_nat (length shares)) k); [left; auto|].
  right. auto.
Qed.

(** C10 (parsed shares), as the parser and the search have it.  The
    parsed shares have pairwise distinct labels, one per numeric key, and
    [x] is the integer the label denotes, so that two keys can give one
    [x].  For an integer [k] with [2 <= k <= ] the number of shares, the
    run returns a result when the shares have [k] different [x] at least,
    its winning subset being one of the subsets tried, of pairwise
    distinct [x], and ends in [ReconstructionFailed] when they have fewer.  For a [k]
    that is no integer the [ReconstructionFailed] branch is not reached. *)
Theorem parsed_shares_reconstruct (data : list (jsstring * json)) (n k : number)
    (shares : list Share.t) :
  NoDup (map fst data) ->
  parseInput data = Ok (n, k, shares) ->
  NoDup (map Share.label shares) /\
  (forall s, In s shares -> parsed_from data s) /\
  (forall z, BigInt_of_number k = Ok z -> 2 <= z <= Z.of_nat (length shares) ->
     ((Z.to_nat z <= distinct_x shares)%nat ->
      exists b, reconstruct shares z = Ok b /\ main data = Ends (Ok b) /\
                In (subset b) (combinations Share.dummy shares (Z.to_nat z)) /\
                NoDup (map Share.x (subset b))) /\
     ((distinct_x shares < Z.to_nat z)%nat ->
      main data = Ends (Err ReconstructionFailed))) /\
  ((forall z, BigInt_of_number k <> Ok z) ->
   main data <> Ends (Err ReconstructionFailed)).
Proof.
  intros Hkeys Hparse.
  destruct (parseInput_shares data n k shares Hkeys Hparse) as [Hl Hp].
  split; [exact Hl|]. split; [exact Hp|]. split.
  - intros z Hz Hk. rewrite (main_integer data n k shares z Hparse Hz). split.
    + intros Hd. destruct (reconstruct_enough_distinct shares z Hk Hd) as (b & E).
      destruct (reconstruct_Ok shares z b E) as (_ & Hin & Hnd & _).
      exists b. rewrite E. auto.
    + intros Hd. rewrite (reconstruct_too_few_distinct shares z Hk Hd). reflexivity.
  - intros Hno.
    destruct (main_not_integer data n k shares Hparse Hno) as [[E _]|(_ & _ & E)];
      rewrite E; [discriminate|].
    destruct (search_repeat 1 shares _ None) as [r|] eqn:Er; [|discriminate].
    destruct (search_repeat_result _ _ _ Er) as (_ & _ & sf & _ & ->).
    discriminate.
Qed.

Lemma parsed_shares_reconstruct_witness :
  exists b,
    main [(jstr "1", JObj [(jstr "base", JStr "10"); (jstr "value", JStr "4")]);
          (jstr "2", JObj [(jstr "base", JStr "2"); (jstr "value", JStr "111")]);
          (jstr "3", JObj [(jstr "base", JStr "16"); (jstr "value", JStr "e")]);
          (jstr "keys", JObj [(jstr "n", JNum 4); (jstr "k", JNum 3)]);
          (jstr "01", JObj [(jstr "base", JStr "10"); (jstr "value", JStr "9")])]
    = Ends (Ok b).
Proof.
  set (data := [(jstr "1", JObj [(jstr "base", JStr "10"); (jstr "value", JStr "4")]);
                (jstr "2", JObj [(jstr "base", JStr "2"); (jstr "value", JStr "111")]);
                (jstr "3", JObj [(jstr "base", JStr "16"); (jstr "value", JStr "e")]);
                (jstr "keys", JObj [(jstr "n", JNum 4); (jstr "k", JNum 3)]);
                (jstr "01", JObj [(jstr "base", JStr "10"); (jstr "value", JStr "9")])]).
  destruct (parsed_shares_reconstruct data 4 3
              [Share.mk 1 4 10 "4" "1"; Share.mk 1 9 10 "9" "01";
               Share.mk 2 7 2 "111" "2"; Share.mk 3 14 16 "e" "3"])
    as (_ & _ & H & _).
  - distinct_literals.
  - reflexivity.
  - destruct (H 3) as [Hres _].
    + reflexivity.
    + cbn. lia.
    + destruct Hres as (b & _ & E & _); [cbn; lia|]. exists b. exact E.
Defined.

(** C10 as worded fails: two keys that denote the same integer, such as
    ["1"] and ["01"], are two distinct numeric keys and parse to two shares
    of equal [x]; with [k = 2] the only subset is degenerate and the run
    ends in [ReconstructionFailed]. *)
Lemma parsed_shares_counterexample :
  let data := [(jstr "1", JObj [(jstr "base", JStr "10"); (jstr "value", JStr "5")]);
               (jstr "keys", JObj [(jstr "n", JNum 2); (jstr "k", JNum 2)]);
               (jstr "01", JObj [(jstr "base", JStr "10"); (jstr "value", JStr "7")])] in
  let shares := [Share.mk 1 5 10 "5" "1"; Share.mk 1 7 10 "7" "01"] in
  NoDup (map fst data) /\
  parseInput data = Ok (of_int 2, of_int 2, shares) /\
  ~ NoDup (map Share.x shares) /\
  2 <= 2 <= Z.of_nat (length shares) /\
  reconstruct shares 2 = Err ReconstructionFailed /\
  main data = Ends (Err ReconstructionFailed).
Proof.
  cbn zeta. split; [|split; [reflexivity | split; [|split; [cbn; lia | split; reflexivity]]]].
  - distinct_literals.
  - cbn. intros H. inversion H as [|? ? Hni _]; subst. apply Hni. left. reflexivity.
Qed.

(** * Further properties of the program *)

(** ** [bigGcd] and the [Fraction] class *)

(** X1.  The loop of [bigGcd] ends within its fuel for all [a] and [b],
    and what it returns is the non-negative greatest common divisor: it
    divides both arguments and every common divisor divides it; in
    particular [bigGcd a 0] is the absolute value of [a]. *)
Theorem bigGcd_greatest_common_divisor (a b : Z) :
  bigGcd_loop (bigGcd_fuel b) (bigAbs a) (bigAbs b) = Some (bigGcd a b) /\
  0 <= bigGcd a b /\
  (bigGcd a b | a) /\ (bigGcd a b | b) /\
  (forall c, (c | a) -> (c | b) -> (c | bigGcd a b)) /\
  bigGcd a 0 = bigAbs a.
Proof.
  rewrite bigGcd_loop_terminates, !bigGcd_gcd, bigAbs_abs.
  split; [reflexivity|].
  split; [apply Z.gcd_nonneg|].
  split; [apply Z.gcd_divide_l|].
  split; [apply Z.gcd_divide_r|].
  split; [intros c Ha Hb; apply Z.gcd_greatest; assumption|].
  apply Z.gcd_0_r.
Qed.

Lemma zq_ratio_eq (n1 d1 n2 d2 : Z) :
  d1 <> 0 -> d2 <> 0 ->
  ((zq n1 / zq d1)%Qc = (zq n2 / zq d2)%Qc <-> n1 * d2 = n2 * d1).
Proof.
  intros H1 H2. pose proof (zq_neq0 d1 H1) as Q1. pose proof (zq_neq0 d2 H2) as Q2.
  split.
  - intros E. apply zq_inj. rewrite !zq_mul.
    transitivity (zq n1 / zq d1 * (zq d1 * zq d2))%Qc; [field; auto|].
    rewrite E. field; auto.
  - intros E. assert (E' : (zq n1 * zq d2 = zq n2 * zq d1)%Qc)
      by (rewrite <- !zq_mul, E; reflexivity).
    field_simplify_eq; auto. rewrite E'. ring.
Qed.

(** X2.  The constructor identifies exactly the pairs of the same ratio:
    on non-zero denominators, [new n1 d1] and [new n2 d2] are the same
    object if and only if [n1 * d2 = n2 * d1]. *)
Theorem fraction_new_same_ratio (n1 d1 n2 d2 : Z) :
  d1 <> 0 -> d2 <> 0 ->
  (Fraction.new n1 d1 = Fraction.new n2 d2 <-> n1 * d2 = n2 * d1).
Proof.
  intros H1 H2.
  destruct (new_ok n1 d1 H1) as (r1 & E1 & C1 & V1).
  destruct (new_ok n2 d2 H2) as (r2 & E2 & C2 & V2).
  rewrite E1, E2, <- (zq_ratio_eq n1 d1 n2 d2 H1 H2), <- V1, <- V2. split.
  - intros [= ->]. reflexivity.
  - intros E. f_equal. apply canonical_inj; assumption.
Qed.

Lemma fraction_new_same_ratio_witness :
  Fraction.new 6 (-4) = Fraction.new (-9) 6.
Proof.
  apply (fraction_new_same_ratio 6 (-4) (-9) 6); [discriminate | discriminate | reflexivity].
Defined.

(** X3.  The fraction built from [(n, d)] passes [isInteger] exactly when
    [d] divides [n], and its numerator is then the quotient. *)
Theorem fraction_new_integer (n0 d0 : Z) (r : Fraction.t) :
  Fraction.new n0 d0 = Ok r ->
  (Fraction.isInteger r = true <-> (d0 | n0)) /\
  (Fraction.isInteger r = true -> Fraction.n r * d0 = n0).
Proof.
  intros E.
  assert (Hd : d0 <> 0) by (intros ->; discriminate E).
  destruct (new_ok n0 d0 Hd) as (r' & E' & Hc & V).
  rewrite E in E'. injection E' as <-.
  assert (Hint : Fraction.isInteger r = true -> Fraction.n r * d0 = n0).
  { unfold Fraction.isInteger. rewrite Z.eqb_eq. intros H1.
    destruct r as [rn rd]. cbn [Fraction.n Fraction.d] in *. subst rd.
    rewrite Fval_integer in V.
    assert (V' : (zq rn / zq 1)%Qc = (zq n0 / zq d0)%Qc).
    { rewrite <- V, zq_1. field. discriminate. }
    apply zq_ratio_eq in V'; [lia | discriminate | exact Hd]. }
  split; [|exact Hint]. split.
  - intros H. exists (Fraction.n r). symmetry. apply Hint, H.
  - intros [q Hq]. subst n0.
    assert (Er : r = Fraction.mk q 1).
    { apply canonical_inj; [exact Hc | apply canonical_integer|].
      rewrite V, Fval_integer, zq_mul. pose proof (zq_neq0 d0 Hd). field. assumption. }
    subst r. reflexivity.
Qed.

Lemma fraction_new_integer_witness :
  Fraction.isInteger (Fraction.mk (-3) 1) = true <-> (4 | -12).
Proof.
  destruct (fraction_new_integer (-12) 4 (Fraction.mk (-3) 1)) as [H _];
    [reflexivity | exact H].
Defined.

(** X4.  On canonical operands the four operations are exact: the result
    of [add], [sub], [mul] and [div] denotes the sum, the difference, the
    product and the quotient of the rationals the operands denote. *)
Theorem fraction_arithmetic_exact (a o : Fraction.t) :
  Fraction.canonical a -> Fraction.canonical o ->
  (exists r, Fraction.add a o = Ok r /\ Fval r = (Fval a + Fval o)%Qc) /\
  (exists r, Fraction.sub a o = Ok r /\ Fval r = (Fval a - Fval o)%Qc) /\
  (exists r, Fraction.mul a o = Ok r /\ Fval r = (Fval a * Fval o)%Qc) /\
  (Fraction.n o <> 0 ->
   exists r, Fraction.div a o = Ok r /\ Fval r = (Fval a / Fval o)%Qc).
Proof.
  intros Ha Ho.
  destruct (add_ok a o Ha Ho) as (r1 & E1 & _ & V1).
  destruct (sub_ok a o Ha Ho) as (r2 & E2 & _ & V2).
  destruct (mul_ok a o Ha Ho) as (r3 & E3 & _ & V3).
  repeat split; eauto.
  intros Hn. destruct (div_ok a o Ha Ho Hn) as (r4 & E4 & _ & V4). eauto.
Qed.

Lemma fraction_arithmetic_exact_witness :
  exists r, Fraction.add (Fraction.mk 1 2) (Fraction.mk 1 3) = Ok r /\
            Fval r = (Fval (Fraction.mk 1 2) + Fval (Fraction.mk 1 3))%Qc.
Proof.
  destruct (fraction_arithmetic_exact (Fraction.mk 1 2) (Fraction.mk 1 3)) as [H _];
    [split; [reflexivity | cbn; lia] | split; [reflexivity | cbn; lia] | exact H].
Defined.

(** X5.  On canonical fractions, [eq] is the equality of the rationals
    denoted: no two distinct canonical objects denote the same rational. *)
Theorem fraction_eq_same_rational (a o : Fraction.t) :
  Fraction.canonical a -> Fraction.canonical o ->
  (Fraction.eq a o = true <-> Fval a = Fval o).
Proof.
  intros Ha Ho. unfold Fraction.eq. rewrite andb_true_iff, !Z.eqb_eq. split.
  - intros [Hn Hd]. unfold Fval. rewrite Hn, Hd. reflexivity.
  - intros E. apply canonical_inj in E; [|assumption|assumption].
    subst o. auto.
Qed.

Lemma fraction_eq_same_rational_witness :
  Fraction.eq (Fraction.mk 1 2) (Fraction.mk 1 2) = true <->
  Fval (Fraction.mk 1 2) = Fval (Fraction.mk 1 2).
Proof.
  apply fraction_eq_same_rational; (split; [reflexivity | cbn; lia]).
Defined.

(** X6.  Subtraction undoes addition and division undoes multiplication,
    object for object: on canonical [a] and [o], [(a + o) - o] is [a], and
    when the numerator of [o] is not zero [(a * o) / o] is [a]. *)
Theorem fraction_round_trips (a o : Fraction.t) :
  Fraction.canonical a -> Fraction.canonical o ->
  (s <- Fraction.add a o ;; Fraction.sub s o) = Ok a /\
  (Fraction.n o <> 0 -> (p <- Fraction.mul a o ;; Fraction.div p o) = Ok a).
Proof.
  intros Ha Ho. split.
  - destruct (add_ok a o Ha Ho) as (s & Es & Hs & Vs). rewrite Es. cbn [bind].
    destruct (sub_ok s o Hs Ho) as (r & Er & Hr & Vr). rewrite Er. f_equal.
    apply canonical_inj; [assumption | assumption|]. rewrite Vr, Vs. ring.
  - intros Hn.
    destruct (mul_ok a o Ha Ho) as (p & Ep & Hp & Vp). rewrite Ep. cbn [bind].
    destruct (div_ok p o Hp Ho Hn) as (r & Er & Hr & Vr). rewrite Er. f_equal.
    apply canonical_inj; [assumption | assumption|]. rewrite Vr, Vp.
    assert (Fval o <> 0%Qc).
    { unfold Fval. pose proof (zq_neq0 _ Hn). pose proof (canonical_d_neq0 o Ho).
      intros E. apply H.
      transitivity (zq (Fraction.n o) / zq (Fraction.d o) * zq (Fraction.d o))%Qc;
        [field; auto | rewrite E; ring]. }
    field. assumption.
Qed.

Lemma fraction_round_trips_witness :
  (s <- Fraction.add (Fraction.mk 1 2) (Fraction.mk (-2) 3) ;;
   Fraction.sub s (Fraction.mk (-2) 3)) = Ok (Fraction.mk 1 2).
Proof.
  destruct (fraction_round_trips (Fraction.mk 1 2) (Fraction.mk (-2) 3)) as [H _];
    [split; [reflexivity | cbn; lia] | split; [reflexivity | cbn; lia] | exact H].
Defined.

(** X7.  Addition and multiplication are commutative on all fractions and
    associative on canonical ones, errors included: both sides of each
    equation are the same result. *)
Theorem fraction_commutative_associative :
  (forall a o, Fraction.add a o = Fraction.add o a) /\
  (forall a o, Fraction.mul a o = Fraction.mul o a) /\
  (forall a b c,
     Fraction.canonical a -> Fraction.canonical b -> Fraction.canonical c ->
     (s <- Fraction.add a b ;; Fraction.add s c)
     = (t <- Fraction.add b c ;; Fraction.add a t) /\
     (s <- Fraction.mul a b ;; Fraction.mul s c)
     = (t <- Fraction.mul b c ;; Fraction.mul a t)).
Proof.
  split; [|split].
  - intros a o. unfold Fraction.add. f_equal; ring.
  - intros a o. unfold Fraction.mul. f_equal; ring.
  - intros a b c Ha Hb Hc. split.
    + destruct (add_ok a b Ha Hb) as (s & Es & Hs & Vs).
      destruct (add_ok b c Hb Hc) as (t & Et & Ht & Vt).
      rewrite Es, Et. cbn [bind].
      destruct (add_ok s c Hs Hc) as (l & El & Hl & Vl).
      destruct (add_ok a t Ha Ht) as (r & Er & Hr & Vr).
      rewrite El, Er. f_equal. apply canonical_inj; [assumption | assumption|].
      rewrite Vl, Vr, Vs, Vt. ring.
    + destruct (mul_ok a b Ha Hb) as (s & Es & Hs & Vs).
      destruct (mul_ok b c Hb Hc) as (t & Et & Ht & Vt).
      rewrite Es, Et. cbn [bind].
      destruct (mul_ok s c Hs Hc) as (l & El & Hl & Vl).
      destruct (mul_ok a t Ha Ht) as (r & Er & Hr & Vr).
      rewrite El, Er. f_equal. apply canonical_inj; [assumption | assumption|].
      rewrite Vl, Vr, Vs, Vt. ring.
Qed.

Lemma fraction_commutative_associative_witness :
  (s <- Fraction.add (Fraction.mk 1 2) (Fraction.mk 1 3) ;; Fraction.add s (Fraction.mk 1 6))
  = (t <- Fraction.add (Fraction.mk 1 3) (Fraction.mk 1 6) ;; Fraction.add (Fraction.mk 1 2) t).
Proof.
  destruct fraction_commutative_associative as (_ & _ & H).
  destruct (H (Fraction.mk 1 2) (Fraction.mk 1 3) (Fraction.mk 1 6)) as [E _];
    [split; [reflexivity | cbn; lia] .. | exact E].
Defined.

(** ** The base parser *)

(** Splits the goal along its integer comparisons, closing the cases
    that contradict each other. *)
Ltac split_test :=
  match goal with
  | |- context [?x <=? ?y] => destruct (Z.leb_spec x y)
  | |- context [?x <? ?y] => destruct (Z.ltb_spec x y)
  | |- context [?x =? ?y] => destruct (Z.eqb_spec x y)
  end.

Ltac split_tests := repeat (split_test; cbn [andb orb negb]; try lia).

(** [charToVal] with the lower-casing and the string comparisons
    carried out. *)
Lemma charToVal_cases (ch : Z) :
  charToVal ch =
    if (48 <=? ch) && (ch <=? 57) then Ok (ch - 48)
    else if (97 <=? ch) && (ch <=? 122) then Ok (ch - 87)
    else if (65 <=? ch) && (ch <=? 90) then Ok (ch - 55)
    else if ch =? 304 then Ok 18
    else if ch =? 8490 then Ok 20
    else Err UnsupportedDigit.
Proof.
  unfold charToVal, toLowerCase.
  destruct (Z.leb_spec 65 ch), (Z.leb_spec ch 90); cbn [andb];
    [cbn; split_tests; f_equal; lia | | |].
  all: destruct (Z.leb_spec 192 ch), (Z.leb_spec ch 222), (Z.eqb_spec ch 215);
    cbn [andb negb]; try lia.
  all: try (cbn; split_tests; reflexivity).
  all: destruct (Z.eqb_spec ch 304) as [->|]; [reflexivity|].
  all: destruct (Z.eqb_spec ch 8490) as [->|]; [reflexivity|].
  all: cbn; split_tests; try reflexivity; f_equal; lia.
Qed.

Lemma charToVal_Ok (ch v : Z) :
  charToVal ch = Ok v <->
  (48 <= ch <= 57 /\ v = ch - 48) \/ (97 <= ch <= 122 /\ v = ch - 87) \/
  (65 <= ch <= 90 /\ v = ch - 55) \/ (ch = 304 /\ v = 18) \/
  (ch = 8490 /\ v = 20).
Proof.
  rewrite charToVal_cases. split.
  - split_tests; intros Hv; try discriminate Hv; injection Hv as <-; lia.
  - intros Hv. split_tests; f_equal; lia.
Qed.

Lemma charToVal_range (ch v : Z) : charToVal ch = Ok v -> 0 <= v < 36.
Proof. intros H. apply charToVal_Ok in H. lia. Qed.

Lemma charToVal_errors (ch : Z) (e : error) :
  charToVal ch = Err e -> e = UnsupportedDigit.
Proof.
  rewrite charToVal_cases.
  split_tests; intros He; try discriminate He; injection He as <-; reflexivity.
Qed.

(** X8.  [charToVal] gives a decimal digit its value, the letters from
    [a] to [z] and from [A] to [Z] the values from 10 to 35, and two more
    characters a value: U+0130, whose lower case begins with [i], the
    value 18, and U+212A, whose lower case is [k], the value 20.  On
    every other code unit it fails, with [UnsupportedDigit].  A capital
    letter and its small form get the same value. *)
Theorem charToVal_digit_values (ch : Z) :
  (forall v, charToVal ch = Ok v <->
     (48 <= ch <= 57 /\ v = ch - 48) \/ (97 <= ch <= 122 /\ v = ch - 87) \/
     (65 <= ch <= 90 /\ v = ch - 55) \/ (ch = 304 /\ v = 18) \/
     (ch = 8490 /\ v = 20)) /\
  (forall v, charToVal ch = Ok v -> 0 <= v < 36) /\
  (65 <= ch <= 90 -> charToVal (ch + 32) = charToVal ch) /\
  (forall e, charToVal ch = Err e -> e = UnsupportedDigit).
Proof.
  split; [intros v; apply charToVal_Ok|].
  split; [intros v; apply charToVal_range|].
  split; [|apply charToVal_errors].
  intros Hc. rewrite !charToVal_cases. split_tests. f_equal. lia.
Qed.

Lemma charToVal_digit_values_witness :
  charToVal 102 = charToVal 70 /\ charToVal 304 = Ok 18.
Proof.
  destruct (charToVal_digit_values 70) as (_ & _ & H & _).
  split; [apply H; lia|].
  apply (charToVal_digit_values 304). auto 6.
Defined.

Lemma parseInBase_loop_bounds (B : Z) :
  2 <= B ->
  forall cs v r,
    parseInBase_loop cs B v = Ok r -> 0 <= v ->
    v <= r < (v + 1) * B ^ Z.of_nat (length cs).
Proof.
  intros HB. induction cs as [|c cs IH]; intros v r H Hv.
  - cbn in H. injection H as <-. cbn [length Z.of_nat]. rewrite Z.pow_0_r. lia.
  - cbn [parseInBase_loop] in H.
    assert (Hpow : B ^ Z.of_nat (length (c :: cs)) = B * B ^ Z.of_nat (length cs)).
    { cbn [length]. rewrite Nat2Z.inj_succ, Z.pow_succ_r by lia. reflexivity. }
    rewrite Hpow.
    assert (Hp : 0 < B ^ Z.of_nat (length cs)) by (apply Z.pow_pos_nonneg; lia).
    destruct ((c =? 95) || (c =? 32)).
    + specialize (IH v r H Hv). nia.
    + destruct (charToVal c) as [d|] eqn:Ed; [|discriminate]. cbn [bind] in H.
      pose proof (charToVal_range c d Ed) as Hd.
      destruct (Z.geb_spec d B) as [|Hlt]; [discriminate|].
      specialize (IH (v * B + d) r H ltac:(nia)). nia.
Qed.

Lemma parseInBase_loop_failures (B : Z) (cs : jsstring) :
  forall v e, parseInBase_loop cs B v = Err e ->
              e = UnsupportedDigit \/ e = InvalidDigit.
Proof.
  induction cs as [|c cs IH]; intros v e H; cbn [parseInBase_loop] in H;
    [discriminate|].
  destruct ((c =? 95) || (c =? 32)); [apply (IH v e H)|].
  destruct (charToVal c) as [d|e'] eqn:Ed; cbn [bind] in H.
  - destruct (d >=? B); [injection H as <-; auto | apply (IH _ _ H)].
  - injection H as <-. apply charToVal_errors in Ed. auto.
Qed.

Lemma length_trim_start (cs : list Z) : (length (trim_start cs) <= length cs)%nat.
Proof.
  induction cs as [|c cs IH]; cbn [trim_start length]; [lia|].
  destruct (is_space c); cbn [length]; lia.
Qed.

Lemma length_trim (cs : list Z) : (length (trim cs) <= length cs)%nat.
Proof.
  unfold trim. rewrite length_rev.
  pose proof (length_trim_start (rev (trim_start cs))) as H1.
  pose proof (length_trim_start cs) as H2. rewrite length_rev in H1. lia.
Qed.

(** [parseInBase] once [BigInt(base)] has returned. *)
Lemma parseInBase_integer (str : jsstring) (base : number) (B : Z) :
  BigInt_of_number base = Ok B ->
  parseInBase str base
  = if (B <? 2) || (B >? 36) then Err UnsupportedBase
    else parseInBase_loop (trim str) B 0.
Proof. intros H. unfold parseInBase. rewrite H. reflexivity. Qed.

Lemma parseInBase_Ok (str : jsstring) (base : number) (v : Z) :
  parseInBase str base = Ok v ->
  exists B, BigInt_of_number base = Ok B /\ 2 <= B <= 36 /\
            parseInBase_loop (trim str) B 0 = Ok v.
Proof.
  unfold parseInBase. intros H.
  destruct (BigInt_of_number base) as [B|]; [|discriminate]. cbn [bind] in H.
  destruct (Z.ltb_spec B 2) as [|H2]; [discriminate|].
  destruct (Z.gtb_spec B 36) as [|H36]; [discriminate|]. cbn [orb] in H.
  exists B. split; [reflexivity|]. split; [lia | exact H].
Qed.

(** X9.  What [parseInBase] returns is never negative and is below the
    base to the power of the string's length; it returns only for a base
    that is an integer from 2 to 36.  A base that is no integer, NaN and
    the infinities among them, makes [BigInt(base)] throw a [RangeError];
    an integer out of range gives [UnsupportedBase]; the other failures
    are [UnsupportedDigit] and [InvalidDigit]. *)
Theorem parseInBase_range (str : jsstring) (base : number) :
  (forall v, parseInBase str base = Ok v ->
     exists B, BigInt_of_number base = Ok B /\ 2 <= B <= 36 /\
               0 <= v < B ^ Z.of_nat (length str)) /\
  ((forall B, BigInt_of_number base <> Ok B) ->
   parseInBase str base = Err RangeError) /\
  (forall B, BigInt_of_number base = Ok B -> B < 2 \/ 36 < B ->
             parseInBase str base = Err UnsupportedBase) /\
  (forall e, parseInBase str base = Err e ->
             e = RangeError \/ e = UnsupportedBase \/
             e = UnsupportedDigit \/ e = InvalidDigit).
Proof.
  split; [|split; [|split]].
  - intros v H. destruct (parseInBase_Ok str base v H) as (B & EB & HB & Hl).
    exists B. split; [exact EB|]. split; [exact HB|].
    pose proof (parseInBase_loop_bounds B ltac:(lia) _ 0 v Hl ltac:(lia)) as Hb.
    pose proof (length_trim str) as Hlen.
    assert (B ^ Z.of_nat (length (trim str)) <= B ^ Z.of_nat (length str))
      by (apply Z.pow_le_mono_r; lia).
    lia.
  - intros Hno. unfold parseInBase.
    destruct base as [| |q]; try reflexivity. unfold BigInt_of_number in *.
    destruct (Z.rem (Qnum q) (Z.pos (Qden q)) =? 0); [|reflexivity].
    exfalso. apply (Hno _ eq_refl).
  - intros B EB HB. rewrite (parseInBase_integer str base B EB).
    destruct (Z.ltb_spec B 2); [reflexivity|].
    destruct (Z.gtb_spec B 36); [reflexivity | lia].
  - intros e. unfold parseInBase.
    destruct (BigInt_of_number base) as [B|e'] eqn:EB; cbn [bind].
    + destruct ((B <? 2) || (B >? 36)); [intros [= <-]; auto|].
      intros H. apply parseInBase_loop_failures in H. tauto.
    + intros [= <-]. left.
      destruct base as [| |q]; cbn in EB; try congruence.
      destruct (Z.rem (Qnum q) (Z.pos (Qden q)) =? 0); congruence.
Qed.

Lemma parseInBase_range_witness :
  exists B, BigInt_of_number 16 = Ok B /\ 2 <= B <= 36 /\
            0 <= 255 < B ^ Z.of_nat (length (jstr "fF")).
Proof.
  destruct (parseInBase_range "fF" 16) as [H _]. apply (H 255). reflexivity.
Defined.

Lemma trim_start_split (cs : list Z) :
  exists ws, cs = ws ++ trim_start cs /\ forallb is_space ws = true.
Proof.
  induction cs as [|c cs IH]; [exists []; auto|].
  cbn [trim_start]. destruct (is_space c) eqn:Ec.
  - destruct IH as (ws & E & Hws). exists (c :: ws). cbn [app forallb].
    rewrite Ec, Hws. split; [f_equal; exact E | reflexivity].
  - exists []. auto.
Qed.

Lemma trim_start_head (cs : list Z) :
  match trim_start cs with
  | [] => True
  | c :: _ => is_space c = false
  end.
Proof.
  induction cs as [|c cs IH]; [exact I|].
  cbn [trim_start]. destruct (is_space c) eqn:Ec; [exact IH | exact Ec].
Qed.

Lemma trim_start_spaces (ws cs : list Z) :
  forallb is_space ws = true -> trim_start (ws ++ cs)%list = trim_start cs.
Proof.
  induction ws as [|w ws IH]; intros H; [reflexivity|].
  cbn [forallb] in H. apply andb_true_iff in H. destruct H as [Hw H].
  cbn [app trim_start]. rewrite Hw. apply IH, H.
Qed.

Lemma trim_start_nonspace (cs : list Z) :
  forallb (fun c => negb (is_space c)) cs = true -> trim_start cs = cs.
Proof.
  destruct cs as [|c cs]; [reflexivity|]. cbn [forallb trim_start].
  intros H. apply andb_true_iff in H. destruct H as [Hc _].
  apply negb_true_iff in Hc. rewrite Hc. reflexivity.
Qed.

Lemma forallb_rev {A : Type} (f : A -> bool) (l : list A) :
  forallb f (rev l) = forallb f l.
Proof.
  induction l as [|a l IH]; [reflexivity|].
  cbn [rev forallb]. rewrite forallb_app, IH. cbn [forallb].
  rewrite andb_true_r. apply andb_comm.
Qed.

(** A string is its trimmed part between two runs of white space. *)
Lemma trim_split (cs : list Z) :
  exists ws1 ws2,
    cs = ws1 ++ trim cs ++ ws2 /\
    forallb is_space ws1 = true /\ forallb is_space ws2 = true.
Proof.
  destruct (trim_start_split cs) as (ws1 & E1 & H1).
  destruct (trim_start_split (rev (trim_start cs))) as (ws2 & E2 & H2).
  exists ws1, (rev ws2). split; [|split; [exact H1 | rewrite forallb_rev; exact H2]].
  unfold trim. rewrite <- rev_app_distr, <- E2, rev_involutive. exact E1.
Qed.

Lemma trim_nonspace (cs : list Z) :
  forallb (fun c => negb (is_space c)) cs = true -> trim cs = cs.
Proof.
  intros H. unfold trim. rewrite (trim_start_nonspace cs H).
  rewrite trim_start_nonspace by (rewrite forallb_rev; exact H).
  apply rev_involutive.
Qed.

Lemma trim_spaces (ws1 cs ws2 : list Z) :
  forallb is_space ws1 = true -> forallb is_space ws2 = true ->
  trim (ws1 ++ cs ++ ws2)%list = trim cs.
Proof.
  intros H1 H2. unfold trim. rewrite trim_start_spaces by exact H1.
  destruct (trim_start cs) as [|c t] eqn:Et.
  - (* nothing but white space *)
    destruct (trim_start_split cs) as (ws & E & Hws). rewrite Et, app_nil_r in E.
    subst ws. rewrite trim_start_spaces by exact Hws.
    destruct (trim_start_split ws2) as (ws' & E' & _).
    assert (Hall : forallb is_space (trim_start ws2) = true).
    { rewrite E', forallb_app in H2. apply andb_true_iff in H2. apply H2. }
    pose proof (trim_start_head ws2) as Hh.
    destruct (trim_start ws2) as [|c' t']; [reflexivity|].
    cbn [forallb] in Hall. apply andb_true_iff in Hall. destruct Hall as [Hc' _].
    congruence.
  - pose proof (trim_start_head cs) as Hh. rewrite Et in Hh.
    assert (E : trim_start (cs ++ ws2)%list = ((c :: t) ++ ws2)%list).
    { destruct (trim_start_split cs) as (ws & E & Hws). rewrite Et in E.
      rewrite E at 1. rewrite <- app_assoc, trim_start_spaces by exact Hws.
      cbn [app trim_start]. rewrite Hh. reflexivity. }
    rewrite E, rev_app_distr, trim_start_spaces by (rewrite forallb_rev; exact H2).
    reflexivity.
Qed.

Lemma parseInBase_loop_filter (B : Z) (cs : list Z) :
  forall v,
    parseInBase_loop
      (filter (fun c => negb ((c =? 95) || (c =? 32))) cs) B v
    = parseInBase_loop cs B v.
Proof.
  induction cs as [|c cs IH]; intros v; [reflexivity|].
  cbn [filter parseInBase_loop].
  destruct ((c =? 95) || (c =? 32)) eqn:Es; cbn [negb].
  - apply IH.
  - cbn [parseInBase_loop]. rewrite Es.
    destruct (charToVal c) as [d|]; [|reflexivity]. cbn [bind].
    destruct (d >=? B); [reflexivity | apply IH].
Qed.

Lemma filter_spaces (ws : list Z) :
  (forall c, In c ws -> c = 32) ->
  filter (fun c => negb ((c =? 95) || (c =? 32))) ws = [].
Proof.
  induction ws as [|w ws IH]; intros Hc; [reflexivity|].
  cbn [filter]. rewrite (Hc w (or_introl eq_refl)). cbn.
  apply IH. intros c Hin. apply Hc. right. exact Hin.
Qed.

(** X10.  White space around the digits is ignored, and so are the
    underscores and spaces between them: a string reads as the string
    stripped of surrounding white space, and, when its only white space is
    the space character, as the string with every underscore and space
    removed. *)
Theorem parseInBase_separators (str str' : jsstring) (base : number) :
  ((exists ws1 ws2, forallb is_space ws1 = true /\ forallb is_space ws2 = true /\
                    str' = ws1 ++ str ++ ws2) ->
   parseInBase str' base = parseInBase str base) /\
  ((forall c, In c str -> is_space c = true -> c = 32) ->
   str' = filter (fun c => negb ((c =? 95) || (c =? 32))) str ->
   parseInBase str' base = parseInBase str base).
Proof.
  unfold parseInBase. split.
  - intros (ws1 & ws2 & H1 & H2 & ->). rewrite trim_spaces by assumption. reflexivity.
  - intros Hsp ->.
    destruct (BigInt_of_number base) as [B|]; [|reflexivity]. cbn [bind].
    destruct ((B <? 2) || (B >? 36)); [reflexivity|].
    destruct (trim_split str) as (ws1 & ws2 & E & H1 & H2).
    assert (Hf : filter (fun c => negb ((c =? 95) || (c =? 32))) str
                 = filter (fun c => negb ((c =? 95) || (c =? 32))) (trim str)).
    { rewrite E at 1. rewrite !filter_app.
      rewrite (filter_spaces ws1), (filter_spaces ws2), app_nil_r; auto.
      - intros c Hc. apply Hsp.
        + rewrite E. apply in_or_app. right. apply in_or_app. right. exact Hc.
        + rewrite forallb_forall in H2. apply H2, Hc.
      - intros c Hc. apply Hsp.
        + rewrite E. apply in_or_app. left. exact Hc.
        + rewrite forallb_forall in H1. apply H1, Hc. }
    rewrite trim_nonspace.
    + rewrite Hf. apply parseInBase_loop_filter.
    + apply forallb_forall. intros c Hc. apply filter_In in Hc.
      destruct Hc as [Hin Hk]. destruct (is_space c) eqn:Ec; [|reflexivity].
      rewrite (Hsp c Hin Ec) in Hk. discriminate Hk.
Qed.

Lemma parseInBase_separators_witness :
  parseInBase [160; 49; 50; 9] 10 = parseInBase "12" 10 /\
  parseInBase "1000" 10 = parseInBase "1_0 00" 10.
Proof.
  split.
  - destruct (parseInBase_separators "12" [160; 49; 50; 9] 10) as [H _].
    apply H. exists [160], [9]. auto.
  - destruct (parseInBase_separators "1_0 00" "1000" 10) as [_ H].
    apply H.
    + intros c Hc. cbn in Hc.
      destruct Hc as [<-|[<-|[<-|[<-|[<-|[<-|[]]]]]]]; intros Hs;
        (discriminate Hs || reflexivity).
    + reflexivity.
Defined.

Lemma lower_ascii_tests (c : Z) :
  is_space (lower_ascii c) = is_space c /\
  ((lower_ascii c =? 95) || (lower_ascii c =? 32)) = ((c =? 95) || (c =? 32)) /\
  charToVal (lower_ascii c) = charToVal c.
Proof.
  unfold lower_ascii.
  destruct (Z.leb_spec 65 c), (Z.leb_spec c 90); cbn [andb];
    [|repeat split; reflexivity ..].
  unfold is_space. rewrite !charToVal_cases.
  split; [|split]; split_tests; try reflexivity. f_equal. lia.
Qed.

Lemma trim_start_lower (cs : list Z) :
  trim_start (map lower_ascii cs) = map lower_ascii (trim_start cs).
Proof.
  induction cs as [|c cs IH]; [reflexivity|].
  cbn [map trim_start]. rewrite (proj1 (lower_ascii_tests c)).
  destruct (is_space c); [exact IH | reflexivity].
Qed.

Lemma trim_lower (cs : list Z) :
  trim (map lower_ascii cs) = map lower_ascii (trim cs).
Proof.
  unfold trim. rewrite trim_start_lower, <- map_rev, trim_start_lower, map_rev.
  reflexivity.
Qed.

Lemma parseInBase_loop_lower (B : Z) (cs : list Z) :
  forall v, parseInBase_loop (map lower_ascii cs) B v = parseInBase_loop cs B v.
Proof.
  induction cs as [|c cs IH]; intros v; [reflexivity|].
  cbn [map parseInBase_loop].
  destruct (lower_ascii_tests c) as (_ & -> & ->).
  destruct ((c =? 95) || (c =? 32)); [apply IH|].
  destruct (charToVal c) as [d|]; [|reflexivity]. cbn [bind].
  destruct (d >=? B); [reflexivity | apply IH].
Qed.

(** X11.  The case of the letters from A to Z does not matter: a string
    and the string with those letters in their small form parse to the
    same result in every base, errors included. *)
Theorem parseInBase_case_insensitive (str : jsstring) (base : number) :
  parseInBase (map lower_ascii str) base = parseInBase str base.
Proof.
  unfold parseInBase. destruct (BigInt_of_number base) as [B|]; [|reflexivity].
  cbn [bind]. rewrite trim_lower, parseInBase_loop_lower. reflexivity.
Qed.

Lemma is_digit_facts (c : Z) :
  is_digit c = true ->
  is_space c = false /\
  (c =? 95) || (c =? 32) = false /\
  charToVal c = Ok (c - 48) /\ 0 <= c - 48 < 10.
Proof.
  unfold is_digit, is_space. rewrite charToVal_cases. intros Hd.
  apply andb_true_iff in Hd. destruct Hd as [H1 H2].
  apply Z.leb_le in H1. apply Z.leb_le in H2.
  repeat split; try lia; split_tests; reflexivity.
Qed.

Lemma parseInBase_loop_decimal (B : Z) (cs : list Z) :
  10 <= B -> forallb is_digit cs = true ->
  forall v,
    parseInBase_loop cs B v
    = Ok (fold_left (fun v c => v * B + (c - 48)) cs v).
Proof.
  intros HB. induction cs as [|c cs IH]; intros H v; [reflexivity|].
  cbn [forallb] in H. apply andb_true_iff in H. destruct H as [Hc H].
  destruct (is_digit_facts c Hc) as (_ & Hs & Hv & Hd).
  cbn [parseInBase_loop fold_left]. rewrite Hs, Hv. cbn [bind].
  destruct (Z.geb_spec (c - 48) B); [lia|]. apply IH, H.
Qed.

(** X12.  A key made of decimal digits denotes in base 10 the integer
    [BigInt] reads from it: the two readers of the parser, [BigInt(k)] for
    [x] and [parseInBase(value, 10)] for [y], agree on decimal strings. *)
Theorem parseInBase_decimal (str : jsstring) :
  all_digits str = true ->
  parseInBase str 10 = Ok (BigInt_of_digits str).
Proof.
  unfold all_digits, BigInt_of_digits, decimal_value.
  intros H. rewrite (parseInBase_integer str 10 10) by reflexivity.
  cbn [Z.ltb Z.gtb Z.compare orb Pos.compare Pos.compare_cont].
  assert (Hd : forallb is_digit str = true).
  { destruct str; [discriminate | exact H]. }
  rewrite trim_nonspace.
  - apply parseInBase_loop_decimal; [lia | exact Hd].
  - apply forallb_forall. intros c Hc. rewrite forallb_forall in Hd.
    destruct (is_digit_facts c (Hd c Hc)) as (-> & _). reflexivity.
Qed.

Lemma parseInBase_decimal_witness :
  parseInBase "0042" 10 = Ok (BigInt_of_digits "0042").
Proof. apply parseInBase_decimal. reflexivity. Defined.

(** ** The interpolator *)

Lemma lagrangeEval_degenerate (points : list Share.t) (xq : Z) :
  ~ NoDup (map Share.x points) -> lagrangeEval points xq = Err DivisionByZero.
Proof.
  intros H. destruct (den_at_dup points H) as (i & Hi & Hz).
  unfold lagrangeEval. rewrite new_integer. cbn [bind].
  apply term_loop_degenerate; [apply canonical_integer|].
  exists i. split; [apply in_seq; lia | exact Hz].
Qed.

Lemma NoDup_Z_dec (l : list Z) : {NoDup l} + {~ NoDup l}.
Proof.
  induction l as [|a l [IH|IH]].
  - left. constructor.
  - destruct (in_dec Z.eq_dec a l) as [Hin|Hni].
    + right. intros H. inversion H; contradiction.
    + left. constructor; assumption.
  - right. intros H. inversion H; contradiction.
Qed.

(** X13.  Both interpolation functions return exactly on points of
    pairwise distinct [x], whatever the query point, and what they return
    is then in canonical form; on two points of equal [x] both throw the
    division error of [Fraction], and they throw nothing else. *)
Theorem interpolation_defined_on_distinct_x (points : list Share.t) (xq : Z) :
  ((exists r, lagrangeEval points xq = Ok r) <-> NoDup (map Share.x points)) /\
  ((exists r, lagrangeAtZero points = Ok r) <-> NoDup (map Share.x points)) /\
  (forall r, lagrangeEval points xq = Ok r -> Fraction.canonical r) /\
  (forall r, lagrangeAtZero points = Ok r -> Fraction.canonical r) /\
  (forall e, lagrangeEval points xq = Err e \/ lagrangeAtZero points = Err e ->
             e = DivisionByZero /\ ~ NoDup (map Share.x points)).
Proof.
  destruct (NoDup_Z_dec (map Share.x points)) as [Hnd|Hdup].
  - destruct (lagrangeEval_ok points xq Hnd) as (r & E & Hc & _).
    destruct (lagrangeAtZero_ok points Hnd) as (r0 & E0 & Hc0 & _).
    rewrite E, E0.
    split; [split; eauto|]. split; [split; eauto|].
    split; [intros r' [= <-]; exact Hc|].
    split; [intros r' [= <-]; exact Hc0|].
    intros e [H|H]; discriminate H.
  - rewrite (lagrangeEval_degenerate points xq Hdup),
            (lagrangeAtZero_degenerate points Hdup).
    split; [split; [intros [r Hr]; discriminate Hr | contradiction]|].
    split; [split; [intros [r Hr]; discriminate Hr | contradiction]|].
    split; [discriminate|]. split; [discriminate|].
    intros e [H|H]; injection H as <-; auto.
Qed.

(** X14.  On points of pairwise distinct [x] that lie on a polynomial
    with at most as many coefficients as there are points, [lagrangeEval]
    returns the value of that polynomial at the query point: the canonical
    fraction of it for rational coefficients, the integer fraction
    [value / 1] for integer coefficients; [lagrangeAtZero] returns the
    constant term. *)
Theorem interpolation_evaluates_polynomial (points : list Share.t) :
  NoDup (map Share.x points) ->
  (forall (c : list Qc) (xq : Z),
     (length c <= length points)%nat -> through c points ->
     exists r, lagrangeEval points xq = Ok r /\ Fraction.canonical r /\
               Fval r = peval c (zq xq)) /\
  (forall (cs : list Z) (xq : Z),
     (length cs <= length points)%nat ->
     (forall p, In p points -> on_curve cs p) ->
     lagrangeEval points xq = Ok (Fraction.mk (evalZ cs xq) 1) /\
     lagrangeAtZero points = Ok (Fraction.mk (evalZ cs 0) 1)).
Proof.
  intros Hnd. split.
  - intros c xq Hlen Hc.
    destruct (lagrangeEval_ok points xq Hnd) as (r & E & Hcan & V).
    exists r. split; [exact E|]. split; [exact Hcan|].
    rewrite V. apply lagrange_unique; assumption.
  - intros cs xq Hlen Hon. split.
    + destruct (lagrangeEval_ok points xq Hnd) as (r & E & Hcan & V).
      rewrite E. f_equal. apply canonical_inj; [exact Hcan | apply canonical_integer|].
      rewrite V, Fval_integer. apply honest_subset_value; assumption.
    + apply honest_subset_secret; assumption.
Qed.

Lemma interpolation_evaluates_polynomial_witness :
  lagrangeEval [Share.mk 1 4 10 "4" "1"; Share.mk 3 14 10 "14" "3";
                Share.mk 6 59 10 "59" "6"] (-2)
  = Ok (Fraction.mk 19 1).
Proof.
  destruct (interpolation_evaluates_polynomial
              [Share.mk 1 4 10 "4" "1"; Share.mk 3 14 10 "14" "3";
               Share.mk 6 59 10 "59" "6"]) as [_ H].
  - distinct_literals.
  - destruct (H [5; -3; 2] (-2)) as [E _].
    + cbn. lia.
    + intros p [<-|[<-|[<-|[]]]]; reflexivity.
    + exact E.
Defined.

(** ** The combinations generator: edge cases and repetitions *)

Lemma binomial_diag (n : nat) : binomial n n = 1%nat.
Proof.
  induction n as [|n IH]; [reflexivity|].
  cbn [binomial]. rewrite IH, binomial_large by lia. reflexivity.
Qed.

Lemma last_map {A B : Type} (f : A -> B) (l : list A) (d : A) :
  last (map f l) (f d) = f (last l d).
Proof.
  induction l as [|a l IH]; [reflexivity|].
  cbn [map]. destruct l as [|b l]; [reflexivity|]. exact IH.
Qed.

Lemma pick_seq {A : Type} (u : A) (arr : list A) (k : nat) :
  forall s, (s + k <= length arr)%nat ->
    pick u arr (seq s k) = firstn k (skipn s arr).
Proof.
  induction k as [|k IH]; intros s H; [reflexivity|].
  cbn [seq pick map]. fold (pick u arr (seq (S s) k)). rewrite IH by lia.
  clear IH. revert s H. induction arr as [|a arr IHa]; intros s H; [cbn in H; lia|].
  destruct s as [|s].
  - reflexivity.
  - cbn [nth skipn]. apply IHa. cbn in H. lia.
Qed.

Section GeneratorEdges.

Context {A : Type} (undefined : A) (arr : list A).

Lemma combinations_picks (k : nat) (s : list A) :
  In s (combinations undefined arr k) ->
  exists idx, increasing 0 (length arr) idx /\ length idx = k /\
              s = pick undefined arr idx.
Proof.
  intros Hin. destruct (Nat.lt_ge_cases (length arr) k) as [Hk|Hk].
  - rewrite combinations_large in Hin by exact Hk. contradiction.
  - destruct (combinations_index_subsets undefined arr k Hk) as [_ E].
    rewrite E in Hin. apply in_map_iff in Hin. destruct Hin as (idx & <- & Hidx).
    apply index_subsets_sound in Hidx. destruct Hidx as [Hlen Hinc].
    exists idx. auto.
Qed.

(** X15.  Asked for subsets of size 0 the generator yields the empty
    subset once; asked for subsets of the array's own size it yields the
    array once; for every [k] up to that size the first subset yielded is
    the first [k] items and the last one the last [k] items. *)
Theorem combinations_edge_cases :
  combinations undefined arr 0 = [[]] /\
  combinations undefined arr (length arr) = [arr] /\
  (forall k, (k <= length arr)%nat ->
     hd [] (combinations undefined arr k) = firstn k arr /\
     last (combinations undefined arr k) [] = skipn (length arr - k) arr).
Proof.
  assert (Hfirst_last : forall k, (k <= length arr)%nat ->
     exists l, index_subsets (length arr) 0 k = seq 0 k :: l /\
               last (seq 0 k :: l) [] = seq (length arr - k) k).
  { intros k Hk. destruct (index_subsets_path (length arr) 0 k Hk) as (l & E & _ & L).
    exists l. split; [exact E|]. cbn [Nat.add] in L.
    destruct l as [|c l]; [exact L|].
    rewrite <- L. change (last (c :: l) [] = last (c :: l) (seq 0 k)).
    apply last_nonempty. }
  split; [|split].
  - destruct (combinations_index_subsets undefined arr 0 ltac:(lia)) as [_ E].
    rewrite E. destruct (length arr); reflexivity.
  - destruct (combinations_index_subsets undefined arr (length arr) (le_n _)) as [_ E].
    rewrite E. destruct (Hfirst_last (length arr) (le_n _)) as (l & El & _).
    pose proof (length_index_subsets (length arr) 0 (length arr)) as Hl.
    rewrite El, binomial_diag in Hl. destruct l; [|discriminate Hl].
    rewrite El. cbn [map]. rewrite pick_seq by lia.
    cbn [skipn]. rewrite firstn_all. reflexivity.
  - intros k Hk.
    destruct (combinations_index_subsets undefined arr k Hk) as [_ E].
    destruct (Hfirst_last k Hk) as (l & El & L).
    rewrite E, El. split.
    + cbn [map hd]. rewrite pick_seq by lia. reflexivity.
    + rewrite <- El.
      change (@nil A) with (pick undefined arr []) at 1.
      unfold pick at 1 2. rewrite (last_map (fun idx => map _ idx)).
      rewrite El, L. fold (pick undefined arr (seq (length arr - k) k)).
      rewrite pick_seq by lia.
      apply firstn_all2. rewrite length_skipn. lia.
Qed.

Lemma increasing_NoDup (e : nat) (idx : list nat) :
  forall s, increasing s e idx -> NoDup idx.
Proof.
  induction idx as [|a idx IH]; intros s H; [constructor|].
  cbn [increasing] in H. destruct H as [Ha H]. constructor; [|apply (IH _ H)].
  intros Hin. pose proof (increasing_in _ _ _ _ H Hin). lia.
Qed.

Lemma NoDup_map_inj_on {B C : Type} (f : B -> C) (l : list B) :
  (forall a b, In a l -> In b l -> f a = f b -> a = b) ->
  NoDup l -> NoDup (map f l).
Proof.
  intros Hinj Hnd. induction Hnd as [|a l Hni Hnd IH]; cbn [map]; constructor.
  - intros Hin. apply in_map_iff in Hin. destruct Hin as (b & E & Hb).
    apply Hni. rewrite (Hinj a b); auto; [left; reflexivity | right; exact Hb].
  - apply IH. intros x y Hx Hy. apply Hinj; right; assumption.
Qed.

Hypothesis arr_distinct : NoDup arr.

Lemma nth_inj (i j : nat) :
  (i < length arr)%nat -> (j < length arr)%nat ->
  nth i arr undefined = nth j arr undefined -> i = j.
Proof.
  intros Hi Hj E. rewrite NoDup_nth in arr_distinct.
  apply (arr_distinct i j Hi Hj E).
Qed.

Lemma pick_inj (idx1 : list nat) :
  forall idx2 s1 s2,
    increasing s1 (length arr) idx1 -> increasing s2 (length arr) idx2 ->
    pick undefined arr idx1 = pick undefined arr idx2 -> idx1 = idx2.
Proof.
  induction idx1 as [|i idx1 IH]; intros [|j idx2] s1 s2 H1 H2 E;
    try discriminate E; [reflexivity|].
  cbn [increasing] in H1, H2. destruct H1 as [Hi H1], H2 as [Hj H2].
  cbn [pick map] in E. injection E as Eh Et.
  f_equal; [apply nth_inj; (lia || exact Eh) | apply (IH idx2 _ _ H1 H2 Et)].
Qed.

(** X16.  On an array without repeated items, no subset is yielded
    twice, and each subset yielded has [k] items of the array, none
    repeated. *)
Theorem combinations_without_repetition (k : nat) :
  NoDup (combinations undefined arr k) /\
  (forall s, In s (combinations undefined arr k) ->
             length s = k /\ NoDup s /\ incl s arr).
Proof.
  split.
  - destruct (Nat.lt_ge_cases (length arr) k) as [Hk|Hk].
    + rewrite combinations_large by exact Hk. constructor.
    + destruct (combinations_index_subsets undefined arr k Hk) as [_ E].
      rewrite E. apply NoDup_map_inj_on.
      * intros a b Ha Hb. apply index_subsets_sound in Ha, Hb.
        apply (pick_inj a b 0 0); [apply Ha | apply Hb].
      * apply (StronglySorted_NoDup lex_lt); [exact lex_lt_irrefl|].
        apply index_subsets_sorted.
  - intros s Hs. destruct (combinations_picks k s Hs) as (idx & Hinc & Hlen & ->).
    split; [unfold pick; rewrite length_map; exact Hlen|]. split.
    + apply NoDup_map_inj_on; [|apply (increasing_NoDup _ _ _ Hinc)].
      intros a b Ha Hb. pose proof (increasing_in _ _ _ _ Hinc Ha).
      pose proof (increasing_in _ _ _ _ Hinc Hb). apply nth_inj; lia.
    + intros a Ha. apply (pick_in _ _ _ _ _ Hinc Ha).
Qed.

End GeneratorEdges.

Lemma combinations_without_repetition_witness :
  NoDup (combinations 0%nat [10; 20; 30]%nat 2).
Proof.
  apply (combinations_without_repetition 0%nat [10; 20; 30]%nat).
  repeat constructor; cbn; intuition discriminate.
Defined.

(** ** The search: the winner is the first best-supported subset *)

Lemma lies_on_ext (c c' : list Qc) (shares : list Share.t) :
  (forall x, peval c x = peval c' x) ->
  map (lies_on c) shares = map (lies_on c') shares /\
  support c shares = support c' shares.
Proof.
  intros H.
  assert (E : forall p, lies_on c p = lies_on c' p)
    by (intros p; unfold lies_on; rewrite H; reflexivity).
  split; [apply map_ext, E|]. unfold support. rewrite (filter_ext _ _ E). reflexivity.
Qed.

(** X17.  The returned [fitCount] is the largest there is: no polynomial
    of degree below [k] through [k] of the supplied shares of pairwise
    distinct [x] lies on more of the shares. *)
Theorem reconstruct_best_supported (shares : list Share.t) (k : Z) (b : Best) :
  reconstruct shares k = Ok b ->
  forall (c : list Qc) (points : list Share.t),
    (length c <= Z.to_nat k)%nat ->
    subcollection points shares -> length points = Z.to_nat k ->
    NoDup (map Share.x points) -> through c points ->
    support c shares <= fitCount b.
Proof.
  intros H c points Hc Hsub Hlen Hnd Hthrough.
  destruct (reconstruct_unfold shares k) as [[_ E]|[_ (best & _ & _ & Hmax & E)]];
    rewrite E in H; [discriminate|].
  destruct best as [b'|]; [|discriminate]. injection H as ->.
  destruct (Hmax points) as [_ Hle].
  - rewrite <- Hlen. apply combinations_complete, Hsub.
  - exact Hnd.
  - cbn [best_fitCount] in Hle.
    destruct (lies_on_ext (lagrange_poly points) c shares) as [_ Es]; [|lia].
    intros x.
    apply (poly_unique (length points) _ _ (map zq (map Share.x points))).
    + apply length_lagrange_poly.
    + lia.
    + apply NoDup_map_zq, Hnd.
    + rewrite !length_map. lia.
    + intros r Hr. rewrite map_map in Hr. apply in_map_iff in Hr.
      destruct Hr as (p & <- & Hp).
      rewrite (Hthrough p Hp). apply lagrange_poly_through; assumption.
Qed.

Lemma reconstruct_best_supported_witness :
  support (map zq [3; 0; 1])
          [Share.mk 1 4 10 "4" "1"; Share.mk 2 7 10 "7" "2";
           Share.mk 3 14 10 "14" "3"; Share.mk 4 19 10 "19" "4"]
  <= 3.
Proof.
  apply (reconstruct_best_supported
           [Share.mk 1 4 10 "4" "1"; Share.mk 2 7 10 "7" "2";
            Share.mk 3 14 10 "14" "3"; Share.mk 4 19 10 "19" "4"] 3
           (mkBest 3 [Share.mk 1 4 10 "4" "1"; Share.mk 2 7 10 "7" "2";
                      Share.mk 3 14 10 "14" "3"]
                   (Fraction.mk 5 1) [true; true; true; false])
           eq_refl (map zq [3; 0; 1])
           [Share.mk 1 4 10 "4" "1"; Share.mk 2 7 10 "7" "2"; Share.mk 4 19 10 "19" "4"]).
  - cbn. lia.
  - exists [0; 1; 3]%nat. split; [cbn; lia | reflexivity].
  - reflexivity.
  - distinct_literals.
  - apply on_curve_through. intros p [<-|[<-|[<-|[]]]]; reflexivity.
Defined.

Lemma search_first (shares : list Share.t) :
  forall subsets best best',
    search shares subsets best = Ok best' ->
    best' = best \/
    exists pre s post sf,
      subsets = pre ++ s :: post /\
      best' = Some (candidate shares s sf) /\
      NoDup (map Share.x s) /\
      best_fitCount best < support (lagrange_poly s) shares /\
      (forall s', In s' pre -> NoDup (map Share.x s') ->
         support (lagrange_poly s') shares < support (lagrange_poly s) shares).
Proof.
  induction subsets as [|s0 rest IH]; intros best best' H.
  - cbn in H. injection H as <-. left. reflexivity.
  - destruct (has_duplicate_x s0) eqn:Hdup.
    + rewrite search_skip in H by exact Hdup.
      destruct (IH _ _ H) as [->|(pre & s & post & sf & -> & -> & Hnd & Hlt & Hpre)];
        [left; reflexivity|].
      right. exists (s0 :: pre), s, post, sf. repeat split; auto.
      intros s' [<-|Hs'] Hnd'; [|apply Hpre; assumption].
      apply has_duplicate_x_true in Hdup. contradiction.
    + apply has_duplicate_x_false in Hdup.
      destruct (search_cons shares s0 rest best Hdup) as (sf0 & _ & _ & _ & E).
      rewrite E in H. clear E. cbn zeta in H.
      change (fitCount (candidate shares s0 sf0))
        with (support (lagrange_poly s0) shares) in H.
      destruct (Z.gtb_spec (support (lagrange_poly s0) shares) (best_fitCount best))
        as [Hgt|Hle].
      * assert (Hhere : exists pre s post sf,
                  s0 :: rest = pre ++ s :: post /\
                  Some (candidate shares s0 sf0) = Some (candidate shares s sf) /\
                  NoDup (map Share.x s) /\
                  best_fitCount best < support (lagrange_poly s) shares /\
                  (forall s', In s' pre -> NoDup (map Share.x s') ->
                     support (lagrange_poly s') shares
                     < support (lagrange_poly s) shares)).
        { exists [], s0, rest, sf0.
          split; [reflexivity|]. split; [reflexivity|]. split; [exact Hdup|].
          split; [lia | intros s' []]. }
        destruct (support (lagrange_poly s0) shares =? Z.of_nat (length shares)).
        -- injection H as <-. right. exact Hhere.
        -- destruct (IH _ _ H) as [->|(pre & s & post & sf & -> & -> & Hnd & Hlt & Hpre)];
             [right; exact Hhere|].
           cbn [best_fitCount fitCount candidate] in Hlt.
           right. exists (s0 :: pre), s, post, sf. repeat split; auto; [lia|].
           intros s' [<-|Hs'] Hnd'; [exact Hlt | apply Hpre; assumption].
      * destruct (IH _ _ H) as [->|(pre & s & post & sf & -> & -> & Hnd & Hlt & Hpre)];
          [left; reflexivity|].
        right. exists (s0 :: pre), s, post, sf. repeat split; auto.
        intros s' [<-|Hs'] Hnd'; [lia | apply Hpre; assumption].
Qed.

(** X18.  Ties go to the subset met first: in the order of enumeration,
    every subset before the winning one is degenerate or lies on fewer
    shares than the returned [fitCount], and every subset after it is
    degenerate or lies on no more. *)
Theorem reconstruct_first_seen_wins (shares : list Share.t) (k : Z) (b : Best) :
  reconstruct shares k = Ok b ->
  exists pre post,
    combinations Share.dummy shares (Z.to_nat k) = pre ++ subset b :: post /\
    (forall s, In s pre -> NoDup (map Share.x s) ->
               support (lagrange_poly s) shares < fitCount b) /\
    (forall s, In s post -> NoDup (map Share.x s) ->
               support (lagrange_poly s) shares <= fitCount b).
Proof.
  intros H.
  destruct (reconstruct_unfold shares k) as [[_ E]|[_ (best & Es & _ & Hmax & E)]];
    rewrite E in H; [discriminate|].
  destruct best as [b'|]; [|discriminate]. injection H as ->.
  destruct (search_first _ _ _ _ Es) as [Hb|(pre & s & post & sf & Ec & Eb & _ & _ & Hpre)];
    [discriminate|].
  injection Eb as ->. cbn [subset fitCount candidate].
  exists pre, post. split; [exact Ec|]. split; [exact Hpre|].
  intros s' Hs' Hnd'. destruct (Hmax s') as [_ Hle]; [|exact Hnd' | exact Hle].
  rewrite Ec. apply in_or_app. right. right. exact Hs'.
Qed.

Lemma reconstruct_first_seen_wins_witness :
  exists pre post,
    combinations Share.dummy
      [Share.mk 1 4 10 "4" "1"; Share.mk 2 7 10 "7" "2";
       Share.mk 3 14 10 "14" "3"; Share.mk 4 19 10 "19" "4"] (Z.to_nat 3)
    = pre ++ [Share.mk 1 4 10 "4" "1"; Share.mk 2 7 10 "7" "2";
              Share.mk 3 14 10 "14" "3"] :: post.
Proof.
  destruct (reconstruct_first_seen_wins
              [Share.mk 1 4 10 "4" "1"; Share.mk 2 7 10 "7" "2";
               Share.mk 3 14 10 "14" "3"; Share.mk 4 19 10 "19" "4"] 3
              (mkBest 3 [Share.mk 1 4 10 "4" "1"; Share.mk 2 7 10 "7" "2";
                         Share.mk 3 14 10 "14" "3"]
                      (Fraction.mk 5 1) [true; true; true; false]) eq_refl)
    as (pre & post & E & _).
  exists pre, post. exact E.
Defined.

(** ** What a result holds *)

Lemma length_filter_map {A : Type} (f : A -> bool) (l : list A) :
  length (filter (fun x => x) (map f l)) = length (filter f l).
Proof.
  induction l as [|a l IH]; [reflexivity|].
  cbn [map filter]. destruct (f a); cbn [length]; rewrite IH; reflexivity.
Qed.

(** X19.  In a result, the winning subset is [k] of the supplied shares
    in their original order, the secret is what [lagrangeAtZero] returns
    on it, in canonical form, the fit vector has one entry per supplied
    share, and [fitCount] is the number of its true entries, at most the
    number of shares. *)
Theorem reconstruct_result_shape (shares : list Share.t) (k : Z) (b : Best) :
  reconstruct shares k = Ok b ->
  Z.of_nat (length (subset b)) = k /\
  subcollection (subset b) shares /\
  lagrangeAtZero (subset b) = Ok (secretFrac b) /\
  Fraction.canonical (secretFrac b) /\
  length (fits b) = length shares /\
  fitCount b = Z.of_nat (length (filter (fun x => x) (fits b))) /\
  fitCount b <= Z.of_nat (length shares).
Proof.
  intros H. apply reconstruct_Ok in H. destruct H as (Hk & Hin & Hnd & Hsf & Eb).
  apply in_combinations in Hin. destruct Hin as [Hlen Hsub].
  split; [lia|]. split; [exact Hsub|]. split; [exact Hsf|].
  split.
  { destruct (lagrangeAtZero_ok (subset b) Hnd) as (r & E & Hc & _). congruence. }
  rewrite Eb. cbn [fits fitCount candidate].
  split; [apply length_map|]. split.
  - unfold support. rewrite length_filter_map. reflexivity.
  - apply support_bounds.
Qed.

Lemma reconstruct_result_shape_witness :
  subcollection [Share.mk 1 4 10 "4" "1"; Share.mk 2 7 10 "7" "2"]
                [Share.mk 1 4 10 "4" "1"; Share.mk 2 7 10 "7" "2";
                 Share.mk 3 9 10 "9" "3"].
Proof.
  apply (reconstruct_result_shape
           [Share.mk 1 4 10 "4" "1"; Share.mk 2 7 10 "7" "2"; Share.mk 3 9 10 "9" "3"] 2
           (mkBest 2 [Share.mk 1 4 10 "4" "1"; Share.mk 2 7 10 "7" "2"]
                   (Fraction.mk 1 1) [true; true; false])).
  reflexivity.
Defined.

Lemma good_bad_filter (f : Share.t -> bool) :
  forall todo done good bad,
    fold_left (good_bad_step (done ++ todo) (map f (done ++ todo)))
              (seq (length done) (length todo)) (good, bad)
    = (good ++ filter f todo, bad ++ filter (fun p => negb (f p)) todo).
Proof.
  induction todo as [|p todo IH]; intros done good bad.
  - cbn. rewrite !app_nil_r. reflexivity.
  - cbn [length seq fold_left]. unfold good_bad_step at 2.
    rewrite (nth_indep _ false (f Share.dummy))
      by (rewrite length_map, length_app; cbn; lia).
    rewrite map_nth, nth_middle.
    specialize (IH (done ++ [p])). rewrite <- app_assoc in IH. cbn [app] in IH.
    rewrite length_app in IH. cbn [length] in IH. rewrite Nat.add_1_r in IH.
    cbn [filter]. destruct (f p); cbn [negb]; rewrite IH, <- app_assoc; reflexivity.
Qed.

(** X20.  The report splits the shares of a result in two: the good ones
    are the shares on the winning subset's polynomial and the bad ones the
    others, each in the original order; there are [fitCount] good shares,
    the members of the winning subset are among them, and no share is bad
    exactly when [fitCount] is the number of shares. *)
Theorem report_partition (shares : list Share.t) (k : Z) (b : Best) :
  reconstruct shares k = Ok b ->
  let c := lagrange_poly (subset b) in
  let '(good, bad) := good_bad shares (fits b) in
  good = filter (lies_on c) shares /\
  bad = filter (fun p => negb (lies_on c p)) shares /\
  Z.of_nat (length good) = fitCount b /\
  (length good + length bad = length shares)%nat /\
  incl (subset b) good /\
  (bad = [] <-> fitCount b = Z.of_nat (length shares)).
Proof.
  intros H. apply reconstruct_Ok in H. destruct H as (Hk & Hin & Hnd & _ & Eb).
  apply in_combinations in Hin. destruct Hin as [_ Hsub].
  cbn zeta. rewrite Eb. cbn [fits fitCount subset candidate].
  set (c := lagrange_poly (subset b)).
  pose proof (good_bad_filter (lies_on c) shares [] [] []) as G.
  cbn [app length] in G. unfold good_bad. rewrite G.
  pose proof (filter_length (lies_on c) shares) as Hlen.
  split; [reflexivity|]. split; [reflexivity|]. split; [reflexivity|].
  split; [exact Hlen|]. split.
  - intros p Hp. apply filter_In. split; [apply (subcollection_in _ _ _ Hsub Hp)|].
    apply lies_on_true, lagrange_poly_through; assumption.
  - unfold support. split.
    + intros E. rewrite E in Hlen. cbn [length] in Hlen. lia.
    + intros E.
      destruct (filter (fun p => negb (lies_on c p)) shares) as [|? ?] eqn:Ef;
        [reflexivity|].
      cbn [length] in Hlen. lia.
Qed.

Lemma report_partition_witness :
  good_bad [Share.mk 1 4 10 "4" "1"; Share.mk 2 7 10 "7" "2"; Share.mk 3 9 10 "9" "3"]
           [true; true; false]
  = ([Share.mk 1 4 10 "4" "1"; Share.mk 2 7 10 "7" "2"], [Share.mk 3 9 10 "9" "3"]).
Proof.
  pose proof (report_partition
                [Share.mk 1 4 10 "4" "1"; Share.mk 2 7 10 "7" "2"; Share.mk 3 9 10 "9" "3"] 2
                (mkBest 2 [Share.mk 1 4 10 "4" "1"; Share.mk 2 7 10 "7" "2"]
                        (Fraction.mk 1 1) [true; true; false]) eq_refl) as H.
  reflexivity.
Defined.

(** ** Decoding with corrupted shares *)

Lemma on_curveb_true (cs : list Z) (p : Share.t) :
  on_curveb cs p = true <-> on_curve cs p.
Proof. unfold on_curveb, on_curve. apply Z.eqb_eq. Qed.

Lemma forallb_false {A : Type} (f : A -> bool) (l : list A) :
  forallb f l = false -> exists a, In a l /\ f a = false.
Proof.
  induction l as [|a l IH]; [discriminate|].
  cbn [forallb]. destruct (f a) eqn:Ea.
  - intros H. destruct (IH H) as (a' & Hin & Ha'). exists a'. split; [right|]; assumption.
  - intros _. exists a. split; [left; reflexivity | exact Ea].
Qed.

Lemma NoDup_map_filter {A B : Type} (g : A -> B) (f : A -> bool) (l : list A) :
  NoDup (map g l) -> NoDup (map g (filter f l)).
Proof.
  induction l as [|a l IH]; intros H; [constructor|].
  cbn [map] in H. inversion H as [|? ? Hni Hnd]; subst.
  cbn [filter]. destruct (f a); [|apply IH, Hnd].
  cbn [map]. constructor; [|apply IH, Hnd].
  intros Hin. apply Hni. apply in_map_iff in Hin. destruct Hin as (a' & E & Ha').
  apply filter_In in Ha'. rewrite <- E. apply in_map, Ha'.
Qed.

Lemma length_filter_split {A : Type} (f g : A -> bool) (l : list A) :
  length (filter f l)
  = (length (filter f (filter g l))
     + length (filter f (filter (fun a => negb (g a)) l)))%nat.
Proof.
  induction l as [|a l IH]; [reflexivity|].
  cbn [filter]. destruct (g a), (f a) eqn:Ef; cbn [negb filter length];
    rewrite ?Ef; cbn [length]; lia.
Qed.

Lemma reconstruct_max_subset (shares points : list Share.t) (k : Z) (b : Best) :
  reconstruct shares k = Ok b ->
  subcollection points shares -> length points = Z.to_nat k ->
  NoDup (map Share.x points) ->
  support (lagrange_poly points) shares <= fitCount b.
Proof.
  intros H Hsub Hlen Hnd.
  destruct (reconstruct_unfold shares k) as [[_ E]|[_ (best & _ & _ & Hmax & E)]];
    rewrite E in H; [discriminate|].
  destruct best as [b'|]; [|discriminate]. injection H as ->.
  destruct (Hmax points) as [_ Hle]; [|exact Hnd | exact Hle].
  rewrite <- Hlen. apply combinations_complete, Hsub.
Qed.

Section ErrorCorrection.

Variable cs : list Z.
Variable shares : list Share.t.
Variable k : Z.

Hypothesis threshold : 2 <= k.
Hypothesis degree : (length cs <= Z.to_nat k)%nat.
Hypothesis distinct : NoDup (map Share.x shares).

Let honest : list Share.t := filter (on_curveb cs) shares.
Let bad : list Share.t := filter (fun p => negb (on_curveb cs p)) shares.

Hypothesis majority : k + Z.of_nat (length bad) <= Z.of_nat (length honest).

Lemma honest_bad_length : (length honest + length bad = length shares)%nat.
Proof. apply filter_length. Qed.

Lemma honest_distinct (f : Share.t -> bool) :
  NoDup (map Share.x (filter f honest)).
Proof. apply NoDup_map_filter, NoDup_map_filter, distinct. Qed.

Lemma honest_filter_on_curve (f : Share.t -> bool) :
  forall p, In p (filter f honest) -> on_curve cs p.
Proof.
  intros p Hp. apply filter_In in Hp. destruct Hp as [Hp _].
  apply filter_In in Hp. apply on_curveb_true, Hp.
Qed.

(** A subset of [k] honest shares is supported by all honest shares and
    by them only. *)
Lemma honest_subset_support (points : list Share.t) :
  NoDup (map Share.x points) -> length points = Z.to_nat k ->
  (forall p, In p points -> on_curve cs p) ->
  map (lies_on (lagrange_poly points)) shares = map (on_curveb cs) shares /\
  support (lagrange_poly points) shares = Z.of_nat (length honest).
Proof.
  intros Hnd Hlen Hon.
  assert (E : forall p, lies_on (lagrange_poly points) p = on_curveb cs p).
  { intros p. apply (honest_subset_lies_on cs points Hnd); [lia | exact Hon]. }
  split; [apply map_ext, E|].
  unfold support, honest. rewrite (filter_ext _ _ E). reflexivity.
Qed.

(** A subset holding a corrupted share is supported by fewer than [k]
    honest shares, hence by fewer shares than there are honest ones. *)
Lemma tainted_subset_support (points : list Share.t) (p0 : Share.t) :
  NoDup (map Share.x points) -> length points = Z.to_nat k ->
  In p0 points -> on_curveb cs p0 = false ->
  support (lagrange_poly points) shares < Z.of_nat (length honest).
Proof.
  intros Hnd Hlen Hp0 Hoff.
  set (q := lagrange_poly points).
  assert (Hfew : (length (filter (lies_on q) honest) < Z.to_nat k)%nat).
  { destruct (Nat.lt_ge_cases (length (filter (lies_on q) honest)) (Z.to_nat k))
      as [Hlt|Hge]; [exact Hlt|]. exfalso.
    apply (tainted_subset_misses cs points Hnd (filter (lies_on q) honest) p0).
    - apply honest_distinct.
    - lia.
    - lia.
    - apply honest_filter_on_curve.
    - exact Hp0.
    - intros Hon. apply on_curveb_true in Hon. congruence.
    - intros p Hp. apply filter_In in Hp. apply lies_on_true, Hp. }
  unfold support.
  rewrite (length_filter_split (lies_on q) (on_curveb cs) shares). fold honest bad.
  pose proof (filter_length_le (lies_on q) bad). lia.
Qed.

End ErrorCorrection.

(** X21.  Decoding up to half the redundancy.  Let the shares have
    pairwise distinct [x], let [honest] of them lie on a polynomial with at
    most [k] integer coefficients and [bad] of them not, with [k >= 2].  If
    [k + bad <= honest], [reconstruct] returns the constant term of that
    polynomial as the secret, [fitCount] is the number of honest shares,
    the fit vector marks exactly the honest shares, and the winning subset
    holds honest shares only. *)
Theorem reconstruct_corrects_errors (cs : list Z) (shares : list Share.t) (k : Z) :
  2 <= k ->
  (length cs <= Z.to_nat k)%nat ->
  NoDup (map Share.x shares) ->
  k + Z.of_nat (length (filter (fun p => negb (on_curveb cs p)) shares))
    <= Z.of_nat (length (filter (on_curveb cs) shares)) ->
  exists b,
    reconstruct shares k = Ok b /\
    secretFrac b = Fraction.mk (evalZ cs 0) 1 /\
    fitCount b = Z.of_nat (length (filter (on_curveb cs) shares)) /\
    fits b = map (on_curveb cs) shares /\
    (forall p, In p (subset b) -> on_curve cs p).
Proof.
  intros threshold degree distinct majority.
  set (honest := filter (on_curveb cs) shares) in *.
  pose proof (honest_bad_length cs shares) as Hhb. fold honest in Hhb.
  destruct (reconstruct_returns shares k) as (b & E).
  { lia. }
  { apply (pick_NoDup_x shares _ distinct 0). apply increasing_seq. lia. }
  exists b. split; [exact E|].
  destruct (reconstruct_Ok shares k b E) as (Hk & Hin & Hnd & Hsf & Eb).
  apply in_combinations in Hin. destruct Hin as [Hlen Hsub].
  (* an all-honest subset is among the candidates *)
  set (h0 := firstn (Z.to_nat k) honest).
  assert (Hh0 : Z.of_nat (length honest) <= fitCount b).
  { assert (Hl0 : length h0 = Z.to_nat k) by (apply firstn_length_le; lia).
    assert (Hs0 : subcollection h0 shares) by apply subcollection_firstn_filter.
    assert (Hn0 : NoDup (map Share.x h0))
      by (apply (subcollection_NoDup_x _ _ distinct Hs0)).
    destruct (honest_subset_support cs shares k threshold degree h0 Hn0 Hl0)
      as [_ Hs].
    - intros p Hp.
      assert (Hp' : In p honest).
      { rewrite <- (firstn_skipn (Z.to_nat k) honest). apply in_or_app. left. exact Hp. }
      apply filter_In in Hp'. apply on_curveb_true, Hp'.
    - fold honest in Hs. rewrite <- Hs.
      apply (reconstruct_max_subset shares h0 k b E Hs0 Hl0 Hn0). }
  (* so the winner holds no corrupted share *)
  assert (Hall : forall p, In p (subset b) -> on_curve cs p).
  { destruct (forallb (on_curveb cs) (subset b)) eqn:Ef.
    - intros p Hp. rewrite forallb_forall in Ef. apply on_curveb_true, Ef, Hp.
    - exfalso. destruct (forallb_false _ _ Ef) as (p0 & Hp0 & Hoff).
      pose proof (tainted_subset_support cs shares k threshold degree distinct
                    majority (subset b) p0 Hnd Hlen Hp0 Hoff) as Hlt.
      fold honest in Hlt.
      rewrite Eb in Hh0. cbn [fitCount candidate] in Hh0. lia. }
  destruct (honest_subset_support cs shares k threshold degree (subset b) Hnd Hlen Hall)
    as [Hf Hs].
  rewrite (honest_subset_secret cs (subset b) Hnd) in Hsf by (auto; lia).
  injection Hsf as <-.
  split; [reflexivity|]. rewrite Eb. cbn [fitCount fits subset candidate].
  split; [exact Hs|]. split; [exact Hf | exact Hall].
Qed.

Lemma reconstruct_corrects_errors_witness :
  exists b,
    reconstruct [Share.mk 1 9 10 "9" "1"; Share.mk 2 7 10 "7" "2";
                 Share.mk 3 14 10 "14" "3"; Share.mk 4 25 10 "25" "4";
                 Share.mk 5 40 10 "40" "5"] 3 = Ok b /\
    secretFrac b = Fraction.mk 5 1.
Proof.
  destruct (reconstruct_corrects_errors [5; -3; 2]
              [Share.mk 1 9 10 "9" "1"; Share.mk 2 7 10 "7" "2";
               Share.mk 3 14 10 "14" "3"; Share.mk 4 25 10 "25" "4";
               Share.mk 5 40 10 "40" "5"] 3) as (b & E & Hs & _).
  - lia.
  - cbn. lia.
  - distinct_literals.
  - cbn. lia.
  - exists b. split; [exact E | exact Hs].
Defined.

(** ** All shares needed: nothing can be detected *)

Lemma combinations_full {A : Type} (u : A) (arr : list A) :
  combinations u arr (length arr) = [arr].
Proof.
  destruct (combinations_index_subsets u arr (length arr) (le_n _)) as [_ E].
  destruct (index_subsets_path (length arr) 0 (length arr) (le_n _)) as (l & El & _).
  pose proof (length_index_subsets (length arr) 0 (length arr)) as Hl.
  rewrite El, binomial_diag in Hl. destruct l; [|discriminate Hl].
  rewrite E, El. cbn [map]. rewrite pick_seq by lia.
  cbn [skipn]. rewrite firstn_all. reflexivity.
Qed.

(** X22.  With the threshold equal to the number of shares, of pairwise
    distinct [x], there is one candidate and it fits every share: the
    result is the value [lagrangeAtZero] gives on all the shares, with a
    perfect [fitCount], whatever the [y] values are. *)
Theorem reconstruct_all_shares_needed (shares : list Share.t) :
  NoDup (map Share.x shares) -> (2 <= length shares)%nat ->
  exists secretFrac,
    lagrangeAtZero shares = Ok secretFrac /\
    reconstruct shares (Z.of_nat (length shares))
    = Ok (mkBest (Z.of_nat (length shares)) shares secretFrac
                 (repeat true (length shares))).
Proof.
  intros Hnd Hn. unfold reconstruct.
  destruct (Z.ltb_spec (Z.of_nat (length shares)) 2) as [|_]; [lia|].
  destruct (Z.gtb_spec (Z.of_nat (length shares)) (Z.of_nat (length shares)))
    as [|_]; [lia|].
  rewrite Nat2Z.id, combinations_full.
  destruct (search_cons shares shares [] None Hnd) as (sf & Esf & _ & _ & E).
  exists sf. split; [exact Esf|]. rewrite E. clear E. cbn zeta.
  destruct (support_all (lagrange_poly shares) shares) as [Hs Hf].
  { intros p Hp. apply lies_on_true, lagrange_poly_through; assumption. }
  unfold candidate. cbn [fitCount best_fitCount]. rewrite Hs, Hf.
  destruct (Z.gtb_spec (Z.of_nat (length shares)) (-1)) as [_|]; [|lia].
  rewrite Z.eqb_refl. reflexivity.
Qed.

Lemma reconstruct_all_shares_needed_witness :
  exists secretFrac,
    reconstruct [Share.mk 1 4 10 "4" "1"; Share.mk 2 0 10 "0" "2";
                 Share.mk 3 99 10 "99" "3"] 3
    = Ok (mkBest 3 [Share.mk 1 4 10 "4" "1"; Share.mk 2 0 10 "0" "2";
                    Share.mk 3 99 10 "99" "3"] secretFrac [true; true; true]).
Proof.
  destruct (reconstruct_all_shares_needed
              [Share.mk 1 4 10 "4" "1"; Share.mk 2 0 10 "0" "2";
               Share.mk 3 99 10 "99" "3"]) as (sf & _ & E).
  - distinct_literals.
  - cbn. lia.
  - exists sf. exact E.
Defined.

(** ** The input parser: what it returns *)

Lemma all_digits_keys (k : jsstring) : string_eqb k "keys" = true -> all_digits k = false.
Proof. intros H. apply string_eqb_eq in H. subst k. reflexivity. Qed.

Lemma BigInt_of_int (z : Z) : BigInt_of_number (of_int z) = Ok z.
Proof.
  unfold BigInt_of_number, of_int, inject_Z. cbn [Qnum Qden].
  rewrite Z.rem_1_r, Z.quot_1_r. reflexivity.
Qed.

(** [parseInt] returns NaN, an infinity or an integer. *)
Lemma parseInt10_cases (s : jsstring) :
  parseInt10 s = NaN \/ (exists negative, parseInt10 s = Infinity negative) \/
  exists z, parseInt10 s = of_int z.
Proof.
  unfold parseInt10.
  destruct (match trim_start s with
            | [] => (1, trim_start s)
            | c :: rest =>
                if c =? 45 then (-1, rest)
                else if c =? 43 then (1, rest) else (1, trim_start s)
            end) as [sign cs'].
  destruct (take_digits cs') as [|d ds]; [left; reflexivity|]. right.
  unfold round_to_double.
  destruct (_ <? _); [right; eauto|].
  destruct (_ >=? _); [left | right]; eauto.
Qed.

Lemma parseInBase_ok_range (str : jsstring) (base : number) (v : Z) :
  parseInBase str base = Ok v ->
  (exists B, BigInt_of_number base = Ok B /\ 2 <= B <= 36) /\ 0 <= v.
Proof.
  intros H. destruct (parseInBase_Ok str base v H) as (B & EB & HB & Hl).
  split; [eauto|].
  pose proof (parseInBase_loop_bounds B ltac:(lia) _ 0 v Hl ltac:(lia)). lia.
Qed.

(** What one turn of the loop over the keys does when it does not throw. *)
Lemma parse_entry_spec (data : list (jsstring * json)) (k : jsstring)
    (shares shares' : list Share.t) :
  parse_entry data k shares = Ok shares' ->
  (all_digits k = false /\ shares' = shares) \/
  (all_digits k = true /\
   exists b s,
     shares' = shares ++ [s] /\
     Share.label s = k /\ Share.x s = BigInt_of_digits k /\
     prop (lookup k data) "base" = Some (JStr b) /\
     prop (lookup k data) "value" = Some (JStr (Share.raw s)) /\
     Share.base s = parseInt10 b /\
     parseInBase (Share.raw s) (Share.base s) = Ok (Share.y s)).
Proof.
  unfold parse_entry. intros H.
  destruct (string_eqb k "keys") eqn:Ek.
  { left. split; [apply all_digits_keys, Ek | congruence]. }
  destruct (all_digits k) eqn:Hd; cbn [negb] in H; [|left; split; congruence].
  destruct (truthy (lookup k data)); [|discriminate].
  destruct (prop (lookup k data) "base") as [[| | |b| |]|]; try discriminate.
  destruct (prop (lookup k data) "value") as [[| | |v| |]|]; try discriminate.
  destruct (parseInBase v (parseInt10 b)) as [y|] eqn:Ey; [|discriminate].
  cbn [bind] in H. injection H as <-. right. split; [reflexivity|].
  exists b, (Share.mk (BigInt_of_digits k) y (parseInt10 b) v k). cbn. auto 10.
Qed.

Lemma parse_entries_labels (data : list (jsstring * json)) :
  forall keys shares shares',
    parse_entries data keys shares = Ok shares' ->
    exists added,
      shares' = shares ++ added /\
      map Share.label added = filter all_digits keys /\
      (forall s, In s added ->
         Share.x s = BigInt_of_digits (Share.label s) /\
         prop (lookup (Share.label s) data) "value" = Some (JStr (Share.raw s)) /\
         (exists b, prop (lookup (Share.label s) data) "base" = Some (JStr b) /\
                    Share.base s = parseInt10 b) /\
         parseInBase (Share.raw s) (Share.base s) = Ok (Share.y s)).
Proof.
  induction keys as [|k keys IH]; intros shares shares' H; cbn [parse_entries] in H.
  - injection H as <-. exists []. rewrite app_nil_r.
    split; [reflexivity|]. split; [reflexivity | intros s []].
  - destruct (parse_entry data k shares) as [shares1|] eqn:E1; [|discriminate].
    cbn [bind] in H. destruct (IH _ _ H) as (added & -> & Hl & Hin).
    cbn [filter].
    destruct (parse_entry_spec _ _ _ _ E1)
      as [[Hd ->]|(Hd & b & s & -> & Els & Ex & Eb & Ev & Ei & Ey)]; rewrite Hd.
    + exists added. auto.
    + exists (s :: added). rewrite <- app_assoc. split; [reflexivity|].
      split; [cbn [map]; rewrite Hl, Els; reflexivity|].
      intros s' [<-|Hs']; [|apply Hin, Hs'].
      rewrite Els. split; [exact Ex|]. split; [exact Ev|]. split; [eauto | exact Ey].
Qed.

Lemma insert_by_x_filter (v : Z) (s : Share.t) (l : list Share.t) :
  filter (fun p => Share.x p =? v) (insert_by_x s l)
  = filter (fun p => Share.x p =? v) (s :: l).
Proof.
  induction l as [|h t IH]; [reflexivity|].
  cbn [insert_by_x]. destruct (Z.ltb_spec (Share.x h) (Share.x s)) as [Hlt|Hge];
    [|reflexivity].
  cbn [filter] in *. rewrite IH.
  destruct (Z.eqb_spec (Share.x s) v), (Z.eqb_spec (Share.x h) v); try reflexivity.
  lia.
Qed.

Lemma sort_by_x_filter (v : Z) (l : list Share.t) :
  filter (fun p => Share.x p =? v) (sort_by_x l) = filter (fun p => Share.x p =? v) l.
Proof.
  induction l as [|s l IH]; [reflexivity|].
  cbn [sort_by_x fold_right]. fold (sort_by_x l).
  rewrite insert_by_x_filter. cbn [filter]. rewrite IH. reflexivity.
Qed.

Lemma insert_by_x_sorted (s : Share.t) (l : list Share.t) :
  StronglySorted (fun a b => Share.x a <= Share.x b) l ->
  StronglySorted (fun a b => Share.x a <= Share.x b) (insert_by_x s l).
Proof.
  induction 1 as [|h t Hs IH Hh]; cbn [insert_by_x].
  - repeat constructor.
  - destruct (Z.ltb_spec (Share.x h) (Share.x s)) as [Hlt|Hge].
    + constructor; [exact IH|].
      apply Forall_forall. intros p Hp.
      apply (Permutation_in _ (insert_by_x_perm s t)) in Hp.
      destruct Hp as [<-|Hp]; [lia|]. rewrite Forall_forall in Hh. apply Hh, Hp.
    + constructor; [constructor; assumption|].
      constructor; [exact Hge|].
      apply Forall_forall. intros p Hp. rewrite Forall_forall in Hh.
      specialize (Hh p Hp). lia.
Qed.

Lemma sort_by_x_sorted (l : list Share.t) :
  StronglySorted (fun a b => Share.x a <= Share.x b) (sort_by_x l).
Proof.
  induction l as [|s l IH]; [constructor|].
  cbn [sort_by_x fold_right]. apply insert_by_x_sorted, IH.
Qed.

Lemma filter_map_comm {A B : Type} (g : A -> B) (f : B -> bool) (l : list A) :
  filter f (map g l) = map g (filter (fun a => f (g a)) l).
Proof.
  induction l as [|a l IH]; [reflexivity|].
  cbn [map filter]. destruct (f (g a)); cbn [map]; rewrite IH; reflexivity.
Qed.

(** X23.  When [parseInput] returns, [n] and [k] are the numbers under
    [keys], and there is one share per key made of decimal digits: its
    label is the key, its [x] the integer the key denotes, its raw text
    that of the key's entry, its base what [parseInt] reads from the
    entry's base, an integer from 2 to 36, and its [y] the value of the
    raw text in that base, a non-negative integer. *)
Theorem parseInput_shares_of_keys (data : list (jsstring * json)) (n k : number)
    (shares : list Share.t) :
  parseInput data = Ok (n, k, shares) ->
  prop (lookup "keys" data) "n" = Some (JNum n) /\
  prop (lookup "keys" data) "k" = Some (JNum k) /\
  Permutation (map Share.label shares) (filter all_digits (map fst data)) /\
  (forall s, In s shares ->
     Share.x s = BigInt_of_digits (Share.label s) /\
     prop (lookup (Share.label s) data) "value" = Some (JStr (Share.raw s)) /\
     (exists b, prop (lookup (Share.label s) data) "base" = Some (JStr b) /\
                Share.base s = parseInt10 b) /\
     parseInBase (Share.raw s) (Share.base s) = Ok (Share.y s) /\
     (exists B, Share.base s = of_int B /\ 2 <= B <= 36) /\ 0 <= Share.y s).
Proof.
  intros H.
  destruct (parseInput_unfold _ _ _ _ H) as (Hn & Hk & parsed & E & ->).
  destruct (parse_entries_labels _ _ _ _ E) as (added & -> & Hl & Hin).
  cbn [app]. split; [exact Hn|]. split; [exact Hk|]. split.
  - rewrite <- Hl. apply Permutation_map, sort_by_x_perm.
  - intros s Hs. apply (Permutation_in _ (sort_by_x_perm added)) in Hs.
    destruct (Hin s Hs) as (Hx & Hv & (b & Hb & Eb) & Hy).
    split; [exact Hx|]. split; [exact Hv|]. split; [eauto|]. split; [exact Hy|].
    destruct (parseInBase_ok_range _ _ _ Hy) as [(B & EB & HB) Hpos].
    split; [|exact Hpos]. exists B. split; [|exact HB].
    rewrite Eb in *.
    destruct (parseInt10_cases b) as [E0|[(neg & E0)|(z & E0)]]; rewrite E0 in EB;
      try discriminate EB.
    rewrite BigInt_of_int in EB. congruence.
Qed.

Lemma parseInput_shares_of_keys_witness :
  Permutation [jstr "1"; jstr "2"]
    (filter all_digits
       (map fst [(jstr "1", JObj [(jstr "base", JStr [160; 50]);
                                  (jstr "value", JStr "101")]);
                 (jstr "2", JObj [(jstr "base", JStr "16");
                                  (jstr "value", JStr "ff")]);
                 (jstr "note", JStr "x");
                 (jstr "keys", JObj [(jstr "n", JNum 2); (jstr "k", JNum 2)])])).
Proof.
  apply (parseInput_shares_of_keys
           [(jstr "1", JObj [(jstr "base", JStr [160; 50]);
                             (jstr "value", JStr "101")]);
            (jstr "2", JObj [(jstr "base", JStr "16"); (jstr "value", JStr "ff")]);
            (jstr "note", JStr "x");
            (jstr "keys", JObj [(jstr "n", JNum 2); (jstr "k", JNum 2)])] 2 2
           [Share.mk 1 5 2 "101" "1"; Share.mk 2 255 16 "ff" "2"]).
  reflexivity.
Defined.

(** X24.  The shares [parseInput] returns are in non-decreasing order of
    [x], and the sort is stable: the shares of any one [x] keep the order
    their keys have in the parsed object. *)
Theorem parseInput_sorted_stable (data : list (jsstring * json)) (n k : number)
    (shares : list Share.t) :
  parseInput data = Ok (n, k, shares) ->
  StronglySorted (fun a b => Share.x a <= Share.x b) shares /\
  (forall v,
     map Share.label (filter (fun s => Share.x s =? v) shares)
     = filter (fun key => all_digits key && (BigInt_of_digits key =? v))
              (map fst data)).
Proof.
  intros H.
  destruct (parseInput_unfold _ _ _ _ H) as (_ & _ & parsed & E & ->).
  destruct (parse_entries_labels _ _ _ _ E) as (added & -> & Hl & Hin).
  cbn [app]. split; [apply sort_by_x_sorted|].
  intros v. rewrite sort_by_x_filter.
  transitivity (filter (fun key => BigInt_of_digits key =? v)
                       (filter all_digits (map fst data))).
  - rewrite <- Hl, filter_map_comm. f_equal. apply filter_ext_in.
    intros s Hs. destruct (Hin s Hs) as (-> & _). reflexivity.
  - generalize (map fst data) as keys. induction keys as [|key keys IH]; [reflexivity|].
    cbn [filter]. destruct (all_digits key); cbn [filter andb];
      [destruct (BigInt_of_digits key =? v)|]; rewrite IH; reflexivity.
Qed.

Lemma parseInput_sorted_stable_witness :
  StronglySorted (fun a b => Share.x a <= Share.x b)
                 [Share.mk 1 7 10 "7" "1"; Share.mk 1 5 2 "101" "01";
                  Share.mk 2 255 16 "ff" "2"].
Proof.
  apply (parseInput_sorted_stable
           [(jstr "1", JObj [(jstr "base", JStr "10"); (jstr "value", JStr "7")]);
            (jstr "2", JObj [(jstr "base", JStr "16"); (jstr "value", JStr "ff")]);
            (jstr "keys", JObj [(jstr "n", JNum 3); (jstr "k", JNum 2)]);
            (jstr "01", JObj [(jstr "base", JStr "2"); (jstr "value", JStr "101")])]
           3 2).
  reflexivity.
Defined.

(** ** The input parser: failures and ignored keys *)







Lemma lookup_insert_other (key k : jsstring) (v : json)
    (pre post : list (jsstring * json)) :
  k <> key ->
  lookup k (pre ++ (key, v) :: post) = lookup k (pre ++ post).
Proof.
  intros Hne. induction pre as [|[k0 v0] pre IH]; cbn [app lookup].
  - destruct (string_eqb_spec key k); [congruence | reflexivity].
  - destruct (string_eqb k0 k); [reflexivity | exact IH].
Qed.

Lemma parse_entry_ext (data data' : list (jsstring * json)) (k : jsstring)
    (shares : list Share.t) :
  (all_digits k = true -> lookup k data' = lookup k data) ->
  parse_entry data' k shares = parse_entry data k shares.
Proof.
  intros H. unfold parse_entry.
  destruct (string_eqb k "keys"); [reflexivity|].
  destruct (all_digits k); [|reflexivity]. cbn [negb]. rewrite H by reflexivity.
  reflexivity.
Qed.

Lemma parse_entries_ext (data data' : list (jsstring * json)) :
  forall keys shares,
    (forall k, In k keys -> all_digits k = true -> lookup k data' = lookup k data) ->
    parse_entries data' keys shares = parse_entries data keys shares.
Proof.
  induction keys as [|k keys IH]; intros shares H; [reflexivity|].
  cbn [parse_entries]. rewrite (parse_entry_ext data data') by (apply H; left; reflexivity).
  destruct (parse_entry data k shares); [|reflexivity]. cbn [bind].
  apply IH. intros k' Hk'. apply H. right. exact Hk'.
Qed.

Lemma parse_entries_skip (data : list (jsstring * json)) (key : jsstring) :
  all_digits key = false ->
  forall keys1 keys2 shares,
    parse_entries data (keys1 ++ key :: keys2) shares
    = parse_entries data (keys1 ++ keys2) shares.
Proof.
  intros Hd. induction keys1 as [|k keys1 IH]; intros keys2 shares; cbn [app parse_entries].
  - unfold parse_entry at 1. rewrite Hd. cbn [negb].
    destruct (string_eqb key "keys"); reflexivity.
  - destruct (parse_entry data k shares); [|reflexivity]. cbn [bind]. apply IH.
Qed.

(** X26.  Top-level keys that are not made of decimal digits are
    ignored: adding or removing such a property, other than [keys],
    anywhere in the parsed object, whatever its value, does not change what
    [parseInput] returns. *)
Theorem parseInput_ignores_other_keys (pre post : list (jsstring * json))
    (key : jsstring) (v : json) :
  all_digits key = false -> key <> "keys"%string ->
  parseInput (pre ++ (key, v) :: post) = parseInput (pre ++ post).
Proof.
  intros Hd Hk. unfold parseInput.
  rewrite (lookup_insert_other key "keys" v pre post) by congruence.
  destruct (truthy (lookup "keys" (pre ++ post))); [|reflexivity].
  destruct (prop (lookup "keys" (pre ++ post)) "n") as [[| |n| | |]|]; try reflexivity.
  destruct (prop (lookup "keys" (pre ++ post)) "k") as [[| |k| | |]|]; try reflexivity.
  rewrite !map_app. cbn [map fst].
  rewrite (parse_entries_skip _ key Hd).
  rewrite (parse_entries_ext (pre ++ post) (pre ++ (key, v) :: post)); [reflexivity|].
  intros k' _ Hk'. apply lookup_insert_other. congruence.
Qed.

Lemma parseInput_ignores_other_keys_witness :
  parseInput [(jstr "1", JObj [(jstr "base", JStr "10"); (jstr "value", JStr "4")]);
              (jstr "comment", JStr "first batch");
              (jstr "keys", JObj [(jstr "n", JNum 1); (jstr "k", JNum 1)])]
  = parseInput [(jstr "1", JObj [(jstr "base", JStr "10"); (jstr "value", JStr "4")]);
                (jstr "keys", JObj [(jstr "n", JNum 1); (jstr "k", JNum 1)])].
Proof.
  apply (parseInput_ignores_other_keys
           [(jstr "1", JObj [(jstr "base", JStr "10"); (jstr "value", JStr "4")])]
           [(jstr "keys", JObj [(jstr "n", JNum 1); (jstr "k", JNum 1)])]
           (jstr "comment") (JStr "first batch")).
  - reflexivity.
  - discriminate.
Defined.

(** ** The fields of a share that reconstruction reads *)

Lemma same_points_length (l l' : list Share.t) :
  same_points l l' -> length l = length l'.
Proof. intros [H _]. rewrite <- (length_map Share.x l), H. apply length_map. Qed.

Lemma same_points_nth (l l' : list Share.t) (j : nat) :
  same_points l l' ->
  Share.x (nth j l Share.dummy) = Share.x (nth j l' Share.dummy) /\
  Share.y (nth j l Share.dummy) = Share.y (nth j l' Share.dummy).
Proof.
  intros [Hx Hy]. rewrite <- !(map_nth Share.x), <- !(map_nth Share.y), Hx, Hy.
  split; reflexivity.
Qed.

Lemma same_points_pick (l l' : list Share.t) (idx : list nat) :
  same_points l l' ->
  same_points (pick Share.dummy l idx) (pick Share.dummy l' idx).
Proof.
  intros H. unfold same_points, pick. rewrite !map_map.
  split; apply map_ext; intros j; apply (same_points_nth l l' j H).
Qed.

Lemma for_each_ext {St : Type} (body body' : nat -> St -> result St) :
  (forall i s, body i s = body' i s) ->
  forall idxs s, for_each idxs body s = for_each idxs body' s.
Proof.
  intros H. induction idxs as [|i idxs IH]; intros s; [reflexivity|].
  cbn [for_each]. rewrite H. destruct (body' i s); [apply IH | reflexivity].
Qed.

Lemma term_step_same (l l' : list Share.t) (factor : Z -> Z) (i : nat)
    (acc : Fraction.t) :
  same_points l l' -> term_step l factor i acc = term_step l' factor i acc.
Proof.
  intros H. unfold term_step.
  rewrite (same_points_length l l' H).
  destruct (same_points_nth l l' i H) as [-> ->]. cbn zeta.
  destruct (Fraction.new 1 1) as [one|]; [|reflexivity]. cbn [bind].
  rewrite (for_each_ext (basis_step l i (Share.x (nth i l' Share.dummy)) factor)
                        (basis_step l' i (Share.x (nth i l' Share.dummy)) factor));
    [reflexivity|].
  intros j [num den]. unfold basis_step.
  destruct (same_points_nth l l' j H) as [-> _]. reflexivity.
Qed.

Lemma lagrangeEval_same (l l' : list Share.t) (xq : Z) :
  same_points l l' -> lagrangeEval l xq = lagrangeEval l' xq.
Proof.
  intros H. unfold lagrangeEval. rewrite (same_points_length l l' H).
  destruct (Fraction.new 0 1); [|reflexivity]. cbn [bind].
  apply for_each_ext. intros i acc. apply term_step_same, H.
Qed.

Lemma verify_same (shares shares' subset subset' : list Share.t) :
  same_points shares shares' -> same_points subset subset' ->
  verify shares subset = verify shares' subset'.
Proof.
  intros Hs Hsub. unfold verify. rewrite (same_points_length _ _ Hs).
  apply for_each_ext. intros i [fits count]. unfold verify_step.
  destruct (same_points_nth shares shares' i Hs) as [-> ->].
  rewrite (lagrangeEval_same subset subset' _ Hsub). reflexivity.
Qed.

Lemma search_same (shares shares' : list Share.t) :
  same_points shares shares' ->
  forall subsets subsets',
    Forall2 same_points subsets subsets' ->
    forall best best',
      same_outcome (match best with Some b => Ok b | None => Err ReconstructionFailed end)
                   (match best' with Some b => Ok b | None => Err ReconstructionFailed end) ->
      match search shares subsets best, search shares' subsets' best' with
      | Ok r, Ok r' =>
          same_outcome (match r with Some b => Ok b | None => Err ReconstructionFailed end)
                       (match r' with Some b => Ok b | None => Err ReconstructionFailed end)
      | Err e, Err e' => e = e'
      | _, _ => False
      end.
Proof.
  intros Hs. induction 1 as [|s s' subsets subsets' Hss _ IH]; intros best best' Hb.
  - exact Hb.
  - cbn [search].
    assert (Hd : has_duplicate_x s = has_duplicate_x s').
    { unfold has_duplicate_x. destruct Hss as [-> _]. reflexivity. }
    rewrite <- Hd. destruct (has_duplicate_x s); [apply IH, Hb|].
    change (lagrangeAtZero s) with (lagrangeEval s 0).
    change (lagrangeAtZero s') with (lagrangeEval s' 0).
    rewrite <- (lagrangeEval_same s s' 0 Hss).
    destruct (lagrangeEval s 0) as [sf|]; [|apply IH, Hb].
    rewrite <- (verify_same shares shares' s s' Hs Hss).
    destruct (verify shares s) as [[fits count]|e]; cbn [bind]; [|reflexivity].
    assert (Hfc : best_fitCount best = best_fitCount best').
    { destruct best as [b|], best' as [b'|]; cbn in Hb |- *;
        [apply Hb | contradiction | contradiction | reflexivity]. }
    rewrite <- Hfc, <- (same_points_length _ _ Hs).
    destruct (count >? best_fitCount best); [|apply IH, Hb].
    assert (Hnew : same_outcome (Ok (mkBest count s sf fits)) (Ok (mkBest count s' sf fits)))
      by (cbn; auto).
    destruct (count =? Z.of_nat (length shares)); [exact Hnew | apply IH, Hnew].
Qed.

(** X27.  Reconstruction reads nothing of a share but [x] and [y]: two
    arrays of shares with the same points give the same error, or results
    with the same [fitCount], secret and fit vector, and winning subsets
    with the same points. *)
Theorem reconstruct_reads_points_only (shares shares' : list Share.t) (k : Z) :
  same_points shares shares' ->
  same_outcome (reconstruct shares k) (reconstruct shares' k).
Proof.
  intros Hs. unfold reconstruct. rewrite <- (same_points_length _ _ Hs).
  destruct (k <? 2); [reflexivity|].
  destruct (Z.gtb_spec k (Z.of_nat (length shares))) as [|Hk]; [reflexivity|].
  pose proof (same_points_length _ _ Hs) as Hlen.
  destruct (combinations_index_subsets Share.dummy shares (Z.to_nat k) ltac:(lia))
    as [_ ->].
  destruct (combinations_index_subsets Share.dummy shares' (Z.to_nat k) ltac:(lia))
    as [_ ->].
  rewrite <- Hlen.
  assert (Hsubs : forall ixs,
            Forall2 same_points (map (pick Share.dummy shares) ixs)
                                (map (pick Share.dummy shares') ixs)).
  { induction ixs as [|idx ixs IH]; cbn [map]; constructor;
      [apply same_points_pick, Hs | exact IH]. }
  pose proof (search_same shares shares' Hs _ _
                (Hsubs (index_subsets (length shares) 0 (Z.to_nat k)))
                None None eq_refl) as H.
  destruct (search shares _ None) as [r|e], (search shares' _ None) as [r'|e'];
    cbn [bind]; try contradiction; [|subst e'; reflexivity].
  destruct r, r'; exact H.
Qed.

Lemma reconstruct_reads_points_only_witness :
  same_outcome
    (reconstruct [Share.mk 1 4 10 "4" "1"; Share.mk 2 7 10 "7" "2";
                  Share.mk 3 14 10 "14" "3"] 2)
    (reconstruct [Share.mk 1 4 2 "100" "01"; Share.mk 2 7 16 "7" "002";
                  Share.mk 3 14 16 "e" "3"] 2).
Proof.
  apply reconstruct_reads_points_only. split; reflexivity.
Defined.

(** ** A threshold that is no integer *)




(** ** The base of an entry *)

Lemma round_to_double_exact (z : Z) :
  Z.abs z < 2 ^ 53 -> round_to_double z = of_int z.
Proof.
  intros H. unfold round_to_double. cbn zeta.
  destruct (Z.ltb_spec (Z.abs z) (2 ^ 53)); [reflexivity | lia].
Qed.

Lemma round_to_double_overflow (z : Z) :
  2 ^ 1024 <= z -> round_to_double z = Infinity false.
Proof.
  intros H. unfold round_to_double. cbn zeta.
  assert (Hz : 0 < z) by (pose proof (Z.pow_pos_nonneg 2 1024); lia).
  rewrite Z.abs_eq by lia.
  assert (H53 : 2 ^ 53 <= 2 ^ 1024) by (apply Z.pow_le_mono_r; lia).
  destruct (Z.ltb_spec z (2 ^ 53)); [lia|].
  assert (Hlog : 1024 <= Z.log2 z).
  { rewrite <- (Z.log2_pow2 1024) by lia. apply Z.log2_le_mono, H. }
  set (e := Z.log2 z - 52).
  assert (He : 0 <= e) by (unfold e; lia).
  rewrite Z.shiftr_div_pow2 by exact He.
  set (q := z / 2 ^ e).
  match goal with
  | |- context [if ?c then q + 1 else q] => set (q' := if c then q + 1 else q)
  end.
  assert (Hq' : q <= q') by (unfold q'; destruct (_ || _); lia).
  assert (Hp : 0 < 2 ^ e) by (apply Z.pow_pos_nonneg; lia).
  assert (Hq : 2 ^ 52 <= q).
  { unfold q. apply Z.div_le_lower_bound; [exact Hp|].
    rewrite Z.mul_comm, <- Z.pow_add_r by lia.
    replace (52 + e) with (Z.log2 z) by (unfold e; lia).
    apply Z.log2_spec, Hz. }
  rewrite Z.shiftl_mul_pow2 by exact He.
  assert (Hm : 2 ^ 1024 <= q' * 2 ^ e).
  { apply Z.le_trans with (2 ^ 52 * 2 ^ e); [|nia].
    rewrite <- Z.pow_add_r by lia. apply Z.pow_le_mono_r; unfold e; lia. }
  destruct (Z.geb_spec (q' * 2 ^ e) (2 ^ 1024)); [|lia].
  destruct (Z.ltb_spec z 0); [lia | reflexivity].
Qed.

Lemma decimal_value_nonneg (ds : jsstring) :
  forallb is_digit ds = true ->
  forall v, 0 <= v -> 0 <= fold_left (fun v c => v * 10 + (c - 48)) ds v.
Proof.
  induction ds as [|c ds IH]; intros H v Hv; [exact Hv|].
  cbn [forallb] in H. apply andb_true_iff in H. destruct H as [Hc H].
  destruct (is_digit_facts c Hc) as (_ & _ & _ & Hd).
  cbn [fold_left]. apply IH; [exact H | lia].
Qed.

Lemma take_digits_app (ds rest : jsstring) :
  forallb is_digit ds = true ->
  match rest with [] => True | c :: _ => is_digit c = false end ->
  take_digits (ds ++ rest)%list = ds.
Proof.
  intros H Hrest. induction ds as [|c ds IH].
  - destruct rest as [|c rest]; [reflexivity|]. cbn [app take_digits].
    rewrite Hrest. reflexivity.
  - cbn [forallb] in H. apply andb_true_iff in H. destruct H as [Hc H].
    cbn [app take_digits]. rewrite Hc, IH by exact H. reflexivity.
Qed.

(** [parseInt] on white space, digits and anything that is no digit. *)
Lemma parseInt10_digits (ws ds rest : jsstring) :
  forallb is_space ws = true ->
  ds <> [] -> forallb is_digit ds = true ->
  match rest with [] => True | c :: _ => is_digit c = false end ->
  parseInt10 (ws ++ ds ++ rest)%list = round_to_double (decimal_value ds) /\
  parseInt10 (ws ++ 45 :: ds ++ rest)%list = round_to_double (- decimal_value ds).
Proof.
  intros Hws Hne Hds Hrest. unfold parseInt10.
  rewrite !trim_start_spaces by exact Hws.
  destruct ds as [|c ds]; [contradiction|].
  pose proof Hds as Hc. cbn [forallb] in Hc. apply andb_true_iff in Hc.
  destruct Hc as [Hc _].
  destruct (is_digit_facts c Hc) as (Hsp & _ & _ & Hd).
  split.
  - cbn [app trim_start]. rewrite Hsp.
    destruct (Z.eqb_spec c 45); [lia|]. destruct (Z.eqb_spec c 43); [lia|].
    change (c :: (ds ++ rest)%list) with ((c :: ds) ++ rest)%list.
    rewrite take_digits_app by assumption.
    rewrite Z.mul_1_l. reflexivity.
  - rewrite (trim_start_spaces ws (45 :: (c :: ds) ++ rest)) by exact Hws.
    cbn [app trim_start]. change (is_space 45) with false. cbv iota.
    change (45 =? 45) with true. cbv iota.
    change (c :: (ds ++ rest)%list) with ((c :: ds) ++ rest)%list.
    rewrite take_digits_app by assumption.
    f_equal; lia.
Qed.

(** [parseInt] on a string that does not start, after its white space,
    with a digit or a sign. *)
Lemma parseInt10_NaN (s : jsstring) :
  match trim_start s with
  | [] => True
  | c :: _ => is_digit c = false /\ c <> 45 /\ c <> 43
  end ->
  parseInt10 s = NaN.
Proof.
  unfold parseInt10. destruct (trim_start s) as [|c rest]; [reflexivity|].
  intros (Hd & H45 & H43).
  destruct (Z.eqb_spec c 45); [contradiction|].
  destruct (Z.eqb_spec c 43); [contradiction|].
  cbn [take_digits]. rewrite Hd. reflexivity.
Qed.

(** X29.  How the base of an entry is read.  [parseInt] skips the white
    space before the digits and ignores what follows them, so that
    [" 16px"] is the base 16; a minus sign before the digits gives the
    opposite integer, which is no base.  An integer below 2^53 is read
    exactly, and outside of 2 to 36 it is an [UnsupportedBase]; from
    2^1024 on the number read is an infinity, and a base without digits
    is NaN: in both cases [BigInt(base)] throws a [RangeError], whatever
    the value to parse. *)
Theorem entry_base_reading (ws ds rest str : jsstring) :
  forallb is_space ws = true ->
  ds <> [] -> forallb is_digit ds = true ->
  match rest with [] => True | c :: _ => is_digit c = false end ->
  let d := decimal_value ds in
  let b := (ws ++ ds ++ rest)%list in
  0 <= d /\
  (d < 2 ^ 53 ->
   parseInt10 b = of_int d /\
   parseInt10 (ws ++ 45 :: ds ++ rest)%list = of_int (- d) /\
   parseInBase str (parseInt10 (ws ++ 45 :: ds ++ rest)%list) = Err UnsupportedBase) /\
  (d < 2 \/ 36 < d < 2 ^ 53 ->
   parseInBase str (parseInt10 b) = Err UnsupportedBase) /\
  (2 ^ 1024 <= d ->
   parseInt10 b = Infinity false /\
   parseInBase str (parseInt10 b) = Err RangeError) /\
  (forall s, match trim_start s with
             | [] => True
             | c :: _ => is_digit c = false /\ c <> 45 /\ c <> 43
             end ->
             parseInt10 s = NaN /\
             parseInBase str (parseInt10 s) = Err RangeError).
Proof.
  intros Hws Hne Hds Hrest d b.
  destruct (parseInt10_digits ws ds rest Hws Hne Hds Hrest) as [Eb Em].
  fold d in Eb, Em. fold b in Eb.
  assert (Hd : 0 <= d) by (apply decimal_value_nonneg; [exact Hds | lia]).
  split; [exact Hd|]. split; [|split; [|split]].
  - intros H53. rewrite Eb, Em, !round_to_double_exact by lia.
    split; [reflexivity|]. split; [reflexivity|].
    rewrite (parseInBase_integer str _ (- d)) by apply BigInt_of_int.
    destruct (Z.ltb_spec (- d) 2); [reflexivity | lia].
  - intros Hout. rewrite Eb, round_to_double_exact by lia.
    rewrite (parseInBase_integer str _ d) by apply BigInt_of_int.
    destruct (Z.ltb_spec d 2); [reflexivity|].
    destruct (Z.gtb_spec d 36); [reflexivity | lia].
  - intros Hbig. rewrite Eb, round_to_double_overflow by exact Hbig.
    split; reflexivity.
  - intros s Hs. rewrite (parseInt10_NaN s Hs). split; reflexivity.
Qed.

Lemma entry_base_reading_witness :
  parseInt10 [160; 32; 49; 54; 112; 120] = of_int 16 /\
  parseInBase "ff" (parseInt10 [160; 32; 45; 49; 54; 112; 120]) = Err UnsupportedBase.
Proof.
  destruct (entry_base_reading [160; 32] "16" "px" "ff") as (_ & H & _);
    try reflexivity; [discriminate|].
  destruct H as (E1 & _ & E2); [vm_compute; reflexivity|].
  split; [exact E1 | exact E2].
Defined.
